(** * pick-distinct-colors: the selection strategies and their dispatcher

    A shallow embedding of [pick_distinct_colors.py].  Python floats are the
    kernel's binary64 floats, Python ints are [Z], list positions are [nat].
    The ambient random generator, the wall clock and the caller's list object
    are components of an explicit world that the code threads through. *)

From Stdlib Require Import Floats ZArith Lia.
From stdpp Require Import gmap strings list pretty sorting.

Set Warnings "-inexact-float".

(** ** Python values the module handles *)

(** An RGB tuple of Python ints, a CIELAB tuple of Python floats. *)
Definition rgb : Type := Z * Z * Z.
Definition lab : Type := float * float * float.

(** The exceptions the module can raise or let escape. *)
Inductive exn : Type :=
| ValueError
| IndexError
| TypeError
| ZeroDivisionError.

Inductive outcome (A : Type) : Type :=
| Ok (a : A)
| Raise (e : exn).
Arguments Ok {A} a.
Arguments Raise {A} e.

#[global] Instance exn_eq_dec : EqDecision exn.
Proof. solve_decision. Defined.

#[global] Instance float_inhabited : Inhabited float := populate 0%float.

#[global] Instance outcome_ret : MRet outcome := fun _ a => Ok a.
#[global] Instance outcome_bind : MBind outcome := fun _ _ f m =>
  match m with
  | Ok a => f a
  | Raise e => Raise e
  end.

#[global] Instance outcome_fmap : FMap outcome := fun _ _ f m =>
  match m with
  | Ok a => Ok (f a)
  | Raise e => Raise e
  end.

Definition is_ok {A} (o : outcome A) : bool :=
  match o with Ok _ => true | Raise _ => false end.

(** [l[i]] on a Python list, for a non-negative position. *)
Definition getitem {A} (l : list A) (i : nat) : outcome A :=
  match l !! i with
  | Some a => Ok a
  | None => Raise IndexError
  end.

(** [l.pop(i)]: the element at position [i] and the list without it. *)
Definition list_pop {A} (l : list A) (i : nat) : outcome (A * list A) :=
  match l !! i with
  | Some a => Ok (a, delete i l)
  | None => Raise IndexError
  end.

(** [l[:k]] for a Python int [k]: a negative bound counts from the end. *)
Definition slice_to {A} (l : list A) (k : Z) : list A :=
  if (k <? 0)%Z then take (Z.to_nat (Z.of_nat (length l) + k)) l
  else take (Z.to_nat k) l.

(** [[x for x in range(n) if x not in l]]. *)
Definition not_in_range (n : nat) (l : list nat) : list nat :=
  filter (λ i, i ∉ l) (seq 0 n).

(** [l.remove(x)]: drops the first occurrence (the callers only remove
    members). *)
Fixpoint list_remove (x : nat) (l : list nat) : list nat :=
  match l with
  | [] => []
  | y :: l' => if decide (x = y) then l' else y :: list_remove x l'
  end.

(** ** Floats *)

Module F.
Local Open Scope float_scope.

Definition inf : float := infinity.
Definition neg_inf : float := neg_infinity.

(** [a > b] and [a == b] on floats; any comparison with NaN is false. *)
Definition gt (a b : float) : bool := b <? a.
Definition lt (a b : float) : bool := a <? b.
Definition le (a b : float) : bool := a <=? b.
Definition eq (a b : float) : bool := a =? b.

(** [float(z)] for an int that a binary64 holds exactly. *)
Definition of_Z (z : Z) : float :=
  match z with
  | Z0 => 0
  | Zpos _ => of_uint63 (Uint63.of_Z z)
  | Zneg p => - of_uint63 (Uint63.of_Z (Zpos p))
  end.

Definition of_nat (n : nat) : float := of_Z (Z.of_nat n).

(** The builtin [min(a, b)]: the first argument unless the second is
    smaller. *)
Definition min2 (a b : float) : float := if b <? a then b else a.

(** The builtin [min] of a sequence: the first smallest element;
    [ValueError] on an empty one. *)
Definition min_list (l : list float) : outcome float :=
  match l with
  | [] => Raise ValueError
  | x :: l' => Ok (foldl min2 x l')
  end.

(** The builtin [max] of a sequence: the first largest element. *)
Definition max2 (a b : float) : float := if a <? b then b else a.
Definition max_list (l : list float) : outcome float :=
  match l with
  | [] => Raise ValueError
  | x :: l' => Ok (foldl max2 x l')
  end.

(** The builtin [sum]: left to right from the int [0]. *)
Definition sum (l : list float) : float := foldl add 0 l.

(** What [list.index] and [in] test: the same object, or an equal one. *)
Definition same (a b : float) : bool := (a =? b) || (is_nan a && is_nan b).
End F.

(** The library functions Python delegates to the platform: the C [pow]
    behind [**] on floats, [math.exp], and the order in which a [set] of
    ints is iterated. *)
Class Platform : Type := {
  libm_pow : float → float → float;
  libm_exp : float → float;
  set_order : list nat → list nat;
}.

(** [x ** y] on floats.  A square is the rounded product; every other
    power is the platform's. *)
Definition float_pow `{Platform} (x y : float) : float :=
  if (y =? 2)%float then (x * x)%float else libm_pow x y.

(** ** Metric: RGB to CIELAB and the CIE76 distance *)

Section metric.
Context `{Platform}.
Local Open Scope float_scope.

Definition gamma_correct (c : float) : float :=
  if F.gt c 0.04045 then float_pow ((c + 0.055) / 1.055) 2.4
  else c / 12.92.

Definition lab_f (t : float) : float :=
  if F.gt t 0.008856 then float_pow t (1 / 3)
  else (7.787 * t) + 16 / 116.

Definition rgb_to_lab (c : rgb) : lab :=
  let '(r0, g0, b0) := c in
  let r := F.of_Z r0 / 255 in
  let g := F.of_Z g0 / 255 in
  let b := F.of_Z b0 / 255 in
  let r := gamma_correct r in
  let g := gamma_correct g in
  let b := gamma_correct b in
  let x := (r * 0.4124 + g * 0.3576 + b * 0.1805) * 100 in
  let y := (r * 0.2126 + g * 0.7152 + b * 0.0722) * 100 in
  let z := (r * 0.0193 + g * 0.1192 + b * 0.9505) * 100 in
  let x := x / 95.047 in
  let y := y / 100 in
  let z := z / 108.883 in
  let x := lab_f x in
  let y := lab_f y in
  let z := lab_f z in
  let L := (116 * y) - 16 in
  let a := 500 * (x - y) in
  let b := 200 * (y - z) in
  (L, a, b).

Definition delta_e (lab_a lab_b : lab) : float :=
  let '(L1, a1, b1) := lab_a in
  let '(L2, a2, b2) := lab_b in
  let delta_L := L1 - L2 in
  let delta_a := a1 - a2 in
  let delta_b := b1 - b2 in
  sqrt (float_pow delta_L 2 + float_pow delta_a 2 + float_pow delta_b 2).
End metric.

(** ** [list.sort] and [sort_colors] *)

(** [list.sort] is stable and compares with [<] only.  Stable insertion is
    what it does on short lists, and every stable sort gives the same list
    when [<] is a strict weak order on the keys. *)
Fixpoint insert_sorted {A} (lt : A → A → bool) (x : A) (l : list A) : list A :=
  match l with
  | [] => [x]
  | y :: l' => if lt y x then y :: insert_sorted lt x l' else x :: l
  end.

Definition list_sort {A} (lt : A → A → bool) (l : list A) : list A :=
  foldr (insert_sorted lt) [] l.

(** [<] on tuples of three floats: the first position where the two differ
    decides. *)
Definition tuple3_lt (k1 k2 : float * float * float) : bool :=
  let '(x1, y1, z1) := k1 in
  let '(x2, y2, z2) := k2 in
  if negb (F.eq x1 x2) then F.lt x1 x2
  else if negb (F.eq y1 y2) then F.lt y1 y2
  else F.lt z1 z2.

(** The key of [sort_colors]: [(-L, -a, -b)]. *)
Definition sort_key (c : lab) : float * float * float :=
  let '(L, a, b) := c in ((- L)%float, (- a)%float, (- b)%float).

Section sort_colors.
Context `{Platform}.

Definition sort_colors (colors : list rgb) : list rgb :=
  let lab_colors := rgb_to_lab <$> colors in
  let indices := seq 0 (length colors) in
  let key i := sort_key (lab_colors !!! i) in
  let indices := list_sort (λ i j, tuple3_lt (key i) (key j)) indices in
  (λ i, colors !!! i) <$> indices.
End sort_colors.

(** ** The random generator

    [random] is a global generator.  Its state is the stream of words it
    will hand out; every primitive call takes the next word (an exhausted
    stream keeps giving 0).  The search code runs in [Rnd]: it reads that
    stream and can raise, nothing else. *)

Definition Rnd (A : Type) : Type := list N → outcome A * list N.

#[global] Instance rnd_ret : MRet Rnd := λ _ a s, (Ok a, s).
#[global] Instance rnd_bind : MBind Rnd := λ _ _ f m s,
  match m s with
  | (Ok a, s') => f a s'
  | (Raise e, s') => (Raise e, s')
  end.

Definition rnd_raise {A} (e : exn) : Rnd A := λ s, (Raise e, s).

Definition rnd_of {A} (o : outcome A) : Rnd A := λ s, (o, s).

Definition next_word : Rnd N := λ s,
  match s with
  | [] => (Ok 0%N, [])
  | w :: s' => (Ok w, s')
  end.

(** [random._randbelow(n)] for [n > 0]. *)
Definition randbelow (n : nat) : Rnd nat :=
  w ← next_word; mret (N.to_nat (w mod N.of_nat n)).

(** [random.random()]: a multiple of 2^-53 in [0, 1). *)
Definition random_random : Rnd float :=
  w ← next_word;
  mret (of_uint63 (Uint63.of_Z (Z.of_N (w mod 2 ^ 53))) * 0x1p-53)%float.

(** [random.randint(a, b)]: [ValueError] when the range is empty. *)
Definition random_randint (a b : Z) : Rnd Z :=
  if (b <? a)%Z then rnd_raise ValueError
  else r ← randbelow (Z.to_nat (b - a + 1)); mret (a + Z.of_nat r)%Z.

(** [random.choice(seq)]: [IndexError] on an empty sequence. *)
Definition random_choice {A} (l : list A) : Rnd A :=
  match l with
  | [] => rnd_raise IndexError
  | _ => i ← randbelow (length l); rnd_of (getitem l i)
  end.

(** [random.sample(range(n), k)]: [ValueError] unless [0 <= k <= n];
    otherwise [k] distinct members, drawn the way CPython does from a
    population it copies into a pool (the pick is replaced in the pool by
    the last live entry). *)
Fixpoint sample_pool (k : nat) (pool : list nat) : Rnd (list nat) :=
  match k with
  | O => mret []
  | S k' =>
      let m := length pool in
      j ← randbelow m;
      x ← rnd_of (getitem pool j);
      last ← rnd_of (getitem pool (m - 1));
      rest ← sample_pool k' (take (m - 1) (<[j := last]> pool));
      mret (x :: rest)
  end.

Definition random_sample (n : nat) (k : Z) : Rnd (list nat) :=
  if ((k <? 0) || (Z.of_nat n <? k))%Z then rnd_raise ValueError
  else sample_pool (Z.to_nat k) (seq 0 n).

(** [for x in l: body], threading the loop state. *)
Fixpoint for_each {A S} (l : list A) (body : S → A → Rnd S) (s : S) : Rnd S :=
  match l with
  | [] => mret s
  | x :: l' => s' ← body s x; for_each l' body s'
  end.

(** [for _ in range(n): body]. *)
Fixpoint repeat_n {S} (n : nat) (body : S → Rnd S) (s : S) : Rnd S :=
  match n with
  | O => mret s
  | S n' => s' ← body s; repeat_n n' body s'
  end.

(** [range(k)] for a Python int. *)
Definition range (k : Z) : list nat := seq 0 (Z.to_nat k).

(** ** Settings: a dict of numbers, or [None] *)

Inductive value : Type :=
| VInt (z : Z)
| VFloat (f : float).

Definition settings : Type := option (gmap string value).

(** [if settings is None: settings = {}]. *)
Definition or_empty (s : settings) : gmap string value := default ∅ s.

(** [settings.get(key, dflt)]. *)
Definition settings_get (s : gmap string value) (key : string) (dflt : value) : value :=
  default dflt (s !! key).

(** A number used in float arithmetic. *)
Definition as_float (v : value) : float :=
  match v with
  | VInt z => F.of_Z z
  | VFloat f => f
  end.

(** A number used where an int is required ([range], [randint]). *)
Definition as_int (v : value) : outcome Z :=
  match v with
  | VInt z => Ok z
  | VFloat _ => Raise TypeError
  end.

(** ** The world: generator, clock and the caller's lists *)

Definition loc : Type := nat.

Record world : Type := World {
  entropy : list N;
  clock : list float;
  heap : gmap loc (list rgb);
}.

Definition M (A : Type) : Type := world → outcome A * world.

#[global] Instance m_ret : MRet M := λ _ a w, (Ok a, w).
#[global] Instance m_bind : MBind M := λ _ _ f m w,
  match m w with
  | (Ok a, w') => f a w'
  | (Raise e, w') => (Raise e, w')
  end.

Definition m_raise {A} (e : exn) : M A := λ w, (Raise e, w).

(** Running search code: it sees the generator and nothing else. *)
Definition lift {A} (m : Rnd A) : M A := λ w,
  let '(o, s) := m (entropy w) in
  (o, World s (clock w) (heap w)).

(** [time.time()]. *)
Definition time_time : M float := λ w,
  match clock w with
  | [] => (Ok 0%float, w)
  | t :: c => (Ok t, World (entropy w) c (heap w))
  end.

(** Reading the list a reference points to. *)
Definition deref (l : loc) : M (list rgb) := λ w, (Ok (heap w !!! l), w).

(** ** Results: the dict a strategy returns *)

Inductive rvalue : Type :=
| RColors (cs : list rgb)
| RTime (ms : float).

Abbreviation result := (gmap string rvalue).

Definition m_of {A} (o : outcome A) : M A := λ w, (o, w).

(** Loops of code that can raise but draws nothing. *)
Fixpoint fold_ok {A S} (l : list A) (body : S → A → outcome S) (s : S) : outcome S :=
  match l with
  | [] => Ok s
  | x :: l' => s' ← body s x; fold_ok l' body s'
  end.

Fixpoint repeat_ok {S} (n : nat) (body : S → outcome S) (s : S) : outcome S :=
  match n with
  | O => Ok s
  | S n' => s' ← body s; repeat_ok n' body s'
  end.

(** The rounds of [while len(selected) < select_count] when every round
    appends one index. *)
Definition rounds_left (select_count : Z) (selected : list nat) : nat :=
  Z.to_nat (select_count - Z.of_nat (length selected)).

(** [enumerate(l)]. *)
Definition enumerate {A} (l : list A) : list (nat * A) := imap pair l.

(** ** The strategies *)

Section strategies.
Context `{Platform}.

(** [delta_e(lab_colors[i], lab_colors[j])]. *)
Definition dist_at (lab_colors : list lab) (i j : nat) : outcome float :=
  la ← getitem lab_colors i;
  lb ← getitem lab_colors j;
  Ok (delta_e la lb).

(** Result assembly, the tail of every strategy:
    [selected_colors = [colors[i] for i in selected]] and the dict with
    the sorted colors and the elapsed milliseconds. *)
Definition finish (colors : list rgb) (selected : list nat) (start_time : float)
    : M result :=
  selected_colors ← m_of (mapM (getitem colors) selected);
  let sorted := sort_colors selected_colors in
  t ← time_time;
  mret (<["colors" := RColors sorted]>
        (<["time" := RTime ((t - start_time) * 1000)%float]> ∅)).

(** The frame every strategy shares: read the clock, convert the
    caller's list to CIELAB, search for indices, assemble the result. *)
Definition run_strategy (search : list lab → Rnd (list nat)) (colors : loc)
    : M result :=
  start_time ← time_time;
  cs ← deref colors;
  let lab_colors := rgb_to_lab <$> cs in
  selected ← lift (search lab_colors);
  finish cs selected start_time.

(** *** greedy_selection *)

(** The closure [calculate_min_distance(index)] over [selected]. *)
Definition greedy_calculate_min_distance (lab_colors : list lab)
    (selected : list nat) (index : nat) : outcome float :=
  match selected with
  | [] => Ok F.inf
  | _ => ds ← mapM (dist_at lab_colors index) selected; F.min_list ds
  end.

(** One round of a constructive strategy: scan [available] for the
    entry with the largest score, move it to [selected]. *)
Definition pick_best (score : list nat → nat → outcome float)
    (st : list nat * list nat) : outcome (list nat * list nat) :=
  let '(selected, available) := st in
  '(best_idx, _) ← fold_ok (enumerate available)
      (λ '(best_idx, best) '(i, idx),
         d ← score selected idx;
         Ok (if F.gt d best then (i, d) else (best_idx, best)))
      (0, F.neg_inf);
  '(x, available) ← list_pop available best_idx;
  Ok (selected ++ [x], available).

(** The body shared by the two sequential strategies: a random first
    pick, then rounds of [pick_best]. *)
Definition sequential_search (score : list nat → nat → outcome float)
    (n : nat) (select_count : Z) : Rnd (list nat) :=
  let selected := [] in
  let available := seq 0 n in
  first_idx ← random_randint 0 (Z.of_nat (length available) - 1);
  '(x, available) ← rnd_of (list_pop available (Z.to_nat first_idx));
  let selected := selected ++ [x] in
  '(selected, _) ← rnd_of (repeat_ok (rounds_left select_count selected)
                             (pick_best score) (selected, available));
  mret selected.

Definition greedy_search (lab_colors : list lab) (select_count : Z)
    : Rnd (list nat) :=
  sequential_search (greedy_calculate_min_distance lab_colors)
    (length lab_colors) select_count.

Definition greedy_selection (colors : loc) (select_count : Z) (_ : settings)
    : M result :=
  run_strategy (λ lab_colors, greedy_search lab_colors select_count) colors.

(** *** max_sum_distances_global *)

Definition total_distance_to_others (lab_colors : list lab) (i : nat) : float :=
  F.sum ((λ j, delta_e (lab_colors !!! i) (lab_colors !!! j))
           <$> filter (λ j, i ≠ j) (seq 0 (length lab_colors))).

(** [l.sort(key=..., reverse=True)]: stable, largest key first. *)
Definition sort_reverse {A} (lt : A → A → bool) (l : list A) : list A :=
  reverse (list_sort lt (reverse l)).

Definition max_sum_global_search (lab_colors : list lab) (select_count : Z)
    : Rnd (list nat) :=
  let total_distances :=
    (λ i, (i, total_distance_to_others lab_colors i))
      <$> seq 0 (length lab_colors) in
  let total_distances :=
    sort_reverse (λ x y, F.lt x.2 y.2) total_distances in
  mret (fst <$> slice_to total_distances select_count).

Definition max_sum_distances_global (colors : loc) (select_count : Z)
    (_ : settings) : M result :=
  run_strategy (λ lab_colors, max_sum_global_search lab_colors select_count)
    colors.

(** *** max_sum_distances_sequential *)

Definition calculate_total_distance (lab_colors : list lab)
    (selected : list nat) (index : nat) : outcome float :=
  ds ← mapM (dist_at lab_colors index) selected; Ok (F.sum ds).

Definition max_sum_sequential_search (lab_colors : list lab) (select_count : Z)
    : Rnd (list nat) :=
  sequential_search (calculate_total_distance lab_colors)
    (length lab_colors) select_count.

Definition max_sum_distances_sequential (colors : loc) (select_count : Z)
    (_ : settings) : M result :=
  run_strategy (λ lab_colors, max_sum_sequential_search lab_colors select_count)
    colors.
End strategies.

Section metaheuristics.
Context `{Platform}.
Local Open Scope float_scope.

(** [calculate_fitness(selection)], the closure every local search
    defines: the smallest [delta_e] over the pairs of positions [i < j],
    [inf] when there is no pair. *)
Fixpoint calculate_fitness_from (lab_colors : list lab) (min_dist : float)
    (selection : list nat) : outcome float :=
  match selection with
  | [] => Ok min_dist
  | x :: rest =>
      min_dist ← fold_ok rest
        (λ min_dist y, dist ← dist_at lab_colors x y; Ok (F.min2 min_dist dist))
        min_dist;
      calculate_fitness_from lab_colors min_dist rest
  end.

Definition calculate_fitness (lab_colors : list lab) (selection : list nat)
    : outcome float :=
  calculate_fitness_from lab_colors F.inf selection.

(** *** simulated_annealing *)

Record sa_state : Type := SaState {
  sa_current : list nat;
  sa_current_fitness : float;
  sa_best : list nat;
  sa_best_fitness : float;
  sa_temperature : float;
}.

Definition sa_step (lab_colors : list lab) (select_count : Z)
    (cooling_rate : float) (st : sa_state) : Rnd sa_state :=
  let current_solution := sa_current st in
  let temperature := sa_temperature st in
  swap_index ← random_randint 0 (select_count - 1);
  let available_indices := not_in_range (length lab_colors) current_solution in
  new_index ← random_choice available_indices;
  let neighbor_solution := <[Z.to_nat swap_index := new_index]> current_solution in
  neighbor_fitness ← rnd_of (calculate_fitness lab_colors neighbor_solution);
  let delta := neighbor_fitness - sa_current_fitness st in
  accept ←
    (if F.gt delta 0 then mret true
     else
       r ← random_random;
       if F.eq temperature 0 then rnd_raise ZeroDivisionError
       else mret (F.lt r (libm_exp (delta / temperature))));
  let st :=
    if accept : bool then
      if F.gt neighbor_fitness (sa_best_fitness st)
      then SaState neighbor_solution neighbor_fitness
             neighbor_solution neighbor_fitness temperature
      else SaState neighbor_solution neighbor_fitness
             (sa_best st) (sa_best_fitness st) temperature
    else st in
  mret (SaState (sa_current st) (sa_current_fitness st) (sa_best st)
          (sa_best_fitness st) (temperature * cooling_rate)).

(** [for i in range(max_iterations)] with its [break]. *)
Fixpoint sa_loop (iterations : nat) (lab_colors : list lab) (select_count : Z)
    (cooling_rate min_temp : float) (st : sa_state) : Rnd sa_state :=
  match iterations with
  | O => mret st
  | S iterations' =>
      if F.le (sa_temperature st) min_temp then mret st
      else
        st ← sa_step lab_colors select_count cooling_rate st;
        sa_loop iterations' lab_colors select_count cooling_rate min_temp st
  end.

Definition simulated_annealing_search (lab_colors : list lab)
    (select_count : Z) (settings : gmap string value) : Rnd (list nat) :=
  let max_iterations := Z.to_nat 10000 in
  let initial_temp := as_float (settings_get settings "initialTemp" (VInt 1000)) in
  let cooling_rate := as_float (settings_get settings "coolingRate" (VFloat 0.995)) in
  let min_temp := as_float (settings_get settings "minTemp" (VFloat 0.1)) in
  current_solution ← random_sample (length lab_colors) select_count;
  current_fitness ← rnd_of (calculate_fitness lab_colors current_solution);
  st ← sa_loop max_iterations lab_colors select_count cooling_rate min_temp
         (SaState current_solution current_fitness
            current_solution current_fitness initial_temp);
  mret (sa_best st).

Definition simulated_annealing (colors : loc) (select_count : Z)
    (settings : settings) : M result :=
  let settings := or_empty settings in
  run_strategy
    (λ lab_colors, simulated_annealing_search lab_colors select_count settings)
    colors.

(** *** kmeans_plus_plus_selection *)

Definition min_distance_to_centers (lab_colors : list lab) (point : nat)
    (centers : list nat) : outcome float :=
  match centers with
  | [] => Ok F.inf
  | _ => ds ← mapM (dist_at lab_colors point) centers; F.min_list ds
  end.

(** The roulette loop
    [while random_val > 0 and selected_index < len(distances)], run over
    the entries from [selected_index] on. *)
Fixpoint kmeans_roulette (selected : list nat) (random_val : float)
    (selected_index : nat) (rest : list float) : nat :=
  match rest with
  | [] => selected_index
  | d :: rest' =>
      if F.gt random_val 0 then
        let random_val :=
          if bool_decide (selected_index ∉ selected) then random_val - d
          else random_val in
        if F.gt random_val 0
        then kmeans_roulette selected random_val (S selected_index) rest'
        else selected_index
      else selected_index
  end.

Definition kmeans_round (lab_colors : list lab) (selected : list nat)
    : Rnd (list nat) :=
  let n := length lab_colors in
  distances ← rnd_of (mapM
    (λ i, if bool_decide (i ∈ selected) then Ok 0
          else dist ← min_distance_to_centers lab_colors i selected;
               Ok (dist * dist))
    (seq 0 n));
  let total := F.sum distances in
  if F.eq total 0 then
    let available := not_in_range n selected in
    x ← random_choice available;
    mret (selected ++ [x])
  else
    r ← random_random;
    let random_val := r * total in
    let selected_index := kmeans_roulette selected random_val 0 distances in
    mret (selected ++ [selected_index]).

Definition kmeans_plus_plus_search (lab_colors : list lab) (select_count : Z)
    : Rnd (list nat) :=
  first ← random_randint 0 (Z.of_nat (length lab_colors) - 1);
  let selected := [Z.to_nat first] in
  repeat_n (rounds_left select_count selected) (kmeans_round lab_colors) selected.

Definition kmeans_plus_plus_selection (colors : loc) (select_count : Z)
    (_ : settings) : M result :=
  run_strategy (λ lab_colors, kmeans_plus_plus_search lab_colors select_count)
    colors.
End metaheuristics.

Section population_search.
Context `{Platform}.
Local Open Scope float_scope.

(** [l.index(x)]: the first position holding [x]. *)
Fixpoint list_index (x : float) (l : list float) : outcome nat :=
  match l with
  | [] => Raise ValueError
  | y :: l' => if F.same y x then Ok O else S <$> list_index x l'
  end.

(** [max(l, key=key)]: the first entry with the largest key. *)
Definition max_by_key (key : Z → float) (l : list Z) : outcome Z :=
  match l with
  | [] => Raise ValueError
  | x :: l' => Ok (foldl (λ best y, if F.gt (key y) (key best) then y else best) x l')
  end.

(** *** genetic_algorithm *)

(** One child: two tournaments, crossover, padding, truncation and the
    mutation. *)
Definition ga_child (n : nat) (select_count population_size : Z)
    (mutation_rate : float) (population : list (list nat))
    (fitnesses : list float) : Rnd (list nat) :=
  tournament1 ← mapM (λ _ : nat, random_randint 0 (population_size - 1)) (seq 0 3);
  tournament2 ← mapM (λ _ : nat, random_randint 0 (population_size - 1)) (seq 0 3);
  let key (i : Z) := fitnesses !!! Z.to_nat i in
  parent1_idx ← rnd_of (max_by_key key tournament1);
  parent2_idx ← rnd_of (max_by_key key tournament2);
  parent1 ← rnd_of (getitem population (Z.to_nat parent1_idx));
  parent2 ← rnd_of (getitem population (Z.to_nat parent2_idx));
  crossover_point ← random_randint 0 (select_count - 1);
  let cp := Z.to_nat crossover_point in
  let child := set_order (take cp parent1 ++ drop cp parent2) in
  child ← repeat_n (rounds_left select_count child)
    (λ child, x ← random_choice (not_in_range n child); mret (child ++ [x]))
    child;
  let child := slice_to child select_count in
  r ← random_random;
  if F.lt r mutation_rate then
    mutation_index ← random_randint 0 (select_count - 1);
    let available := not_in_range n child in
    match available with
    | [] => mret child
    | _ => x ← random_choice available;
           mret (<[Z.to_nat mutation_index := x]> child)
    end
  else mret child.

Definition ga_generation (lab_colors : list lab) (select_count : Z)
    (population_size : Z) (mutation_rate : float)
    (st : list (list nat) * (list nat * float))
    : Rnd (list (list nat) * (list nat * float)) :=
  let '(population, (best_solution, best_fitness)) := st in
  fitnesses ← rnd_of (mapM (calculate_fitness lab_colors) population);
  top ← rnd_of (F.max_list fitnesses);
  max_fitness_index ← rnd_of (list_index top fitnesses);
  let best :=
    if F.gt (fitnesses !!! max_fitness_index) best_fitness
    then (population !!! max_fitness_index, fitnesses !!! max_fitness_index)
    else (best_solution, best_fitness) in
  new_population ← repeat_n (Z.to_nat population_size)
    (λ new_population,
       child ← ga_child (length lab_colors) select_count population_size
                 mutation_rate population fitnesses;
       mret (new_population ++ [child]))
    [];
  mret (new_population, best).

Definition genetic_algorithm_search (lab_colors : list lab) (select_count : Z)
    (settings : gmap string value) : Rnd (list nat) :=
  let population_size := settings_get settings "populationSize" (VInt 100) in
  let generations := settings_get settings "generations" (VInt 100) in
  let mutation_rate := as_float (settings_get settings "mutationRate" (VFloat 0.1)) in
  population_size ← rnd_of (as_int population_size);
  population ← repeat_n (Z.to_nat population_size)
    (λ population,
       individual ← random_sample (length lab_colors) select_count;
       mret (population ++ [individual]))
    [];
  best_solution ← rnd_of (getitem population 0);
  best_fitness ← rnd_of (calculate_fitness lab_colors best_solution);
  generations ← rnd_of (as_int generations);
  '(_, (best_solution, _)) ← repeat_n (Z.to_nat generations)
    (ga_generation lab_colors select_count population_size mutation_rate)
    (population, (best_solution, best_fitness));
  mret best_solution.

Definition genetic_algorithm (colors : loc) (select_count : Z)
    (settings : settings) : M result :=
  let settings := or_empty settings in
  run_strategy
    (λ lab_colors, genetic_algorithm_search lab_colors select_count settings)
    colors.

(** *** particle_swarm_optimization *)

Record particle : Type := Particle {
  position : list nat;
  velocity : list Z;
  best_position : list nat;
  best_fitness : float;
}.

(** The slot loop [for i in range(select_count)] of one particle. *)
Definition pso_move_slot (n : nat) (position : list nat) (i : nat)
    : Rnd (list nat) :=
  r1 ← random_random;
  r2 ← random_random;
  r ← random_random;
  if F.lt r 0.5 then
    let available := not_in_range n position in
    match available with
    | [] => mret position
    | _ => x ← random_choice available; mret (<[i := x]> position)
    end
  else mret position.

Definition pso_particle (lab_colors : list lab) (select_count : Z)
    (st : list nat * float) (p : particle) : Rnd (particle * (list nat * float)) :=
  let '(global_best_position, global_best_fitness) := st in
  fitness ← rnd_of (calculate_fitness lab_colors (position p));
  let '(p, st) :=
    if F.gt fitness (best_fitness p) then
      (Particle (position p) (velocity p) (position p) fitness,
       if F.gt fitness global_best_fitness then (position p, fitness)
       else (global_best_position, global_best_fitness))
    else (p, (global_best_position, global_best_fitness)) in
  pos ← for_each (range select_count) (pso_move_slot (length lab_colors))
           (position p);
  mret (Particle pos (velocity p) (best_position p) (best_fitness p), st).

(** [for particle in particles], the particles updated in place. *)
Fixpoint pso_sweep (lab_colors : list lab) (select_count : Z)
    (particles : list particle) (st : list nat * float)
    : Rnd (list particle * (list nat * float)) :=
  match particles with
  | [] => mret ([], st)
  | p :: ps =>
      '(p, st) ← pso_particle lab_colors select_count st p;
      '(ps, st) ← pso_sweep lab_colors select_count ps st;
      mret (p :: ps, st)
  end.

Definition particle_swarm_search (lab_colors : list lab) (select_count : Z)
    (settings : gmap string value) : Rnd (list nat) :=
  let num_particles := settings_get settings "numParticles" (VInt 30) in
  let max_iterations := settings_get settings "iterations" (VInt 100) in
  let w := settings_get settings "inertiaWeight" (VFloat 0.7) in
  let c1 := settings_get settings "cognitiveWeight" (VFloat 1.5) in
  let c2 := settings_get settings "socialWeight" (VFloat 1.5) in
  num_particles ← rnd_of (as_int num_particles);
  particles ← repeat_n (Z.to_nat num_particles)
    (λ particles,
       position ← random_sample (length lab_colors) select_count;
       fitness ← rnd_of (calculate_fitness lab_colors position);
       mret (particles ++
               [Particle position (replicate (Z.to_nat select_count) 0%Z)
                  position fitness]))
    [];
  first ← rnd_of (getitem particles 0);
  let global_best :=
    foldl (λ '(gp, gf) p,
             if F.gt (best_fitness p) gf then (best_position p, best_fitness p)
             else (gp, gf))
      (best_position first, best_fitness first) particles in
  max_iterations ← rnd_of (as_int max_iterations);
  '(_, (global_best_position, _)) ← repeat_n (Z.to_nat max_iterations)
    (λ '(particles, st), pso_sweep lab_colors select_count particles st)
    (particles, global_best);
  mret global_best_position.

Definition particle_swarm_optimization (colors : loc) (select_count : Z)
    (settings : settings) : M result :=
  let settings := or_empty settings in
  run_strategy
    (λ lab_colors, particle_swarm_search lab_colors select_count settings)
    colors.
End population_search.

Section colony_tabu_exact.
Context `{Platform}.
Local Open Scope float_scope.

(** The pairs [(selection[i], selection[j])] for [i < j], in the order
    of the nested [range] loops. *)
Fixpoint pairs_of (selection : list nat) : list (nat * nat) :=
  match selection with
  | [] => []
  | x :: rest => (pair x <$> rest) ++ pairs_of rest
  end.

(** *** ant_colony_optimization *)

(** [distances[i][j]]: zero on the diagonal, [delta_e] of the pair taken
    with the smaller index first elsewhere. *)
Definition aco_distance (lab_colors : list lab) (i j : nat) : float :=
  if decide (i = j) then 0
  else delta_e (lab_colors !!! (i `min` j)%nat) (lab_colors !!! (i `max` j)%nat).

(** The roulette loop over [probabilities]. *)
Fixpoint aco_roulette (random_val : float) (selected_index : nat)
    (rest : list float) : nat :=
  match rest with
  | [] => selected_index
  | p :: rest' =>
      if F.gt random_val 0 then
        let random_val := random_val - p in
        if F.gt random_val 0 then aco_roulette random_val (S selected_index) rest'
        else selected_index
      else selected_index
  end.

Definition aco_pick (lab_colors : list lab) (pheromones : list float)
    (alpha beta : float) (solution available : list nat) : Rnd nat :=
  probabilities ← rnd_of (mapM
    (λ i,
       let pheromone := float_pow (pheromones !!! i) alpha in
       min_dist ← match solution with
                  | [] => Ok 1
                  | _ => F.min_list (aco_distance lab_colors i <$> solution)
                  end;
       let heuristic := float_pow min_dist beta in
       Ok (pheromone * heuristic))
    available);
  let total := F.sum probabilities in
  if F.eq total 0 then random_choice available
  else
    r ← random_random;
    let random_val := r * total in
    let selected_index := aco_roulette random_val 0 probabilities in
    rnd_of (getitem available (selected_index `min` (length available - 1))%nat).

(** [while len(solution) < select_count and available]. *)
Fixpoint aco_walk (rounds : nat) (lab_colors : list lab) (pheromones : list float)
    (alpha beta : float) (solution available : list nat) : Rnd (list nat) :=
  match rounds, available with
  | O, _ | _, [] => mret solution
  | S rounds', _ =>
      selected_index ← aco_pick lab_colors pheromones alpha beta solution available;
      aco_walk rounds' lab_colors pheromones alpha beta
        (solution ++ [selected_index]) (list_remove selected_index available)
  end.

Definition aco_ant (lab_colors : list lab) (select_count : Z)
    (pheromones : list float) (alpha beta : float) : Rnd (list nat) :=
  let available := seq 0 (length lab_colors) in
  let solution := [] in
  first_index ← random_randint 0 (Z.of_nat (length available) - 1);
  '(x, available) ← rnd_of (list_pop available (Z.to_nat first_index));
  let solution := solution ++ [x] in
  aco_walk (rounds_left select_count solution) lab_colors pheromones alpha beta
    solution available.

(** The evaluation loop over the tours of one iteration. *)
Definition aco_evaluate (lab_colors : list lab) (select_count : Z)
    (best : option (list nat) * float) (solution : list nat)
    : outcome (option (list nat) * float) :=
  if (Z.of_nat (length solution) =? select_count)%Z then
    ds ← mapM (λ '(a, b), dist_at lab_colors a b) (pairs_of solution);
    fitness ← F.min_list ds;
    Ok (if F.gt fitness best.2 then (Some solution, fitness) else best)
  else Ok best.

Definition aco_deposit (select_count : Z) (pheromones : list float)
    (solution : list nat) : list float :=
  if (Z.of_nat (length solution) =? select_count)%Z then
    let deposit := 1 / F.of_nat (length solution) in
    foldl (λ ph i, alter (λ p, p + deposit) i ph) pheromones solution
  else pheromones.

Definition aco_iteration (lab_colors : list lab) (select_count : Z)
    (num_ants : value) (evaporation_rate alpha beta : float)
    (st : list float * (option (list nat) * float))
    : Rnd (list float * (option (list nat) * float)) :=
  let '(pheromones, best) := st in
  num_ants ← rnd_of (as_int num_ants);
  solutions ← repeat_n (Z.to_nat num_ants)
    (λ solutions,
       solution ← aco_ant lab_colors select_count pheromones alpha beta;
       mret (solutions ++ [solution]))
    [];
  best ← rnd_of (fold_ok solutions (aco_evaluate lab_colors select_count) best);
  let pheromones := (λ p, p * (1 - evaporation_rate)) <$> pheromones in
  let pheromones := foldl (aco_deposit select_count) pheromones solutions in
  mret (pheromones, best).

Definition ant_colony_search (lab_colors : list lab) (select_count : Z)
    (settings : gmap string value) : Rnd (list nat) :=
  let num_ants := settings_get settings "numAnts" (VInt 20) in
  let max_iterations := settings_get settings "iterations" (VInt 100) in
  let evaporation_rate := as_float (settings_get settings "evaporationRate" (VFloat 0.1)) in
  let alpha := as_float (settings_get settings "pheromoneImportance" (VInt 1)) in
  let beta := as_float (settings_get settings "heuristicImportance" (VInt 2)) in
  let pheromones := replicate (length lab_colors) 1 in
  max_iterations ← rnd_of (as_int max_iterations);
  '(_, (best_solution, _)) ← repeat_n (Z.to_nat max_iterations)
    (aco_iteration lab_colors select_count num_ants evaporation_rate alpha beta)
    (pheromones, (None, F.neg_inf));
  match best_solution with
  | None => random_sample (length lab_colors) select_count
  | Some best_solution => mret best_solution
  end.

Definition ant_colony_optimization (colors : loc) (select_count : Z)
    (settings : settings) : M result :=
  let settings := or_empty settings in
  run_strategy
    (λ lab_colors, ant_colony_search lab_colors select_count settings)
    colors.

(** *** tabu_search *)

Definition get_move_key (old_color new_color : nat) : string :=
  pretty old_color +:+ "-" +:+ pretty new_color.

(** [iteration + tabu_tenure] and [expiration <= iteration] on Python
    numbers. *)
Definition num_add (z : Z) (v : value) : value :=
  match v with
  | VInt t => VInt (z + t)
  | VFloat t => VFloat (F.of_Z z + t)
  end.

Definition num_le (v : value) (z : Z) : bool :=
  match v with
  | VInt t => (t <=? z)%Z
  | VFloat t => F.le t (F.of_Z z)
  end.

Record tabu_state : Type := TabuState {
  tabu_current : list nat;
  tabu_best : list nat;
  tabu_best_fitness : float;
  tabu_list : gmap string value;
}.

(** The double loop that examines every move of one iteration. *)
Definition tabu_examine (lab_colors : list lab) (select_count : Z)
    (iteration : Z) (st : tabu_state) : outcome (option (list nat) * float) :=
  let current := tabu_current st in
  fold_ok (i ← range select_count; j ← seq 0 (length lab_colors); [(i, j)])
    (λ '(best_neighbor_solution, best_neighbor_fitness) '(i, j),
       if bool_decide (j ∉ current) then
         c ← getitem current i;
         let move_key := get_move_key c j in
         let neighbor := <[i := j]> current in
         fitness ← calculate_fitness lab_colors neighbor;
         let free :=
           match tabu_list st !! move_key with
           | None => true
           | Some expiration => num_le expiration iteration
           end in
         Ok (if (F.gt fitness best_neighbor_fitness && free)
                || F.gt fitness (tabu_best_fitness st)
             then (Some neighbor, fitness)
             else (best_neighbor_solution, best_neighbor_fitness))
       else Ok (best_neighbor_solution, best_neighbor_fitness))
    (None, F.neg_inf).

(** The rest of an iteration once a neighbour was chosen. *)
Definition tabu_apply (select_count : Z) (tabu_tenure : value) (iteration : Z)
    (st : tabu_state) (neighbor : list nat) (fitness : float)
    : outcome tabu_state :=
  let current := neighbor in
  let '(best, best_fitness) :=
    if F.gt fitness (tabu_best_fitness st) then (current, fitness)
    else (tabu_best st, tabu_best_fitness st) in
  tabu ← fold_ok (range select_count)
    (λ tabu i,
       c ← getitem current i;
       b ← getitem best i;
       Ok (<[get_move_key c b := num_add iteration tabu_tenure]> tabu))
    (tabu_list st);
  let tabu := filter (λ kv, num_le kv.2 iteration = false) tabu in
  Ok (TabuState current best best_fitness tabu).

(** [for iteration in range(max_iterations)] with its [break]. *)
Fixpoint tabu_loop (iterations : nat) (lab_colors : list lab) (select_count : Z)
    (tabu_tenure : value) (iteration : Z) (st : tabu_state) : outcome tabu_state :=
  match iterations with
  | O => Ok st
  | S iterations' =>
      '(best_neighbor_solution, best_neighbor_fitness) ←
        tabu_examine lab_colors select_count iteration st;
      match best_neighbor_solution with
      | None => Ok st
      | Some neighbor =>
          st ← tabu_apply select_count tabu_tenure iteration st neighbor
                 best_neighbor_fitness;
          tabu_loop iterations' lab_colors select_count tabu_tenure
            (iteration + 1) st
      end
  end.

(** The search up to the end of its loop: the state it leaves. *)
Definition tabu_search_state (lab_colors : list lab) (select_count : Z)
    (settings : gmap string value) : outcome tabu_state :=
  let max_iterations := settings_get settings "maxIterations" (VInt 1000) in
  let tabu_tenure := settings_get settings "tabuTenure" (VInt 5) in
  let current := range select_count in
  let best := current in
  best_fitness ← calculate_fitness lab_colors best;
  max_iterations ← as_int max_iterations;
  tabu_loop (Z.to_nat max_iterations) lab_colors select_count tabu_tenure 0
    (TabuState current best best_fitness ∅).

Definition tabu_search_run (lab_colors : list lab) (select_count : Z)
    (settings : gmap string value) : outcome (list nat) :=
  tabu_best <$> tabu_search_state lab_colors select_count settings.

Definition tabu_search (colors : loc) (select_count : Z) (settings : settings)
    : M result :=
  let settings := or_empty settings in
  run_strategy
    (λ lab_colors, rnd_of (tabu_search_run lab_colors select_count settings))
    colors.

(** *** exact_minimum *)

(** [itertools.combinations(l, k)], in its lexicographic order. *)
Fixpoint combinations {A} (l : list A) (k : nat) : list (list A) :=
  match k with
  | O => [[]]
  | S k' =>
      match l with
      | [] => []
      | x :: l' => (cons x <$> combinations l' k') ++ combinations l' k
      end
  end.

Definition calculate_min_distance (lab_colors : list lab) (selection : list nat)
    : outcome float :=
  calculate_fitness_from lab_colors F.inf selection.

Definition exact_minimum_scan (lab_colors : list lab)
    (selections : list (list nat)) : outcome (option (list nat) * float) :=
  fold_ok selections
    (λ '(best_selection, best_min_distance) selection,
       min_distance ← calculate_min_distance lab_colors selection;
       Ok (if F.gt min_distance best_min_distance
           then (Some selection, min_distance)
           else (best_selection, best_min_distance)))
    (None, F.neg_inf).

Definition exact_minimum_search (lab_colors : list lab) (select_count : Z)
    : outcome (list nat) :=
  let indices := seq 0 (length lab_colors) in
  if (select_count <? 0)%Z then Raise ValueError
  else
    '(best_selection, _) ←
      exact_minimum_scan lab_colors (combinations indices (Z.to_nat select_count));
    match best_selection with
    | None => Raise TypeError
    | Some best_selection => Ok best_selection
    end.

Definition exact_minimum (colors : loc) (select_count : Z) (_ : settings)
    : M result :=
  run_strategy
    (λ lab_colors, rnd_of (exact_minimum_search lab_colors select_count))
    colors.

(** ** The dispatcher *)

Definition strategy : Type := loc → Z → settings → M result.

Definition ALGORITHMS : gmap string strategy :=
  list_to_map [
    ("greedy", greedy_selection);
    ("max_sum_global", max_sum_distances_global);
    ("max_sum_sequential", max_sum_distances_sequential);
    ("simulated_annealing", simulated_annealing);
    ("kmeans_plus_plus", kmeans_plus_plus_selection);
    ("genetic_algorithm", genetic_algorithm);
    ("particle_swarm", particle_swarm_optimization);
    ("ant_colony", ant_colony_optimization);
    ("tabu_search", tabu_search);
    ("exact_minimum", exact_minimum)
  ].

Definition select_distinct_colors (colors : loc) (select_count : Z)
    (algorithm : string) (settings : settings) : M result :=
  match ALGORITHMS !! algorithm with
  | None => m_raise ValueError
  | Some run =>
      cs ← deref colors;
      if (Z.of_nat (length cs) <? select_count)%Z then m_raise ValueError
      else run colors select_count settings
  end.
End colony_tabu_exact.

(** ** Example inputs *)

(** Three dark greys.  Every channel is below the gamma threshold and every
    tristimulus value below the cube-root threshold, so their CIELAB
    coordinates involve no platform power. *)
Definition dark_pool : list rgb := [(0, 0, 0)%Z; (6, 6, 6)%Z; (10, 10, 10)%Z].

(** A world whose generator hands out zeros, with the pool at reference
    [pool_ref]. *)
Definition pool_ref : loc := 0.

Definition dark_world : world :=
  World [0%N; 0%N] [1%float; 2.5%float] {[ pool_ref := dark_pool ]}.

(** A platform without transcendental functions: a power other than a
    square, or an exponential, comes out as NaN; a small set of small ints
    is iterated in ascending order, as CPython does.  The runs on
    [dark_pool] below never reach the two NaN answers. *)
Definition bare_platform : Platform := {|
  libm_pow := λ _ _, nan;
  libm_exp := λ _, nan;
  set_order := λ l, merge_sort (≤) (remove_dups l);
|}.

(** What an observer reads off a call: the entry of the result under a key,
    or the exception. *)
Definition entry (key : string) (x : outcome result * world) : outcome (option rvalue) :=
  (λ r : result, r !! key) <$> x.1.

(** A strategy that is [run_strategy] around some search. *)
Definition framed `{Platform} (f : strategy) : Prop :=
  ∃ search : Z → settings → list lab → Rnd (list nat),
    ∀ colors k s, f colors k s = run_strategy (search k s) colors.

(** The world a call of [run_strategy] leaves when the search returned:
    the clock is read once before and once after. *)
Definition tick (w : world) : float * world :=
  match clock w with
  | [] => (0%float, w)
  | t :: c => (t, World (entropy w) c (heap w))
  end.

(** ** Orders *)

(** The three-way comparison of IEEE 754, undefined when a NaN is involved;
    [<], [<=] and [==] on floats are read off it. *)
Definition fcmp (x y : float) : option comparison :=
  SFcompare (Prim2SF x) (Prim2SF y).

(** A float that is a number: it compares with itself. *)
Definition is_num (x : float) : Prop := fcmp x x = Some Eq.

(** Lexicographic combination of two comparisons. *)
Definition lex (c1 c2 : option comparison) : option comparison :=
  match c1 with
  | Some Eq => c2
  | _ => c1
  end.

Definition tuple3_cmp (k1 k2 : float * float * float) : option comparison :=
  let '(x1, y1, z1) := k1 in
  let '(x2, y2, z2) := k2 in
  lex (fcmp x1 x2) (lex (fcmp y1 y2) (fcmp z1 z2)).

(** A partial three-way comparison that behaves as an order wherever it
    is defined. *)
Class Ordered {A : Type} (cmp : A → A → option comparison) : Prop := {
  cmp_antisym x y : cmp y x = CompOpp <$> cmp x y;
  cmp_trans x y z : cmp x y = Some Lt → cmp y z = Some Lt → cmp x z = Some Lt;
  cmp_eq_l x y z : cmp x y = Some Eq → cmp x z = cmp y z;
}.

(** [x] is comparable with [y] and not below it. *)
Definition not_below {A : Type} (cmp : A → A → option comparison) (x y : A) : Prop :=
  cmp x y = Some Eq ∨ cmp x y = Some Gt.

(** [a > b] on tuples. *)
Definition tuple3_gt (k1 k2 : float * float * float) : bool := tuple3_lt k2 k1.

(** A colour list in canonical order: no colour is followed, anywhere
    later, by one whose [(L, a, b)] is greater. *)
Definition canonical `{Platform} (out : list rgb) : Prop :=
  ∀ i j ci cj,
    i < j → out !! i = Some ci → out !! j = Some cj →
    tuple3_gt (rgb_to_lab cj) (rgb_to_lab ci) = false.

(** The three coordinates of a CIELAB tuple are numbers. *)
Definition lab_is_num (c : lab) : Prop :=
  is_num c.1.1 ∧ is_num c.1.2 ∧ is_num c.2.

(** The selection invariant: [k] distinct positions of a pool of size [n]. *)
Definition selection_ok (n : nat) (k : Z) (selection : list nat) : Prop :=
  NoDup selection ∧ Z.of_nat (length selection) = k ∧ ∀ i, i ∈ selection → i < n.

(** The distances the nested loops of [calculate_fitness] visit, in
    order, for a selection of valid positions. *)
Definition pair_distances `{Platform} (lab_colors : list lab)
    (selection : list nat) : list float :=
  (λ p, delta_e (lab_colors !!! p.1) (lab_colors !!! p.2)) <$> pairs_of selection.

(** Every distance inside the pool is a non-negative number. *)
Definition distances_ok `{Platform} (lab_colors : list lab) : Prop :=
  ∀ la lb, la ∈ lab_colors → lb ∈ lab_colors → F.le 0 (delta_e la lb) = true.

(** ** Pools, palettes and metrics *)

(** [l[i] = x]: [IndexError] when [i] is out of range. *)
Definition setitem {A} (l : list A) (i : nat) (x : A) : outcome (list A) :=
  if decide (i < length l) then Ok (<[i := x]> l) else Raise IndexError.

(** [random_color()]: the channels are drawn in the order r, g, b. *)
Definition random_color : Rnd rgb :=
  r ← random_randint 0 255;
  g ← random_randint 0 255;
  b ← random_randint 0 255;
  mret (r, g, b).

(** [[random_color() for _ in range(count)]]. *)
Definition generate_random_colors (count : Z) : Rnd (list rgb) :=
  repeat_n (Z.to_nat count)
    (λ colors, c ← random_color; mret (colors ++ [c])) [].

(** [generate_color_palette(total_colors, custom_colors, mode)]; a list is
    falsy when it is empty. *)
Definition generate_color_palette (total_colors : Z)
    (custom_colors : option (list rgb)) (mode : string) : Rnd (list rgb) :=
  let custom_colors := default [] custom_colors in
  if bool_decide (mode = "replace") && bool_decide (custom_colors ≠ []) then
    mret custom_colors
  else if bool_decide (mode = "append") then
    random_colors ← generate_random_colors total_colors;
    mret (random_colors ++ custom_colors)
  else if bool_decide (mode = "mixed") && bool_decide (custom_colors ≠ []) then
    random_colors ← generate_random_colors total_colors;
    let num_to_replace := length custom_colors `min` length random_colors in
    random_colors ← rnd_of (fold_ok (seq 0 num_to_replace)
      (λ random_colors i, c ← getitem custom_colors i; setitem random_colors i c)
      random_colors);
    if decide (length random_colors < length custom_colors) then
      mret (random_colors ++ drop (length random_colors) custom_colors)
    else mret random_colors
  else generate_random_colors total_colors.

(** A colour whose channels are bytes. *)
Definition channel_ok (c : Z) : Prop := (0 ≤ c ≤ 255)%Z.
Definition rgb_ok (c : rgb) : Prop :=
  channel_ok c.1.1 ∧ channel_ok c.1.2 ∧ channel_ok c.2.

Section pools.
Context `{Platform}.

(** [calculate_metrics(colors)]: the dict holds the int [0] four times
    when there is no pair, floats otherwise. *)
Definition calculate_metrics (colors : list rgb) : outcome (gmap string value) :=
  let lab_colors := rgb_to_lab <$> colors in
  distances ← fold_ok (seq 0 (length colors - 1))
    (λ distances i,
       fold_ok (seq (i + 1) (length colors - (i + 1)))
         (λ distances j,
            dist ← dist_at lab_colors i j;
            Ok (distances ++ [dist]))
         distances)
    [];
  match distances with
  | [] => Ok (<["min" := VInt 0]> (<["max" := VInt 0]>
               (<["avg" := VInt 0]> (<["sum" := VInt 0]> ∅))))
  | _ =>
      mn ← F.min_list distances;
      mx ← F.max_list distances;
      Ok (<["min" := VFloat mn]> (<["max" := VFloat mx]>
            (<["avg" := VFloat (F.sum distances / F.of_nat (length distances))]>
               (<["sum" := VFloat (F.sum distances)]> ∅))))
  end.

(** A list the module creates: it is stored where nothing was. *)
Definition alloc (cs : list rgb) : M loc := λ w,
  let l := fresh (dom (heap w) : gset nat) in
  (Ok l, World (entropy w) (clock w) (<[l := cs]> (heap w))).

(** [generate_n_colors(n, algorithm, settings)]. *)
Definition generate_n_colors (n : Z) (algorithm : string) (settings : settings)
    : M result :=
  let pool_size := Z.max (n * 10) 20 in
  color_pool ← lift (generate_random_colors pool_size);
  color_pool ← alloc color_pool;
  select_distinct_colors color_pool n algorithm settings.
End pools.

(** ** The search of each strategy *)

(** What a strategy runs between reading the pool and assembling its
    result: a function of the requested count, the settings and the
    CIELAB pool in the caller's order, which draws from the generator and
    returns positions of the pool. *)
Definition search : Type := Z → settings → list lab → Rnd (list nat).

(** The search inside each entry of [ALGORITHMS]. *)
Definition SEARCHES `{Platform} : gmap string search :=
  list_to_map [
    ("greedy", λ k _ lab_colors, greedy_search lab_colors k);
    ("max_sum_global", λ k _ lab_colors, max_sum_global_search lab_colors k);
    ("max_sum_sequential",
       λ k _ lab_colors, max_sum_sequential_search lab_colors k);
    ("simulated_annealing",
       λ k s lab_colors, simulated_annealing_search lab_colors k (or_empty s));
    ("kmeans_plus_plus", λ k _ lab_colors, kmeans_plus_plus_search lab_colors k);
    ("genetic_algorithm",
       λ k s lab_colors, genetic_algorithm_search lab_colors k (or_empty s));
    ("particle_swarm",
       λ k s lab_colors, particle_swarm_search lab_colors k (or_empty s));
    ("ant_colony", λ k s lab_colors, ant_colony_search lab_colors k (or_empty s));
    ("tabu_search",
       λ k s lab_colors, rnd_of (tabu_search_run lab_colors k (or_empty s)));
    ("exact_minimum",
       λ k _ lab_colors, rnd_of (exact_minimum_search lab_colors k))
  ].

(** ** What a search that returns has returned *)

(** Whenever the computation returns, [P] holds of what it returns. *)
Definition ensures {A} (m : Rnd A) (P : A → Prop) : Prop :=
  ∀ s a s', m s = (Ok a, s') → P a.

(** [m] is the minimum pairwise Delta E of the colours at the positions
    [selection] lists: it is at most the [delta_e] of every pair of
    entries, and it is the [delta_e] of one such pair, or [inf] (the
    value when there is no pair). *)
Definition min_pairwise `{Platform} (lab_colors : list lab)
    (selection : list nat) (m : float) : Prop :=
  (∀ i j a b, i < j → selection !! i = Some a → selection !! j = Some b →
     F.le m (delta_e (lab_colors !!! a) (lab_colors !!! b)) = true) ∧
  (m = F.inf ∨
   ∃ i j a b, i < j ∧ selection !! i = Some a ∧ selection !! j = Some b ∧
              m = delta_e (lab_colors !!! a) (lab_colors !!! b)).

(** * Properties *)

Section frame.
Context `{Platform}.

Lemma time_time_tick w : time_time w = (Ok (tick w).1, (tick w).2).
Proof. unfold time_time, tick. by destruct (clock w). Qed.

Lemma tick_heap w : heap (tick w).2 = heap w.
Proof. unfold tick. by destruct (clock w). Qed.

Lemma tick_entropy w : entropy (tick w).2 = entropy w.
Proof. unfold tick. by destruct (clock w). Qed.

(** [run_strategy], one step at a time. *)
Lemma run_strategy_unfold search colors w :
  run_strategy search colors w =
    let w1 := (tick w).2 in
    let cs := heap w !!! colors in
    let '(o, s) := search (rgb_to_lab <$> cs) (entropy w) in
    let w2 := World s (clock w1) (heap w) in
    match o with
    | Raise e => (Raise e, w2)
    | Ok selected =>
        match mapM (getitem cs) selected with
        | Raise e => (Raise e, w2)
        | Ok selected_colors =>
            (Ok (<["colors" := RColors (sort_colors selected_colors)]>
                 (<["time" := RTime (((tick w2).1 - (tick w).1) * 1000)%float]> ∅)),
             (tick w2).2)
        end
    end.
Proof.
  unfold run_strategy, mbind, m_bind at 1. rewrite time_time_tick.
  unfold m_bind at 1, deref. rewrite tick_heap.
  unfold m_bind at 1, lift. rewrite tick_entropy, tick_heap.
  destruct (search _ _) as [[selected|e] s]; cbn; [|done].
  unfold finish, mbind, m_bind at 1, m_of.
  destruct (mapM _ selected) as [scs|e]; [|done].
  unfold m_bind. rewrite time_time_tick. done.
Qed.

Lemma run_strategy_heap search colors w :
  heap (run_strategy search colors w).2 = heap w.
Proof.
  rewrite run_strategy_unfold. cbn zeta.
  destruct (search _ _) as [[selected|e] s]; [|done].
  destruct (mapM _ selected); [|done].
  cbn. by rewrite tick_heap.
Qed.

(** On return, the result is the two-entry dict assembled from one
    search result. *)
Lemma run_strategy_ok search colors w r :
  (run_strategy search colors w).1 = Ok r →
  ∃ selected selected_colors t,
    (search (rgb_to_lab <$> heap w !!! colors) (entropy w)).1 = Ok selected ∧
    mapM (getitem (heap w !!! colors)) selected = Ok selected_colors ∧
    r = <["colors" := RColors (sort_colors selected_colors)]>
          (<["time" := RTime t]> ∅).
Proof.
  rewrite run_strategy_unfold. cbn zeta.
  destruct (search _ _) as [[selected|e] s]; [|done].
  destruct (mapM _ selected) as [scs|e] eqn:Hm; [|done].
  cbn. intros [= <-]. eauto 10.
Qed.

(** What a call shows apart from the elapsed time depends on the
    generator and the pool only, not on the clock. *)
Lemma run_strategy_clock search colors w c :
  entry "colors" (run_strategy search colors (World (entropy w) c (heap w)))
    = entry "colors" (run_strategy search colors w) ∧
  entropy (run_strategy search colors (World (entropy w) c (heap w))).2
    = entropy (run_strategy search colors w).2.
Proof.
  rewrite !run_strategy_unfold. cbn zeta. cbn [entropy heap].
  destruct (search _ _) as [[selected|e] s]; [|done].
  destruct (mapM _ selected) as [scs|e]; [|done].
  unfold entry. cbn. rewrite !tick_entropy. cbn.
  by rewrite !lookup_insert_eq.
Qed.

Lemma ALGORITHMS_framed alg f : ALGORITHMS !! alg = Some f → framed f.
Proof.
  unfold ALGORITHMS. cbn [list_to_map foldr uncurry].
  repeat (rewrite lookup_insert; case_decide;
          [intros [= <-]; eexists (λ k s, _); intros; reflexivity|]).
  by rewrite lookup_empty.
Qed.

(** Every entry of [ALGORITHMS] is the frame around its search. *)
Lemma ALGORITHMS_SEARCHES alg :
  ALGORITHMS !! alg
    = (λ (sr : search) colors k s, run_strategy (sr k s) colors) <$> SEARCHES !! alg.
Proof.
  unfold ALGORITHMS, SEARCHES. cbn [list_to_map foldr uncurry fst snd].
  rewrite <-lookup_fmap, !fmap_insert, fmap_empty.
  repeat (rewrite !lookup_insert; case_decide; [reflexivity|]).
  by rewrite !lookup_empty.
Qed.
End frame.

Section dispatcher.
Context `{Platform}.

Lemma select_distinct_colors_unfold colors k alg s w :
  select_distinct_colors colors k alg s w =
    match ALGORITHMS !! alg with
    | None => (Raise ValueError, w)
    | Some run =>
        if (Z.of_nat (length (heap w !!! colors)) <? k)%Z
        then (Raise ValueError, w)
        else run colors k s w
    end.
Proof.
  unfold select_distinct_colors.
  destruct (ALGORITHMS !! alg); [|done].
  unfold mbind, m_bind, deref. by case_match.
Qed.


Lemma ALGORITHMS_greedy : ALGORITHMS !! "greedy" = Some greedy_selection.
Proof. done. Qed.

(** The first pick of the sequential strategies. *)
Lemma randbelow_lt n s :
  0 < n → ∃ i, i < n ∧ randbelow n s = (Ok i, tail s).
Proof.
  intros Hn. unfold randbelow, mbind, rnd_bind, next_word.
  exists (N.to_nat (hd 0%N s mod N.of_nat n)). split; [|by destruct s].
  pose proof (N.mod_lt (hd 0%N s) (N.of_nat n)). lia.
Qed.

Lemma random_randint_range a b s :
  (a ≤ b)%Z → ∃ r, (a ≤ r ≤ b)%Z ∧ random_randint a b s = (Ok r, tail s).
Proof.
  intros Hab. unfold random_randint.
  destruct (Z.ltb_spec b a) as [|_]; [lia|].
  destruct (randbelow_lt (Z.to_nat (b - a + 1)) s) as (i & Hi & Hr); [lia|].
  unfold mbind, rnd_bind. rewrite Hr. cbn.
  exists (a + Z.of_nat i)%Z. split; [lia|done].
Qed.

Lemma sort_colors_singleton c : sort_colors [c] = [c].
Proof. done. Qed.

End dispatcher.

Section claims_dispatch.
Context `{Platform}.


(** C3, as the code has it: an unrecognised strategy name, or a count
    above the pool size, makes the dispatcher raise [ValueError] with the
    world untouched, so before any strategy reads the clock or the
    generator.  A count of zero or less is not checked. *)
Theorem dispatch_rejects colors k alg s w :
  ALGORITHMS !! alg = None ∨ (Z.of_nat (length (heap w !!! colors)) < k)%Z →
  select_distinct_colors colors k alg s w = (Raise ValueError, w).
Proof.
  intros Hbad. rewrite select_distinct_colors_unfold.
  destruct (ALGORITHMS !! alg) as [run|]; [|done].
  destruct Hbad as [|Hk]; [done|].
  destruct (Z.ltb_spec (Z.of_nat (length (heap w !!! colors))) k); [done|lia].
Qed.


(** C9: a strategy call leaves every caller-owned list as it was: the
    heap after the call, whether it returns or raises, is the heap
    before it, so the pool has the same length and the same elements in
    the same order.  The same holds through the dispatcher. *)
Theorem pool_unchanged alg run colors k s w :
  ALGORITHMS !! alg = Some run →
  heap (run colors k s w).2 = heap w ∧
  heap (select_distinct_colors colors k alg s w).2 = heap w.
Proof.
  intros Hrun. destruct (ALGORITHMS_framed _ _ Hrun) as [search Hf].
  assert (heap (run colors k s w).2 = heap w) as Hh
    by (rewrite Hf; apply run_strategy_heap).
  split; [done|].
  rewrite select_distinct_colors_unfold, Hrun. by case_match.
Qed.

(** C5: two runs of Ant Colony, and two runs of the Genetic Algorithm,
    on the same pool with the same configuration and the same random
    draws return the same colours (hence the same fitness) and leave the
    generator in the same state, whatever the clock shows in each run. *)
Theorem seeded_runs_agree colors k s w c :
  (entry "colors" (ant_colony_optimization colors k s (World (entropy w) c (heap w)))
     = entry "colors" (ant_colony_optimization colors k s w) ∧
   entropy (ant_colony_optimization colors k s (World (entropy w) c (heap w))).2
     = entropy (ant_colony_optimization colors k s w).2) ∧
  (entry "colors" (genetic_algorithm colors k s (World (entropy w) c (heap w)))
     = entry "colors" (genetic_algorithm colors k s w) ∧
   entropy (genetic_algorithm colors k s (World (entropy w) c (heap w))).2
     = entropy (genetic_algorithm colors k s w).2).
Proof.
  unfold ant_colony_optimization, genetic_algorithm.
  split; apply run_strategy_clock.
Qed.

(** C8: two Particle Swarm configurations that agree on every key other
    than [inertiaWeight], [cognitiveWeight] and [socialWeight] give the
    same call: same result, same draws consumed. *)
Theorem pso_weights_ignored colors k (s1 s2 : gmap string value) w :
  (∀ key, key ∉ ["inertiaWeight"; "cognitiveWeight"; "socialWeight"] →
          s1 !! key = s2 !! key) →
  particle_swarm_optimization colors k (Some s1) w
    = particle_swarm_optimization colors k (Some s2) w.
Proof.
  intros Hagree.
  assert (∀ lab_colors, particle_swarm_search lab_colors k s1
                        = particle_swarm_search lab_colors k s2) as Hs.
  { intros. unfold particle_swarm_search, settings_get.
    rewrite (Hagree "numParticles"), (Hagree "iterations"); [done|..];
      rewrite !not_elem_of_cons; split_and!; first [done|apply not_elem_of_nil]. }
  unfold particle_swarm_optimization, or_empty. cbn [default].
  rewrite !run_strategy_unfold. cbn zeta. by rewrite Hs.
Qed.
End claims_dispatch.

(** ** The dispatcher claims on the dark pool *)

Section dispatch_examples.
Local Existing Instance bare_platform.


Lemma dispatch_rejects_witness :
  (ALGORITHMS !! "greedy" = None
   ∨ (Z.of_nat (length (heap dark_world !!! pool_ref)) < 4)%Z) ∧
  select_distinct_colors pool_ref 4 "greedy" None dark_world
    = (Raise ValueError, dark_world).
Proof.
  assert (ALGORITHMS !! "greedy" = None
          ∨ (Z.of_nat (length (heap dark_world !!! pool_ref)) < 4)%Z) as Hbad
    by (right; vm_compute; reflexivity).
  split; [exact Hbad|].
  exact (dispatch_rejects pool_ref 4 "greedy" None dark_world Hbad).
Defined.

(** C3, as stated, fails: a count of zero passes the dispatcher, which
    hands back the greedy strategy's result instead of raising. *)
Lemma zero_count_not_rejected :
  ¬ ∃ P : Platform,
      (@select_distinct_colors P pool_ref 0 "greedy" None dark_world).1
        = Raise ValueError.
Proof. intros [P HP]. vm_compute in HP. discriminate HP. Qed.



Lemma pool_unchanged_witness :
  ALGORITHMS !! "tabu_search" = Some tabu_search ∧
  heap (tabu_search pool_ref 2 None dark_world).2 = heap dark_world ∧
  heap (select_distinct_colors pool_ref 2 "tabu_search" None dark_world).2
    = heap dark_world.
Proof.
  assert (ALGORITHMS !! "tabu_search" = Some tabu_search) as Hrun
    by (vm_compute; reflexivity).
  split; [exact Hrun|].
  exact (pool_unchanged "tabu_search" tabu_search pool_ref 2 None dark_world Hrun).
Defined.

Lemma pso_weights_ignored_witness :
  (∀ key, key ∉ ["inertiaWeight"; "cognitiveWeight"; "socialWeight"] →
     ({[ "inertiaWeight" := VFloat 0.1 ]} : gmap string value) !! key
       = (∅ : gmap string value) !! key) ∧
  particle_swarm_optimization pool_ref 2 (Some {[ "inertiaWeight" := VFloat 0.1 ]}) dark_world
    = particle_swarm_optimization pool_ref 2 (Some ∅) dark_world.
Proof.
  assert (∀ key, key ∉ ["inertiaWeight"; "cognitiveWeight"; "socialWeight"] →
     ({[ "inertiaWeight" := VFloat 0.1 ]} : gmap string value) !! key
       = (∅ : gmap string value) !! key) as Hagree.
  { intros key Hkey. apply lookup_singleton_ne. intros <-. apply Hkey. left. }
  split; [exact Hagree|].
  exact (pso_weights_ignored pool_ref 2 _ _ dark_world Hagree).
Defined.
End dispatch_examples.

(** ** Where the code departs from its contract *)

Section defects.
Context `{Platform}.

(** With a first draw of 0, [random.random()] is [0.0]. *)
Lemma random_random_zero s : random_random (0%N :: s) = (Ok 0%float, s).
Proof. reflexivity. Qed.

(** C1: the selection invariant fails for k-means++.  On the three dark
    greys with [k = 2], when the first centre drawn is index 0 and
    [random.random()] then returns [0.0], the roulette loop is not entered
    and index 0 is appended again: the selection is [[0, 0]] and the
    returned list holds the colour at position 0 twice. *)
Theorem kmeans_selects_position_twice :
  kmeans_plus_plus_search (rgb_to_lab <$> dark_pool) 2 [0%N; 0%N]
    = (Ok [0; 0], []) ∧
  entry "colors" (select_distinct_colors pool_ref 2 "kmeans_plus_plus" None dark_world)
    = Ok (Some (RColors [(0, 0, 0)%Z; (0, 0, 0)%Z])).
Proof. split; vm_compute; reflexivity. Qed.

(** Two more calls with [0 < k <= n] that return no selection at all:
    simulated annealing on the whole pool finds no unselected index to swap
    in, and ant colony with [k = 1] takes [min] of an empty sequence. *)
Lemma simulated_annealing_whole_pool_raises :
  (select_distinct_colors pool_ref 3 "simulated_annealing" None dark_world).1
    = Raise IndexError.
Proof. vm_compute. reflexivity. Qed.

Lemma ant_colony_single_raises :
  (select_distinct_colors pool_ref 1 "ant_colony" None dark_world).1
    = Raise ValueError.
Proof. vm_compute. reflexivity. Qed.

(** C6: the tabu list does not hold the reverse of the applied move.  On
    the three dark greys with [k = 2], iteration 0 replaces index 1 by
    index 2 (slot 1) and improves the best; the keys recorded are
    [current[i]-best[i]] with [best] already equal to [current], so the
    reverse move [2-1] is not tabu.  Iteration 1 then applies exactly that
    reverse move, although its fitness does not beat the best so far. *)
Theorem tabu_reverse_move_taken :
  ∃ st1 st2 f,
    tabu_search_state (rgb_to_lab <$> dark_pool) 2 {[ "maxIterations" := VInt 1 ]}
      = Ok st1 ∧
    tabu_search_state (rgb_to_lab <$> dark_pool) 2 {[ "maxIterations" := VInt 2 ]}
      = Ok st2 ∧
    tabu_current st1 = [0; 2] ∧
    tabu_list st1 !! get_move_key 2 1 = None ∧
    tabu_current st2 = [0; 1] ∧
    calculate_fitness (rgb_to_lab <$> dark_pool) [0; 1] = Ok f ∧
    F.gt f (tabu_best_fitness st1) = false.
Proof.
  eexists _, _, _.
  split; [vm_compute; reflexivity|].
  split; [vm_compute; reflexivity|].
  split; [reflexivity|].
  split; [vm_compute; reflexivity|].
  split; [reflexivity|].
  split; [vm_compute; reflexivity|].
  vm_compute; reflexivity.
Qed.
End defects.

(** ** The order of floats *)

Ltac fold_pos :=
  repeat match goal with
  | |- context [PosDef.Pos.compare_cont Eq ?a ?b] =>
      change (PosDef.Pos.compare_cont Eq a b) with (Pos.compare a b)
  | H : context [PosDef.Pos.compare_cont Eq ?a ?b] |- _ =>
      change (PosDef.Pos.compare_cont Eq a b) with (Pos.compare a b) in H
  end.

Ltac cmp_cases :=
  repeat match goal with
  | |- context [(?a ?= ?b)%Z] => destruct (Z.compare_spec a b)
  | H : context [(?a ?= ?b)%Z] |- _ => destruct (Z.compare_spec a b)
  | |- context [(?a ?= ?b)%positive] => destruct (Pos.compare_spec a b)
  | H : context [(?a ?= ?b)%positive] |- _ => destruct (Pos.compare_spec a b)
  end.

Lemma SFcompare_antisym x y : SFcompare y x = CompOpp <$> SFcompare x y.
Proof.
  destruct x as [[]|[]| |[] m1 e1], y as [[]|[]| |[] m2 e2];
    cbn; try reflexivity; fold_pos;
    rewrite (Z.compare_antisym e1 e2), (Pos.compare_antisym m1 m2);
    destruct (e1 ?= e2)%Z, (m1 ?= m2)%positive; reflexivity.
Qed.

Lemma SFcompare_trans x y z :
  SFcompare x y = Some Lt → SFcompare y z = Some Lt → SFcompare x z = Some Lt.
Proof.
  destruct x as [[]|[]| |[] m1 e1], y as [[]|[]| |[] m2 e2],
           z as [[]|[]| |[] m3 e3];
    cbn; try done; intros Hxy Hyz; fold_pos; cmp_cases; cbn in *;
    try done; subst; try lia.
Qed.

Lemma SFcompare_eq_l x y z :
  SFcompare x y = Some Eq → SFcompare x z = SFcompare y z.
Proof.
  destruct x as [[]|[]| |[] m1 e1], y as [[]|[]| |[] m2 e2],
           z as [[]|[]| |[] m3 e3];
    cbn; try done; intros Hxy; fold_pos; cmp_cases; cbn in *;
    try done; subst; try lia.
Qed.

Lemma SFcompare_opp x y : SFcompare (SFopp x) (SFopp y) = SFcompare y x.
Proof.
  destruct x as [[]|[]| |[] m1 e1], y as [[]|[]| |[] m2 e2];
    cbn; try reflexivity; fold_pos;
    rewrite (Z.compare_antisym e1 e2), (Pos.compare_antisym m1 m2);
    destruct (e1 ?= e2)%Z, (m1 ?= m2)%positive; reflexivity.
Qed.

Lemma SFcompare_some x y :
  SFcompare x x = Some Eq → SFcompare y y = Some Eq → is_Some (SFcompare x y).
Proof.
  destruct x as [[]|[]| |[] m1 e1], y as [[]|[]| |[] m2 e2]; cbn; try done; eauto.
Qed.

#[global] Instance fcmp_ordered : Ordered fcmp.
Proof.
  split; unfold fcmp; intros.
  - apply SFcompare_antisym.
  - by eapply SFcompare_trans.
  - by apply SFcompare_eq_l.
Qed.

Lemma fcmp_some x y : is_num x → is_num y → is_Some (fcmp x y).
Proof. apply SFcompare_some. Qed.

Lemma ltb_fcmp x y : (x <? y)%float = true ↔ fcmp x y = Some Lt.
Proof.
  rewrite FloatAxioms.ltb_spec. unfold SFltb, fcmp.
  destruct (SFcompare _ _) as [[]|]; intuition congruence.
Qed.

Lemma eqb_fcmp x y : (x =? y)%float = true ↔ fcmp x y = Some Eq.
Proof.
  rewrite FloatAxioms.eqb_spec. unfold SFeqb, fcmp.
  destruct (SFcompare _ _) as [[]|]; intuition congruence.
Qed.

Lemma leb_fcmp x y :
  (x <=? y)%float = true ↔ fcmp x y = Some Lt ∨ fcmp x y = Some Eq.
Proof.
  rewrite FloatAxioms.leb_spec. unfold SFleb, fcmp.
  destruct (SFcompare _ _) as [[]|]; intuition congruence.
Qed.

Lemma fcmp_opp x y : fcmp (- x) (- y) = fcmp y x.
Proof. unfold fcmp. rewrite !FloatAxioms.opp_spec. apply SFcompare_opp. Qed.

Lemma is_num_not_nan x : is_num x ↔ is_nan x = false.
Proof.
  unfold is_num, is_nan. rewrite negb_false_iff. symmetry. apply eqb_fcmp.
Qed.

(** ** Partial comparisons that are orders *)

Section ordered.
Context {A : Type} (cmp : A → A → option comparison) `{!Ordered cmp}.

Lemma cmp_flip x y c : cmp x y = Some c → cmp y x = Some (CompOpp c).
Proof. intros Hc. by rewrite cmp_antisym, Hc. Qed.

Lemma cmp_eq_r x y z : cmp x y = Some Eq → cmp z x = cmp z y.
Proof.
  intros Hxy. rewrite (cmp_antisym x z), (cmp_antisym y z).
  by rewrite (cmp_eq_l x y z).
Qed.

Lemma not_below_trans x y z :
  not_below cmp x y → not_below cmp y z → not_below cmp x z.
Proof.
  unfold not_below. intros [Hxy|Hxy] [Hyz|Hyz].
  - left. by rewrite (cmp_eq_l x y z Hxy).
  - right. by rewrite (cmp_eq_l x y z Hxy).
  - right. by rewrite <-(cmp_eq_r y z x Hyz).
  - right. apply cmp_flip in Hxy, Hyz. cbn in *.
    by rewrite (cmp_flip z x Lt (cmp_trans z y x Hyz Hxy)).
Qed.

Lemma not_below_lt x y : not_below cmp x y → cmp x y ≠ Some Lt.
Proof. intros [->| ->]; done. Qed.

Lemma lt_not_below x y : cmp x y = Some Lt → not_below cmp y x.
Proof. intros Hc. right. by rewrite (cmp_flip _ _ _ Hc). Qed.

Lemma not_lt_not_below x y :
  is_Some (cmp x y) → cmp x y ≠ Some Lt → not_below cmp x y.
Proof. intros [[] Hc] ?; unfold not_below; intuition congruence. Qed.
End ordered.

Lemma lex_assoc a b c : lex a (lex b c) = lex (lex a b) c.
Proof. by destruct a as [[]|]. Qed.

Lemma lex_lt c1 c2 :
  lex c1 c2 = Some Lt ↔ c1 = Some Lt ∨ (c1 = Some Eq ∧ c2 = Some Lt).
Proof. destruct c1 as [[]|]; cbn; intuition congruence. Qed.

Lemma lex_eq c1 c2 : lex c1 c2 = Some Eq ↔ c1 = Some Eq ∧ c2 = Some Eq.
Proof. destruct c1 as [[]|]; cbn; intuition congruence. Qed.

Lemma lex_ordered {A B : Type} (c1 : A → A → option comparison)
    (c2 : B → B → option comparison) :
  Ordered c1 → Ordered c2 →
  Ordered (λ p q : A * B, lex (c1 p.1 q.1) (c2 p.2 q.2)).
Proof.
  intros H1 H2. split.
  - intros [a b] [a' b']. cbn.
    rewrite (cmp_antisym (cmp := c1) a a'), (cmp_antisym (cmp := c2) b b').
    by destruct (c1 a a') as [[]|].
  - intros [a b] [a' b'] [a'' b'']. cbn. rewrite !lex_lt.
    intros [Hxy|[Hxy Hxy']] [Hyz|[Hyz Hyz']].
    + left. by eapply (cmp_trans (cmp := c1)).
    + left. by rewrite <-(cmp_eq_r c1 _ _ a Hyz).
    + left. by rewrite (cmp_eq_l (cmp := c1) _ _ a'' Hxy).
    + right. split; [by rewrite (cmp_eq_l (cmp := c1) _ _ a'' Hxy)|].
      by eapply (cmp_trans (cmp := c2)).
  - intros [a b] [a' b'] [a'' b'']. cbn. rewrite lex_eq. intros [Ha Hb].
    by rewrite (cmp_eq_l (cmp := c1) _ _ a'' Ha), (cmp_eq_l (cmp := c2) _ _ b'' Hb).
Qed.

#[global] Instance tuple3_cmp_ordered : Ordered tuple3_cmp.
Proof.
  pose proof (lex_ordered _ _ (lex_ordered _ _ fcmp_ordered fcmp_ordered)
                fcmp_ordered) as Ho.
  split.
  - intros [[x1 y1] z1] [[x2 y2] z2]. unfold tuple3_cmp. rewrite !lex_assoc.
    apply (cmp_antisym (Ordered := Ho) (x1, y1, z1) (x2, y2, z2)).
  - intros [[x1 y1] z1] [[x2 y2] z2] [[x3 y3] z3]. unfold tuple3_cmp.
    rewrite !lex_assoc.
    apply (cmp_trans (Ordered := Ho) (x1, y1, z1) (x2, y2, z2) (x3, y3, z3)).
  - intros [[x1 y1] z1] [[x2 y2] z2] [[x3 y3] z3]. unfold tuple3_cmp.
    rewrite !lex_assoc.
    apply (cmp_eq_l (Ordered := Ho) (x1, y1, z1) (x2, y2, z2) (x3, y3, z3)).
Qed.

Lemma ltb_decide x y : (x <? y)%float = bool_decide (fcmp x y = Some Lt).
Proof.
  apply eq_true_iff_eq. rewrite ltb_fcmp.
  by rewrite bool_decide_eq_true.
Qed.

Lemma eqb_decide x y : (x =? y)%float = bool_decide (fcmp x y = Some Eq).
Proof.
  apply eq_true_iff_eq. rewrite eqb_fcmp.
  by rewrite bool_decide_eq_true.
Qed.

(** [<] on tuples is the lexicographic comparison. *)
Lemma tuple3_lt_cmp k1 k2 : tuple3_lt k1 k2 = true ↔ tuple3_cmp k1 k2 = Some Lt.
Proof.
  destruct k1 as [[x1 y1] z1], k2 as [[x2 y2] z2].
  unfold tuple3_lt, tuple3_cmp, F.eq, F.lt.
  rewrite !eqb_decide, !ltb_decide.
  destruct (fcmp x1 x2) as [[]|], (fcmp y1 y2) as [[]|], (fcmp z1 z2) as [[]|];
    repeat case_bool_decide; cbn; intuition congruence.
Qed.

Lemma tuple3_cmp_some k1 k2 :
  lab_is_num k1 → lab_is_num k2 → is_Some (tuple3_cmp k1 k2).
Proof.
  destruct k1 as [[x1 y1] z1], k2 as [[x2 y2] z2].
  intros (Hx1 & Hy1 & Hz1) (Hx2 & Hy2 & Hz2). cbn in *.
  destruct (fcmp_some x1 x2) as [c1 ->]; [done..|].
  destruct (fcmp_some y1 y2) as [c2 ->]; [done..|].
  destruct (fcmp_some z1 z2) as [c3 ->]; [done..|].
  destruct c1, c2; cbn; eauto.
Qed.

(** Sorting on the key [(-L, -a, -b)] compares the tuples the other way
    round. *)
Lemma tuple3_lt_sort_key x y :
  tuple3_lt (sort_key y) (sort_key x) = tuple3_lt x y.
Proof.
  apply eq_true_iff_eq. rewrite !tuple3_lt_cmp.
  destruct x as [[x1 y1] z1], y as [[x2 y2] z2]. cbn.
  by rewrite !fcmp_opp.
Qed.

Lemma tuple3_lt_asym x y : tuple3_lt x y = true → tuple3_lt y x = false.
Proof.
  rewrite tuple3_lt_cmp. intros Hlt. apply not_true_is_false.
  rewrite tuple3_lt_cmp, (cmp_flip _ _ _ _ Hlt). done.
Qed.

Lemma tuple3_lt_false x y :
  lab_is_num x → lab_is_num y →
  tuple3_lt x y = false ↔ not_below tuple3_cmp x y.
Proof.
  intros Hx Hy. rewrite <-not_true_iff_false, tuple3_lt_cmp. split.
  - apply not_lt_not_below. by apply tuple3_cmp_some.
  - by apply not_below_lt.
Qed.

Lemma tuple3_ge_trans x y z :
  lab_is_num x → lab_is_num y → lab_is_num z →
  tuple3_lt x y = false → tuple3_lt y z = false → tuple3_lt x z = false.
Proof.
  intros Hx Hy Hz. rewrite !tuple3_lt_false by done.
  apply not_below_trans, _.
Qed.

(** ** [list.sort] sorts *)

Section sorting.
Context {A : Type} (lt : A → A → bool) (P : A → Prop).
Hypothesis lt_asym : ∀ x y, P x → P y → lt x y = true → lt y x = false.
Hypothesis ge_trans :
  ∀ x y z, P x → P y → P z → lt x y = false → lt y z = false → lt x z = false.

Lemma insert_sorted_perm x l : insert_sorted lt x l ≡ₚ x :: l.
Proof.
  induction l as [|y l IH]; cbn; [done|].
  destruct (lt y x); [|done]. by rewrite IH, Permutation_swap.
Qed.

Lemma list_sort_perm l : list_sort lt l ≡ₚ l.
Proof.
  induction l as [|x l IH]; [done|].
  change (list_sort lt (x :: l)) with (insert_sorted lt x (list_sort lt l)).
  by rewrite insert_sorted_perm, IH.
Qed.

Lemma insert_sorted_sorted x l :
  P x → Forall P l →
  StronglySorted (λ a b, lt b a = false) l →
  StronglySorted (λ a b, lt b a = false) (insert_sorted lt x l).
Proof.
  intros Hx HP Hs. induction Hs as [|y l Hs IH Hy]; cbn.
  - repeat constructor.
  - apply Forall_cons in HP as [HPy HPl].
    destruct (lt y x) eqn:Hyx.
    + constructor; [by apply IH|].
      rewrite insert_sorted_perm. constructor; [by apply lt_asym|done].
    + constructor; [by constructor|].
      constructor; [done|].
      rewrite Forall_forall in Hy, HPl. apply Forall_forall. intros z Hz.
      apply (ge_trans z y x); auto.
Qed.

Lemma list_sort_sorted l :
  Forall P l → StronglySorted (λ a b, lt b a = false) (list_sort lt l).
Proof.
  induction 1 as [|x l Hx Hl IH]; [constructor|].
  change (list_sort lt (x :: l)) with (insert_sorted lt x (list_sort lt l)).
  apply insert_sorted_sorted; [done| |done].
  by rewrite list_sort_perm.
Qed.
End sorting.

Lemma StronglySorted_lookup {A} (R : A → A → Prop) l i j x y :
  StronglySorted R l → i < j → l !! i = Some x → l !! j = Some y → R x y.
Proof.
  intros Hs. revert i j. induction Hs as [|z l Hs IH Hz]; intros i j Hij Hi Hj.
  - done.
  - destruct j as [|j]; [lia|]. cbn in Hj. destruct i as [|i]; cbn in Hi.
    + injection Hi as ->. rewrite Forall_forall in Hz.
      by eapply Hz, list_elem_of_lookup_2.
    + eapply (IH i j); [lia|done..].
Qed.

Lemma mapM_ok_cons {A B} (f : A → outcome B) x l :
  mapM f (x :: l) =
    match f x with
    | Ok y => match mapM f l with Ok k => Ok (y :: k) | Raise e => Raise e end
    | Raise e => Raise e
    end.
Proof. cbn. unfold mbind, outcome_bind. by destruct (f x), (mapM f l). Qed.

Lemma mapM_getitem {A} (l : list A) (sel : list nat) (out : list A) :
  mapM (getitem l) sel = Ok out → Forall2 (λ i x, l !! i = Some x) sel out.
Proof.
  revert out. induction sel as [|i sel IH]; intros out.
  - intros [= <-]. constructor.
  - rewrite mapM_ok_cons. unfold getitem at 1.
    destruct (l !! i) as [x|] eqn:Hx; [|done].
    destruct (mapM (getitem l) sel) as [out'|]; [|done].
    intros [= <-]. constructor; [done|by apply IH].
Qed.

Section canonical_order.
Context `{Platform}.

(** The output of [sort_colors] is a rearrangement of its input, in
    canonical order when the CIELAB coordinates are numbers. *)
Lemma sort_colors_perm cs : sort_colors cs ≡ₚ cs.
Proof.
  unfold sort_colors. rewrite list_sort_perm.
  clear. induction cs as [|c cs IH] using rev_ind; [done|].
  rewrite length_app, Nat.add_comm. cbn [length Nat.add].
  rewrite seq_S, fmap_app. cbn.
  rewrite list_lookup_total_middle by done.
  apply Permutation_app; [|done].
  etrans; [|exact IH].
  apply Permutation_refl', list_fmap_ext. intros i x [-> Hx]%lookup_seq.
  by rewrite lookup_total_app_l.
Qed.

Lemma sort_colors_canonical cs :
  (∀ c, c ∈ cs → lab_is_num (rgb_to_lab c)) → canonical (sort_colors cs).
Proof.
  intros Hnum. unfold canonical, sort_colors. cbn zeta.
  set (lt := λ i j : nat,
         tuple3_lt (sort_key ((rgb_to_lab <$> cs) !!! i))
                   (sort_key ((rgb_to_lab <$> cs) !!! j))).
  assert (∀ i, i < length cs →
            (rgb_to_lab <$> cs) !!! i = rgb_to_lab (cs !!! i)
            ∧ lab_is_num (rgb_to_lab (cs !!! i))) as Hkey.
  { intros i Hi. destruct (lookup_lt_is_Some_2 _ _ Hi) as [c Hc].
    rewrite (list_lookup_total_correct _ _ _ Hc).
    split; [|by eapply Hnum, list_elem_of_lookup_2].
    apply list_lookup_total_correct. by rewrite list_lookup_fmap, Hc. }
  assert (StronglySorted (λ a b, lt b a = false)
            (list_sort lt (seq 0 (length cs)))) as Hs.
  { apply (list_sort_sorted lt (λ i, i < length cs)).
    - intros x y Hx Hy. unfold lt. rewrite !tuple3_lt_sort_key.
      apply tuple3_lt_asym.
    - intros x y z Hx Hy Hz. unfold lt. rewrite !tuple3_lt_sort_key.
      destruct (Hkey x Hx) as [-> ?], (Hkey y Hy) as [-> ?], (Hkey z Hz) as [-> ?].
      intros ??. by eapply (tuple3_ge_trans _ (rgb_to_lab (cs !!! y))).
    - apply Forall_forall. intros i [_ Hi]%elem_of_seq. lia. }
  assert (Forall (λ i, i < length cs) (list_sort lt (seq 0 (length cs)))) as Hin.
  { rewrite list_sort_perm. apply Forall_forall. intros i [_ Hi]%elem_of_seq. lia. }
  intros i j ci cj Hij Hi Hj.
  rewrite list_lookup_fmap in Hi, Hj.
  destruct (list_sort lt _ !! i) as [p|] eqn:Hp; [|done].
  destruct (list_sort lt _ !! j) as [q|] eqn:Hq; [|done].
  cbn in Hi, Hj. injection Hi as <-. injection Hj as <-.
  pose proof (StronglySorted_lookup _ _ _ _ _ _ Hs Hij Hp Hq) as Hpq.
  rewrite Forall_forall in Hin.
  unfold lt in Hpq. rewrite tuple3_lt_sort_key in Hpq.
  destruct (Hkey p) as [Hkp _]; [by eapply Hin, list_elem_of_lookup_2|].
  destruct (Hkey q) as [Hkq _]; [by eapply Hin, list_elem_of_lookup_2|].
  rewrite Hkp, Hkq in Hpq. exact Hpq.
Qed.

(** C7: whatever the strategy, a returned call is its search followed by
    result assembly, and the colour list of the result is [sort_colors]
    applied, once, to the colours at the positions that search returned,
    taken from the pool in the caller's order: it is a rearrangement of
    those colours in canonical order, that is by L descending, then a
    descending, then b descending, provided the CIELAB coordinates of the
    pool are numbers.  The search itself is the one [SEARCHES] lists for
    the strategy: it works on positions of the unsorted pool, and the
    ordering comes after it. *)
Theorem result_in_canonical_order colors k alg s w r :
  (select_distinct_colors colors k alg s w).1 = Ok r →
  (∀ c, c ∈ heap w !!! colors → lab_is_num (rgb_to_lab c)) →
  ∃ (sr : search) selected selected_colors,
    SEARCHES !! alg = Some sr ∧
    select_distinct_colors colors k alg s w = run_strategy (sr k s) colors w ∧
    (sr k s (rgb_to_lab <$> heap w !!! colors) (entropy w)).1 = Ok selected ∧
    mapM (getitem (heap w !!! colors)) selected = Ok selected_colors ∧
    r !! "colors" = Some (RColors (sort_colors selected_colors)) ∧
    sort_colors selected_colors ≡ₚ selected_colors ∧
    canonical (sort_colors selected_colors).
Proof.
  intros Hr Hnum.
  assert (∃ sr : search,
            SEARCHES !! alg = Some sr ∧
            select_distinct_colors colors k alg s w
              = run_strategy (sr k s) colors w) as (sr & Hsr & Hcall).
  { rewrite select_distinct_colors_unfold in Hr |- *.
    rewrite ALGORITHMS_SEARCHES in Hr |- *.
    destruct (SEARCHES !! alg) as [sr|]; [|done]. cbn in Hr |- *.
    case_match; [done|]. by exists sr. }
  rewrite Hcall in Hr.
  apply run_strategy_ok in Hr as (sel & scs & t & Hs & Hm & ->).
  exists sr, sel, scs.
  split_and!; [done|done|done|done|done|apply sort_colors_perm|].
  apply sort_colors_canonical. intros c Hc. apply Hnum.
  apply mapM_getitem in Hm.
  apply list_elem_of_lookup in Hc as [i Hi].
  destruct (Forall2_lookup_r _ _ _ _ _ Hm Hi) as (p & _ & Hp).
  by eapply list_elem_of_lookup_2.
Qed.
End canonical_order.

(** ** The distance is symmetric *)

Lemma binary_round_aux_abs prec emax s1 s2 mx ex lx :
  SFabs (binary_round_aux prec emax s1 mx ex lx)
  = SFabs (binary_round_aux prec emax s2 mx ex lx).
Proof.
  unfold binary_round_aux.
  destruct (shr_fexp _ _ _ _ _) as [mrs' e'].
  destruct (shr_fexp _ _ _ _ _) as [mrs'' e''].
  destruct (shr_m mrs''); [done| |done].
  by destruct (_ <=? _)%Z.
Qed.

Lemma binary_normalize_abs prec emax m e sz1 sz2 :
  SFabs (binary_normalize prec emax (- m) e sz1)
  = SFabs (binary_normalize prec emax m e sz2).
Proof.
  destruct m as [|p|p]; unfold Z.opp, binary_normalize; [done|..];
    unfold binary_round; destruct (shl_align _ _ _); apply binary_round_aux_abs.
Qed.

Lemma SFsub_abs prec emax x y :
  SFabs (SFsub prec emax x y) = SFabs (SFsub prec emax y x).
Proof.
  destruct x as [[]|[]| |sx mx ex], y as [[]|[]| |sy my ey]; try reflexivity.
  cbn -[binary_normalize Z.sub]. rewrite (Z.min_comm ey ex).
  rewrite <-(binary_normalize_abs _ _ _ _ false false). f_equal. f_equal. lia.
Qed.

Lemma SFmul_abs prec emax u v :
  SFabs u = SFabs v → SFmul prec emax u u = SFmul prec emax v v.
Proof.
  destruct u as [[]|[]| |[] mu eu], v as [[]|[]| |[] mv ev]; cbn; try done;
    by intros [= -> ->].
Qed.

Lemma Prim2SF_inj x y : Prim2SF x = Prim2SF y → x = y.
Proof. intros Hxy. by rewrite <-(SF2Prim_Prim2SF x), Hxy, SF2Prim_Prim2SF. Qed.

Lemma sub_square_sym x y : ((x - y) * (x - y) = (y - x) * (y - x))%float.
Proof.
  apply Prim2SF_inj. rewrite !mul_spec, !sub_spec.
  apply SFmul_abs, SFsub_abs.
Qed.

Lemma float_pow_2 `{Platform} x : float_pow x 2 = (x * x)%float.
Proof. reflexivity. Qed.

Lemma delta_e_sym `{Platform} a b : delta_e a b = delta_e b a.
Proof.
  destruct a as [[L1 a1] b1], b as [[L2 a2] b2]. unfold delta_e.
  rewrite !float_pow_2.
  by rewrite (sub_square_sym L1 L2), (sub_square_sym a1 a2), (sub_square_sym b1 b2).
Qed.

(** ** Minimum of a list of numbers *)

Lemma is_num_inf : is_num F.inf.
Proof. reflexivity. Qed.

Lemma fcmp_le_inf x : is_num x → not_below fcmp F.inf x.
Proof.
  unfold is_num, not_below, fcmp, F.inf.
  change (Prim2SF infinity) with (S754_infinity false).
  destruct (Prim2SF x) as [[]|[]| |[] m e]; cbn; intros; try done; eauto.
Qed.

Lemma fcmp_neg_inf_lt x : F.le 0 x = true → fcmp F.neg_inf x = Some Lt.
Proof.
  unfold F.le. rewrite leb_fcmp. unfold fcmp, F.neg_inf.
  change (Prim2SF neg_infinity) with (S754_infinity true).
  change (Prim2SF 0) with (S754_zero false).
  destruct (Prim2SF x) as [[]|[]| |[] m e]; cbn; intros [|]; try done.
Qed.

Lemma nonneg_is_num x : F.le 0 x = true → is_num x.
Proof.
  unfold F.le. rewrite leb_fcmp. unfold is_num. intros [Hc|Hc].
  - apply (cmp_flip fcmp) in Hc. cbn in Hc.
    unfold fcmp in *. destruct (Prim2SF x) as [[]|[]| |[] m e]; try done;
      cbn; fold_pos; by rewrite ?Z.compare_refl, ?Pos.compare_refl.
  - unfold fcmp in *. destruct (Prim2SF x) as [[]|[]| |[] m e]; try done.
Qed.

Lemma min2_cases m d :
  is_num m → is_num d →
  (F.min2 m d = m ∧ not_below fcmp d m) ∨ (F.min2 m d = d ∧ fcmp d m = Some Lt).
Proof.
  intros Hm Hd. unfold F.min2. rewrite ltb_decide. case_bool_decide as Hlt.
  - by right.
  - left. split; [done|]. apply not_lt_not_below; [by apply fcmp_some|done].
Qed.

Lemma foldl_min2_spec l m :
  is_num m → Forall is_num l →
  is_num (foldl F.min2 m l) ∧
  not_below fcmp m (foldl F.min2 m l) ∧
  Forall (λ d, not_below fcmp d (foldl F.min2 m l)) l ∧
  (foldl F.min2 m l = m ∨ foldl F.min2 m l ∈ l).
Proof.
  intros Hm Hl. revert m Hm.
  induction Hl as [|d l Hd Hl IH]; intros m Hm; cbn.
  - split_and!; [done|by left|constructor|by left].
  - destruct (min2_cases m d Hm Hd) as [[-> Hge]|[-> Hlt]].
    + destruct (IH m Hm) as (Hn & Hmr & Hall & Hat).
      split_and!; [done|done| |].
      * constructor; [|done]. by eapply (not_below_trans fcmp).
      * destruct Hat as [?|?]; [by left|right; by right].
    + destruct (IH d Hd) as (Hn & Hdr & Hall & Hat).
      split_and!; [done| |constructor; [exact Hdr|exact Hall]|].
      * eapply (not_below_trans fcmp); [|exact Hdr].
        by apply (lt_not_below fcmp).
      * right. destruct Hat as [->|?]; [left|by right].
Qed.

(** ** Exhaustive search *)

Lemma fold_ok_pure {A S} (l : list A) (body : S → A → outcome S)
    (g : S → A → S) s :
  (∀ s x, x ∈ l → body s x = Ok (g s x)) → fold_ok l body s = Ok (foldl g s l).
Proof.
  revert s. induction l as [|x l IH]; intros s Hb; cbn; [done|].
  rewrite Hb by left. cbn. apply IH. intros ???. apply Hb. by right.
Qed.

Lemma foldl_fmap_l {A B C} (f : C → B → C) (h : A → B) c l :
  foldl f c (h <$> l) = foldl (λ c x, f c (h x)) c l.
Proof. revert c. induction l as [|x l IH]; intros c; cbn; [done|apply IH]. Qed.

Lemma elem_of_pairs_of a b l :
  (a, b) ∈ pairs_of l ↔ ∃ i j, i < j ∧ l !! i = Some a ∧ l !! j = Some b.
Proof.
  induction l as [|x l IH]; cbn.
  - split; [by intros ?%elem_of_nil|]. by intros (i & j & _ & ? & _).
  - rewrite elem_of_app, list_elem_of_fmap, IH. split.
    + intros [(y & [= -> ->] & Hy)|(i & j & Hij & Hi & Hj)].
      * apply list_elem_of_lookup in Hy as [j Hj].
        exists 0, (S j). split_and!; [lia|done..].
      * exists (S i), (S j). split_and!; [lia|done..].
    + intros (i & j & Hij & Hi & Hj).
      destruct j as [|j]; [lia|]. cbn in Hj. destruct i as [|i]; cbn in Hi.
      * injection Hi as ->. left. exists b. split; [done|].
        by eapply list_elem_of_lookup_2.
      * right. exists i, j. split_and!; [lia|done..].
Qed.

Section exact.
Context `{Platform}.

Lemma dist_at_ok lab_colors i j :
  i < length lab_colors → j < length lab_colors →
  dist_at lab_colors i j = Ok (delta_e (lab_colors !!! i) (lab_colors !!! j)).
Proof.
  intros Hi Hj. unfold dist_at, getitem.
  destruct (lookup_lt_is_Some_2 _ _ Hi) as [la Hla].
  destruct (lookup_lt_is_Some_2 _ _ Hj) as [lb Hlb].
  rewrite (list_lookup_total_correct _ _ _ Hla), (list_lookup_total_correct _ _ _ Hlb).
  by rewrite Hla, Hlb.
Qed.

Lemma pair_distances_cons lab_colors x rest :
  pair_distances lab_colors (x :: rest)
    = ((λ y, delta_e (lab_colors !!! x) (lab_colors !!! y)) <$> rest)
        ++ pair_distances lab_colors rest.
Proof.
  unfold pair_distances. cbn [pairs_of].
  by rewrite fmap_app, <-list_fmap_compose.
Qed.

(** On valid positions [calculate_fitness] returns, and its value is the
    running minimum over [pair_distances]. *)
Lemma calculate_fitness_from_ok lab_colors m sel :
  Forall (λ i, i < length lab_colors) sel →
  calculate_fitness_from lab_colors m sel
    = Ok (foldl F.min2 m (pair_distances lab_colors sel)).
Proof.
  intros Hv. revert m. induction Hv as [|x rest Hx Hrest IH]; intros m; [done|].
  cbn [calculate_fitness_from].
  rewrite (fold_ok_pure rest _
             (λ m y, F.min2 m (delta_e (lab_colors !!! x) (lab_colors !!! y)))).
  - cbn [mbind outcome_bind]. rewrite IH. f_equal.
    rewrite pair_distances_cons, foldl_app. f_equal.
    symmetry. apply foldl_fmap_l.
  - intros m' y Hy. rewrite Forall_forall in Hrest.
    by rewrite dist_at_ok by auto.
Qed.

Lemma pair_distances_ok lab_colors sel :
  distances_ok lab_colors →
  Forall (λ i, i < length lab_colors) sel →
  Forall (λ d, F.le 0 d = true) (pair_distances lab_colors sel).
Proof.
  intros Hd Hv. rewrite Forall_forall in Hv.
  apply Forall_forall. intros d ([a b] & -> & Hab)%list_elem_of_fmap.
  apply elem_of_pairs_of in Hab as (i & j & _ & Hi & Hj).
  apply Hd; apply list_elem_of_lookup_total_2;
    eapply Hv, list_elem_of_lookup_2; done.
Qed.

(** The value of a valid selection: a number above [-inf], below every
    pair distance, and either [inf] or one of the pair distances. *)
Lemma fitness_spec lab_colors sel :
  distances_ok lab_colors →
  Forall (λ i, i < length lab_colors) sel →
  let f := foldl F.min2 F.inf (pair_distances lab_colors sel) in
  is_num f ∧ fcmp F.neg_inf f = Some Lt ∧
  (∀ d, d ∈ pair_distances lab_colors sel → not_below fcmp d f) ∧
  (f = F.inf ∨ f ∈ pair_distances lab_colors sel).
Proof.
  intros Hd Hv f.
  pose proof (pair_distances_ok _ _ Hd Hv) as Hpos.
  destruct (foldl_min2_spec (pair_distances lab_colors sel) F.inf is_num_inf)
    as (Hn & _ & Hall & Hat).
  { eapply Forall_impl; [exact Hpos|]. apply nonneg_is_num. }
  split_and!; [done| |by apply Forall_forall|done].
  destruct Hat as [Hinf|Hin].
  - unfold f. by rewrite Hinf.
  - apply fcmp_neg_inf_lt. rewrite Forall_forall in Hpos. by apply Hpos.
Qed.

Lemma scan_spec lab_colors sels acc seen :
  distances_ok lab_colors →
  Forall (Forall (λ i, i < length lab_colors)) sels →
  let fit sel := foldl F.min2 F.inf (pair_distances lab_colors sel) in
  let inv (acc : option (list nat) * float) seen :=
    match acc.1 with
    | None => acc.2 = F.neg_inf ∧ seen = []
    | Some s => s ∈ seen ∧ acc.2 = fit s ∧
                ∀ s', s' ∈ seen → not_below fcmp acc.2 (fit s')
    end in
  Forall (Forall (λ i, i < length lab_colors)) seen →
  inv acc seen →
  ∃ acc', fold_ok sels
            (λ '(best_selection, best_min_distance) selection,
               min_distance ← calculate_min_distance lab_colors selection;
               Ok (if F.gt min_distance best_min_distance
                   then (Some selection, min_distance)
                   else (best_selection, best_min_distance)))
            acc = Ok acc' ∧ inv acc' (seen ++ sels).
Proof.
  intros Hd Hv fit inv. revert acc seen.
  induction Hv as [|s sels Hs Hv IH]; intros acc seen Hseen Hinv.
  { exists acc. by rewrite app_nil_r. }
  destruct (fitness_spec _ _ Hd Hs) as (Hn & Hlow & _ & _). fold (fit s) in Hn, Hlow.
  destruct acc as [bs b]. cbn [fold_ok].
  unfold calculate_min_distance. rewrite calculate_fitness_from_ok by done.
  cbn [mbind outcome_bind]. fold (fit s).
  replace (seen ++ s :: sels) with ((seen ++ [s]) ++ sels) by by rewrite <-app_assoc.
  apply IH; [by apply Forall_app; repeat constructor|].
  assert (not_below fcmp (fit s) (fit s)) as Hrefl by by left.
  unfold F.gt. rewrite ltb_decide. unfold inv in *. cbn [fst snd] in *.
  destruct bs as [s0|].
  - destruct Hinv as (Hs0 & -> & Hmax). case_bool_decide as Hlt; cbn [fst snd].
    + split_and!; [set_solver|done|].
      intros s' [Hs'| ->%list_elem_of_singleton]%elem_of_app; [|done].
      eapply (not_below_trans fcmp); [|by apply Hmax].
      by apply (lt_not_below fcmp).
    + split_and!; [set_solver|done|].
      intros s' [Hs'| ->%list_elem_of_singleton]%elem_of_app; [by apply Hmax|].
      apply (not_lt_not_below fcmp); [|done].
      apply fcmp_some; [|done].
      rewrite Forall_forall in Hseen.
      by destruct (fitness_spec _ _ Hd (Hseen _ Hs0)).
  - destruct Hinv as [-> ->]. rewrite bool_decide_eq_true_2 by done.
    cbn [fst snd]. split_and!; [set_solver|done|].
    by intros s' ->%list_elem_of_singleton.
Qed.
End exact.

(** ** Combinations *)

Lemma combinations_nil_r {A} (l : list A) : combinations l 0 = [[]].
Proof. by destruct l. Qed.

Lemma combinations_sublist {A} (l c : list A) k :
  c ∈ combinations l k → c `sublist_of` l ∧ length c = k.
Proof.
  revert c k. induction l as [|x l IH]; intros c [|k]; cbn.
  - intros ->%list_elem_of_singleton. by split.
  - by intros ?%elem_of_nil.
  - intros ->%list_elem_of_singleton. split; [apply sublist_nil_l|done].
  - intros [(c' & -> & Hc')%list_elem_of_fmap|Hc]%elem_of_app.
    + destruct (IH _ _ Hc') as [Hs <-]. split; [by apply sublist_skip|done].
    + destruct (IH _ _ Hc) as [Hs Hl]. split; [by apply sublist_cons|done].
Qed.

Lemma sublist_combinations {A} (l c : list A) :
  c `sublist_of` l → c ∈ combinations l (length c).
Proof.
  induction 1 as [|x c l Hs IH|x c l Hs IH].
  - cbn. by left.
  - cbn. apply elem_of_app. left. apply list_elem_of_fmap. eauto.
  - destruct c as [|y c]; [rewrite combinations_nil_r; by left|].
    cbn in *. apply elem_of_app. by right.
Qed.

(** A strictly increasing list of positions below [a + n] from [a] on is
    a subsequence of [range]. *)
Lemma increasing_sublist_seq c a n :
  StronglySorted lt c → Forall (λ i, a ≤ i < a + n) c → c `sublist_of` seq a n.
Proof.
  revert a c. induction n as [|n IH]; intros a c Hs Hr.
  - destruct c as [|x c]; [done|]. apply Forall_cons in Hr as [? _]. lia.
  - destruct c as [|x c]; [apply sublist_nil_l|]. cbn.
    apply Forall_cons in Hr as [Hx Hr].
    apply StronglySorted_inv in Hs as [Hs Hlt].
    destruct (decide (x = a)) as [->|Hne].
    + apply sublist_skip, IH; [done|].
      rewrite Forall_forall in Hr, Hlt. apply Forall_forall. intros i Hi.
      specialize (Hr i Hi). specialize (Hlt i Hi). lia.
    + apply sublist_cons, IH; [by constructor|].
      constructor; [lia|].
      rewrite Forall_forall in Hr, Hlt. apply Forall_forall. intros i Hi.
      specialize (Hr i Hi). specialize (Hlt i Hi). lia.
Qed.

Lemma sorted_nodup_increasing (c : list nat) :
  StronglySorted le c → NoDup c → StronglySorted lt c.
Proof.
  induction 1 as [|x c Hs IH Hle]; intros Hnd; [constructor|].
  apply NoDup_cons in Hnd as [Hx Hnd]. constructor; [by apply IH|].
  rewrite Forall_forall in Hle. apply Forall_forall. intros y Hy.
  specialize (Hle y Hy). assert (x ≠ y) by (by intros ->). lia.
Qed.

(** Every selection meeting the invariant is, up to order, one of the
    combinations the exhaustive search enumerates. *)
Lemma selection_ok_combination n k sel :
  selection_ok n k sel →
  ∃ c, c ∈ combinations (seq 0 n) (Z.to_nat k) ∧ c ≡ₚ sel.
Proof.
  intros (Hnd & Hlen & Hr). exists (merge_sort le sel).
  pose proof (merge_sort_Permutation le sel) as Hp.
  split; [|done].
  replace (Z.to_nat k) with (length (merge_sort le sel))
    by (rewrite Hp; lia).
  apply sublist_combinations, increasing_sublist_seq.
  - apply sorted_nodup_increasing; [|by rewrite Hp].
    apply (StronglySorted_merge_sort le).
  - apply Forall_forall. intros i Hi. rewrite Hp in Hi.
    specialize (Hr i Hi). lia.
Qed.

(** ** Returned selections: their length *)

Lemma ensures_ret {A} (a : A) (P : A → Prop) : P a → ensures (mret a) P.
Proof. intros Ha s a' s' [= <- _]. done. Qed.

Lemma ensures_bind {A B} (m : Rnd A) (f : A → Rnd B) (P : A → Prop)
    (Q : B → Prop) :
  ensures m P → (∀ a, P a → ensures (f a) Q) → ensures (m ≫= f) Q.
Proof.
  intros Hm Hf s b s'. unfold mbind, rnd_bind.
  destruct (m s) as [[a|e] s1] eqn:Hs; [|done].
  intros Hb. eapply Hf; [eapply Hm; exact Hs|exact Hb].
Qed.

Lemma ensures_true {A} (m : Rnd A) : ensures m (λ _, True).
Proof. by intros s a s' _. Qed.

Lemma ensures_skip {A B} (m : Rnd A) (f : A → Rnd B) (Q : B → Prop) :
  (∀ a, ensures (f a) Q) → ensures (m ≫= f) Q.
Proof. intros Hf. eapply ensures_bind; [apply ensures_true|]. auto. Qed.

Lemma ensures_rnd_of {A} (o : outcome A) (P : A → Prop) :
  (∀ a, o = Ok a → P a) → ensures (rnd_of o) P.
Proof. intros Ho s a s' [= -> _]. by apply Ho. Qed.

Lemma ensures_raise {A} (e : exn) (P : A → Prop) : ensures (rnd_raise e) P.
Proof. by intros s a s'. Qed.

Lemma ensures_weaken {A} (m : Rnd A) (P Q : A → Prop) :
  ensures m P → (∀ a, P a → Q a) → ensures m Q.
Proof. intros Hm HPQ s a s' Hs. eapply HPQ, Hm, Hs. Qed.

Lemma ensures_repeat_n {S} (I : S → Prop) n (body : S → Rnd S) st :
  I st → (∀ st, I st → ensures (body st) I) → ensures (repeat_n n body st) I.
Proof.
  intros Hst Hbody. revert st Hst. induction n as [|n IH]; intros st Hst; cbn.
  - by apply ensures_ret.
  - eapply ensures_bind; [by apply Hbody|]. apply IH.
Qed.

Lemma ensures_for_each {A S} (I : S → Prop) (l : list A)
    (body : S → A → Rnd S) st :
  I st → (∀ st x, I st → ensures (body st x) I) → ensures (for_each l body st) I.
Proof.
  intros Hst Hbody. revert st Hst. induction l as [|x l IH]; intros st Hst; cbn.
  - by apply ensures_ret.
  - eapply ensures_bind; [by apply Hbody|]. apply IH.
Qed.

(** A loop whose every round appends one entry. *)
Lemma ensures_repeat_n_grow {A} n (body : list A → Rnd (list A)) st :
  (∀ st, ensures (body st) (λ st', length st' = S (length st))) →
  ensures (repeat_n n body st) (λ st', length st' = length st + n).
Proof.
  intros Hbody. revert st. induction n as [|n IH]; intros st; cbn.
  - apply ensures_ret. lia.
  - eapply ensures_bind; [apply Hbody|]. intros st' Hst'.
    eapply ensures_weaken; [apply IH|]. intros st'' Hst''. cbn in *. lia.
Qed.

Lemma fold_ok_inv {A S} (I : S → Prop) (l : list A) (body : S → A → outcome S)
    st st' :
  I st → (∀ st x st', I st → body st x = Ok st' → I st') →
  fold_ok l body st = Ok st' → I st'.
Proof.
  intros Hst Hbody. revert st Hst. induction l as [|x l IH]; intros st Hst; cbn.
  - by intros [= <-].
  - destruct (body st x) as [st1|e] eqn:Hb; [|done]. cbn. apply IH. eauto.
Qed.

Lemma fold_ok_inv_elem {A S} (I : S → Prop) (l : list A)
    (body : S → A → outcome S) st st' :
  I st → (∀ st x st', x ∈ l → I st → body st x = Ok st' → I st') →
  fold_ok l body st = Ok st' → I st'.
Proof.
  intros Hst Hbody. revert st Hst. induction l as [|x l IH]; intros st Hst; cbn.
  - by intros [= <-].
  - destruct (body st x) as [st1|e] eqn:Hb; [|done]. cbn. apply IH.
    + intros ??? Hx. apply Hbody. by right.
    + eapply Hbody; [left|done..].
Qed.

Lemma ensures_sample_pool k pool :
  ensures (sample_pool k pool) (λ res, length res = k).
Proof.
  revert pool. induction k as [|k IH]; intros pool; cbn [sample_pool].
  - by apply ensures_ret.
  - apply ensures_skip. intros j. apply ensures_skip. intros x.
    apply ensures_skip. intros last.
    eapply ensures_bind; [apply IH|]. intros rest Hrest.
    apply ensures_ret. cbn. by rewrite Hrest.
Qed.

Lemma ensures_random_sample n k :
  ensures (random_sample n k) (λ res, Z.of_nat (length res) = k).
Proof.
  unfold random_sample. destruct (Z.ltb_spec k 0) as [|Hk]; [apply ensures_raise|].
  destruct (_ <? _)%Z; [apply ensures_raise|]. cbn [orb].
  eapply ensures_weaken; [apply ensures_sample_pool|]. cbn. lia.
Qed.

(** The distance of a colour to itself. *)
Lemma sub_self_square x :
  Prim2SF ((x - x) * (x - x)) = S754_zero false ∨
  Prim2SF ((x - x) * (x - x)) = S754_nan.
Proof.
  rewrite mul_spec, sub_spec.
  destruct (Prim2SF x) as [[]|[]| |s m e]; try (by left); try (by right).
  left. unfold SF64sub, SFsub. cbn -[binary_normalize Z.sub].
  rewrite Z.sub_diag. reflexivity.
Qed.

Lemma delta_e_self `{Platform} la :
  is_num (delta_e la la) → Prim2SF (delta_e la la) = S754_zero false.
Proof.
  destruct la as [[L a] b]. unfold is_num, fcmp, delta_e. rewrite !float_pow_2.
  rewrite sqrt_spec, !add_spec.
  destruct (sub_self_square L) as [-> | ->], (sub_self_square a) as [-> | ->],
    (sub_self_square b) as [-> | ->]; done.
Qed.

Lemma delta_e_self_le `{Platform} la d :
  is_num (delta_e la la) → F.le 0 d = true → F.le (delta_e la la) d = true.
Proof.
  intros Hn Hd. unfold F.le in *. rewrite FloatAxioms.leb_spec in Hd |- *.
  by rewrite (delta_e_self la Hn).
Qed.

Section exact_optimal.
Context `{Platform}.

(** Rearranging a selection of distinct valid positions does not lower
    the minimum below that of the rearranged one. *)
Lemma fitness_perm_le lab_colors sel c :
  distances_ok lab_colors →
  Forall (λ i, i < length lab_colors) sel →
  NoDup sel → c ≡ₚ sel →
  not_below fcmp (foldl F.min2 F.inf (pair_distances lab_colors c))
                 (foldl F.min2 F.inf (pair_distances lab_colors sel)).
Proof.
  intros Hd Hv Hnd Hp.
  assert (Forall (λ i, i < length lab_colors) c) as Hvc by by rewrite Hp.
  destruct (fitness_spec _ _ Hd Hv) as (Hn & _ & Hall & _).
  destruct (fitness_spec _ _ Hd Hvc) as (_ & _ & _ & [->|Hat]).
  { by apply fcmp_le_inf. }
  apply list_elem_of_fmap in Hat as ([a b] & -> & Hab). cbn [fst snd].
  apply elem_of_pairs_of in Hab as (i & j & Hij & Hi & Hj).
  assert (a ≠ b) as Hne.
  { intros ->. assert (NoDup c) as Hndc by by rewrite Hp.
    pose proof (NoDup_lookup _ _ _ _ Hndc Hi Hj). lia. }
  assert (a ∈ sel) as [p Hpa]%list_elem_of_lookup
    by (rewrite <-Hp; by eapply list_elem_of_lookup_2).
  assert (b ∈ sel) as [q Hqb]%list_elem_of_lookup
    by (rewrite <-Hp; by eapply list_elem_of_lookup_2).
  destruct (Nat.lt_total p q) as [Hpq|[->|Hqp]]; [|congruence|].
  - apply Hall. apply list_elem_of_fmap. exists (a, b). split; [done|].
    apply elem_of_pairs_of. eauto.
  - rewrite delta_e_sym. apply Hall.
    apply list_elem_of_fmap. exists (b, a). split; [done|].
    apply elem_of_pairs_of. eauto.
Qed.

Lemma not_below_le x y : not_below fcmp x y → F.le y x = true.
Proof.
  intros Hxy. unfold F.le. apply leb_fcmp.
  destruct Hxy as [Hc|Hc]; apply (cmp_flip fcmp) in Hc; cbn in Hc; auto.
Qed.

(** For [0 < k <= n] and a pool whose distances are non-negative
    numbers, the scan of Exact Minimum returns one of the
    [k]-combinations of [range(n)], and the value computed for it is the
    largest over all of them and over every selection of [k] distinct
    valid positions. *)
Lemma exact_minimum_optimal_fitness lab_colors k :
  (0 < k ≤ Z.of_nat (length lab_colors))%Z →
  distances_ok lab_colors →
  ∃ best f,
    exact_minimum_search lab_colors k = Ok best ∧
    best ∈ combinations (seq 0 (length lab_colors)) (Z.to_nat k) ∧
    calculate_min_distance lab_colors best = Ok f ∧
    (∀ c, c ∈ combinations (seq 0 (length lab_colors)) (Z.to_nat k) →
       ∃ g, calculate_min_distance lab_colors c = Ok g ∧ F.le g f = true) ∧
    (∀ sel, selection_ok (length lab_colors) k sel →
       ∃ g, calculate_fitness lab_colors sel = Ok g ∧ F.le g f = true).
Proof.
  intros Hk Hd. set (n := length lab_colors).
  set (combos := combinations (seq 0 n) (Z.to_nat k)).
  assert (Forall (Forall (λ i, i < n)) combos) as Hvalid.
  { apply Forall_forall. intros c [Hs _]%combinations_sublist.
    apply Forall_forall. intros i Hi.
    pose proof (elem_of_sublist _ _ _ Hi Hs) as Hi'.
    apply elem_of_seq in Hi'. lia. }
  assert (take (Z.to_nat k) (seq 0 n) ∈ combos) as Hne.
  { unfold combos.
    replace (Z.to_nat k) with (length (take (Z.to_nat k) (seq 0 n))) at 2
      by (rewrite length_take, length_seq; lia).
    apply sublist_combinations, sublist_take. }
  destruct (scan_spec lab_colors combos (None, F.neg_inf) [] Hd Hvalid)
    as ([bs b] & Hscan & Hinv); [constructor|done|].
  cbn [fst snd app] in Hinv.
  destruct bs as [best|].
  2:{ destruct Hinv as [_ Hnil]. rewrite Hnil in Hne. by apply elem_of_nil in Hne. }
  destruct Hinv as (Hbest & -> & Hmax).
  assert (∀ c, c ∈ combos →
            calculate_min_distance lab_colors c
              = Ok (foldl F.min2 F.inf (pair_distances lab_colors c))) as Hcalc.
  { intros c Hc. rewrite Forall_forall in Hvalid.
    apply calculate_fitness_from_ok. by apply Hvalid. }
  exists best, (foldl F.min2 F.inf (pair_distances lab_colors best)).
  split_and!.
  - unfold exact_minimum_search. destruct (Z.ltb_spec k 0); [lia|].
    fold n. fold combos. unfold exact_minimum_scan. by rewrite Hscan.
  - done.
  - by apply Hcalc.
  - intros c Hc. eexists. split; [by apply Hcalc|].
    by apply not_below_le, Hmax.
  - intros sel Hsel.
    destruct (selection_ok_combination _ _ _ Hsel) as (c & Hc & Hp).
    destruct Hsel as (Hnd & _ & Hr).
    assert (Forall (λ i, i < n) sel) as Hv by by apply Forall_forall.
    eexists. split; [by apply calculate_fitness_from_ok|].
    apply not_below_le. eapply (not_below_trans fcmp); [by apply Hmax|].
    by apply fitness_perm_le.
Qed.
End exact_optimal.

(** ** The order and optimality claims on the dark pool *)

Section order_examples.
Local Existing Instance bare_platform.

Lemma dark_world_pool : heap dark_world !!! pool_ref = dark_pool.
Proof. reflexivity. Qed.

Lemma elem_of_dark_pool c :
  c ∈ dark_pool → c = (0, 0, 0)%Z ∨ c = (6, 6, 6)%Z ∨ c = (10, 10, 10)%Z.
Proof.
  unfold dark_pool. rewrite !elem_of_cons, elem_of_nil. tauto.
Qed.

Lemma dark_pool_is_num c : c ∈ dark_pool → lab_is_num (rgb_to_lab c).
Proof.
  intros [->|[->| ->]]%elem_of_dark_pool; repeat split; vm_compute; reflexivity.
Qed.

Lemma dark_pool_distances_ok : distances_ok (rgb_to_lab <$> dark_pool).
Proof.
  intros la lb (ca & -> & Ha)%list_elem_of_fmap (cb & -> & Hb)%list_elem_of_fmap.
  apply elem_of_dark_pool in Ha, Hb.
  destruct Ha as [->|[->| ->]], Hb as [->|[->| ->]]; vm_compute; reflexivity.
Qed.

Lemma result_in_canonical_order_witness :
  ∃ r,
    (select_distinct_colors pool_ref 2 "exact_minimum" None dark_world).1 = Ok r ∧
    (∀ c, c ∈ heap dark_world !!! pool_ref → lab_is_num (rgb_to_lab c)) ∧
    ∃ (sr : search) selected selected_colors,
      SEARCHES !! "exact_minimum" = Some sr ∧
      select_distinct_colors pool_ref 2 "exact_minimum" None dark_world
        = run_strategy (sr 2%Z None) pool_ref dark_world ∧
      (sr 2%Z None (rgb_to_lab <$> heap dark_world !!! pool_ref)
          (entropy dark_world)).1 = Ok selected ∧
      mapM (getitem (heap dark_world !!! pool_ref)) selected = Ok selected_colors ∧
      r !! "colors" = Some (RColors (sort_colors selected_colors)) ∧
      sort_colors selected_colors ≡ₚ selected_colors ∧
      canonical (sort_colors selected_colors).
Proof.
  eexists. split; [vm_compute; reflexivity|].
  assert (∀ c, c ∈ heap dark_world !!! pool_ref → lab_is_num (rgb_to_lab c)) as Hnum.
  { rewrite dark_world_pool. apply dark_pool_is_num. }
  split; [exact Hnum|].
  eapply (result_in_canonical_order pool_ref 2 "exact_minimum" None dark_world);
    [vm_compute; reflexivity|exact Hnum].
Defined.


(** On the dark pool the exhaustive search picks the two extreme greys. *)
Lemma exact_minimum_dark_pool :
  exact_minimum_search (rgb_to_lab <$> dark_pool) 2 = Ok [0; 2].
Proof. vm_compute. reflexivity. Qed.
End order_examples.

(** * Further properties of the module *)

(** ** The metric and the fitness *)

Section metric_properties.
Context `{Platform}.

(** X1: on the CIELAB tuples of colours with channels in [0, 255] the
    CIE76 distance is symmetric, bit for bit: [delta_e(a, b)] and
    [delta_e(b, a)] are the same float.  (The differences [a - b] and
    [b - a] are exact negations of one another, and squaring forgets the
    sign.) *)
Theorem delta_e_symmetric (c1 c2 : rgb) :
  rgb_ok c1 → rgb_ok c2 →
  delta_e (rgb_to_lab c1) (rgb_to_lab c2) = delta_e (rgb_to_lab c2) (rgb_to_lab c1).
Proof. intros _ _. apply delta_e_sym. Qed.

(** X2: on colours with channels in [0, 255], [sort_colors] returns a
    rearrangement of its argument: the same colours with the same
    multiplicities (duplicates included), hence a list of the same
    length. *)
Theorem sort_colors_rearranges (colors : list rgb) :
  Forall rgb_ok colors →
  sort_colors colors ≡ₚ colors ∧ length (sort_colors colors) = length colors.
Proof.
  intros _. pose proof (sort_colors_perm colors) as Hp.
  split; [done|by rewrite Hp].
Qed.

(** The fold of a valid selection unfolds to positions. *)
Lemma elem_of_pair_distances lab_colors sel d :
  d ∈ pair_distances lab_colors sel ↔
  ∃ i j a b, i < j ∧ sel !! i = Some a ∧ sel !! j = Some b ∧
             d = delta_e (lab_colors !!! a) (lab_colors !!! b).
Proof.
  unfold pair_distances. rewrite list_elem_of_fmap. split.
  - intros ([a b] & -> & (i & j & ? & ? & ?)%elem_of_pairs_of). eauto 10.
  - intros (i & j & a & b & Hij & Hi & Hj & ->). exists (a, b).
    split; [done|]. apply elem_of_pairs_of. eauto.
Qed.

(** X3: on a selection of valid positions, in a pool whose distances are
    non-negative numbers, [calculate_fitness] returns the minimum pairwise
    distance: a value that is at most the distance of every pair of
    positions [i < j], and that is either [inf] or the distance of one such
    pair. *)
Theorem calculate_fitness_is_min_pairwise lab_colors sel :
  distances_ok lab_colors →
  Forall (λ i, i < length lab_colors) sel →
  ∃ f,
    calculate_fitness lab_colors sel = Ok f ∧
    (∀ i j a b, i < j → sel !! i = Some a → sel !! j = Some b →
       F.le f (delta_e (lab_colors !!! a) (lab_colors !!! b)) = true) ∧
    (f = F.inf ∨
     ∃ i j a b, i < j ∧ sel !! i = Some a ∧ sel !! j = Some b ∧
                f = delta_e (lab_colors !!! a) (lab_colors !!! b)).
Proof.
  intros Hd Hv. eexists. split; [by apply calculate_fitness_from_ok|].
  destruct (fitness_spec _ _ Hd Hv) as (_ & _ & Hall & Hat). split.
  - intros i j a b Hij Hi Hj. apply not_below_le, Hall.
    apply elem_of_pair_distances. eauto 10.
  - destruct Hat as [?|Hin]; [by left|right].
    by apply elem_of_pair_distances in Hin.
Qed.

(** X4: the fitness does not depend on the order in which a selection
    lists its positions: two arrangements of the same distinct valid
    positions get fitness values that compare equal. *)
Theorem calculate_fitness_order_independent lab_colors sel1 sel2 :
  distances_ok lab_colors →
  Forall (λ i, i < length lab_colors) sel1 →
  NoDup sel1 → sel1 ≡ₚ sel2 →
  ∃ f1 f2,
    calculate_fitness lab_colors sel1 = Ok f1 ∧
    calculate_fitness lab_colors sel2 = Ok f2 ∧
    F.eq f1 f2 = true.
Proof.
  intros Hd Hv1 Hnd1 Hp.
  assert (Forall (λ i, i < length lab_colors) sel2) as Hv2 by by rewrite <-Hp.
  assert (NoDup sel2) as Hnd2 by by rewrite <-Hp.
  eexists _, _. split_and!; [by apply calculate_fitness_from_ok..|].
  pose proof (fitness_perm_le _ _ _ Hd Hv1 Hnd1 (symmetry Hp)) as H21.
  pose proof (fitness_perm_le _ _ _ Hd Hv2 Hnd2 Hp) as H12.
  unfold F.eq. apply eqb_fcmp.
  destruct H12 as [?|H12]; [done|].
  apply (cmp_flip fcmp) in H12. cbn in H12.
  destruct H21 as [H21|H21]; congruence.
Qed.
End metric_properties.

Section fitness_errors.
Context `{Platform}.

Lemma dist_at_raise lab_colors i j :
  length lab_colors ≤ i ∨ length lab_colors ≤ j →
  dist_at lab_colors i j = Raise IndexError.
Proof.
  intros Hbad. unfold dist_at, getitem.
  destruct (lab_colors !! i) as [la|] eqn:Hi; [|done].
  destruct (lab_colors !! j) as [lb|] eqn:Hj; [|done].
  apply lookup_lt_Some in Hi, Hj. lia.
Qed.

Lemma fold_dist_raise lab_colors x rest m :
  x < length lab_colors →
  Exists (λ y, length lab_colors ≤ y) rest →
  fold_ok rest
    (λ min_dist y, dist ← dist_at lab_colors x y; Ok (F.min2 min_dist dist)) m
    = Raise IndexError.
Proof.
  intros Hx Hbad. revert m. induction Hbad as [y rest Hy|y rest Hbad IH]; intros m.
  - cbn. rewrite dist_at_raise by auto. done.
  - cbn. destruct (decide (y < length lab_colors)) as [Hy|Hy].
    + rewrite dist_at_ok by done. cbn. apply IH.
    + rewrite dist_at_raise by lia. done.
Qed.

(** X5: a selection of two or more positions of which one is out of range
    makes [calculate_fitness] raise [IndexError]; with fewer than two
    positions no colour is looked up and the value is [inf], valid
    position or not. *)
Theorem calculate_fitness_out_of_range lab_colors sel :
  (2 ≤ length sel → Exists (λ i, length lab_colors ≤ i) sel →
   calculate_fitness lab_colors sel = Raise IndexError) ∧
  (length sel < 2 → calculate_fitness lab_colors sel = Ok F.inf).
Proof.
  split.
  - intros Hlen Hbad. unfold calculate_fitness.
    destruct sel as [|x [|y rest]]; cbn in Hlen; [lia..|].
    cbn [calculate_fitness_from].
    destruct (decide (x < length lab_colors)) as [Hx|Hx].
    + apply Exists_cons in Hbad as [?|Hbad]; [lia|].
      by rewrite fold_dist_raise.
    + cbn. rewrite dist_at_raise by lia. done.
  - intros Hlen. destruct sel as [|x [|y rest]]; cbn in Hlen; [done..|lia].
Qed.
End fitness_errors.

(** ** The constructive strategies *)

Section sequential.
Context `{Platform}.

Lemma mapM_dist_at_ok lab_colors idx sel :
  idx < length lab_colors → Forall (λ i, i < length lab_colors) sel →
  mapM (dist_at lab_colors idx) sel
    = Ok ((λ i, delta_e (lab_colors !!! idx) (lab_colors !!! i)) <$> sel).
Proof.
  intros Hidx Hv. induction Hv as [|i sel Hi Hv IH]; [done|].
  by rewrite mapM_ok_cons, dist_at_ok, IH.
Qed.

(** The scan of [pick_best] ends on a position of [available]. *)
Lemma pick_best_scan (score : nat → outcome float) (ps : list (nat * nat))
    (m best_idx : nat) (best : float) :
  (∀ p, p ∈ ps → p.1 < m ∧ is_ok (score p.2) = true) →
  best_idx < m →
  ∃ i d, i < m ∧
    fold_ok ps
      (λ '(best_idx, best) '(i, idx),
         d ← score idx;
         Ok (if F.gt d best then (i, d) else (best_idx, best)))
      (best_idx, best) = Ok (i, d).
Proof.
  revert best_idx best. induction ps as [|[i idx] ps IH]; intros bi b Hps Hbi.
  - exists bi, b. by split.
  - cbn [fold_ok]. destruct (Hps (i, idx)) as [Hi Hok]; [left|]. cbn in Hi, Hok.
    destruct (score idx) as [d|]; [|done]. cbn [mbind outcome_bind].
    destruct (F.gt d b); apply IH; auto; intros p Hp; apply Hps; by right.
Qed.

Lemma pick_best_ok (score : list nat → nat → outcome float) selected available :
  (∀ idx, idx ∈ available → is_ok (score selected idx) = true) →
  available ≠ [] →
  ∃ i x, available !! i = Some x ∧
    pick_best score (selected, available) = Ok (selected ++ [x], delete i available).
Proof.
  intros Hscore Hne. unfold pick_best.
  destruct (pick_best_scan (score selected) (enumerate available)
              (length available) 0 F.neg_inf) as (i & d & Hi & ->).
  - intros [i idx] Hp. unfold enumerate in Hp.
    apply elem_of_lookup_imap in Hp as (i' & x & [= <- <-] & Hx). cbn.
    split; [by eapply lookup_lt_Some|].
    by eapply Hscore, list_elem_of_lookup_2.
  - destruct available; [done|cbn; lia].
  - cbn [mbind outcome_bind]. unfold list_pop.
    destruct (lookup_lt_is_Some_2 _ _ Hi) as [x Hx]. rewrite Hx. cbn. eauto.
Qed.

Lemma pick_best_empty (score : list nat → nat → outcome float) selected :
  pick_best score (selected, []) = Raise IndexError.
Proof. reflexivity. Qed.

(** Rounds of [pick_best] from a state that splits [range(n)]. *)
Lemma pick_best_rounds (score : list nat → nat → outcome float) n rounds
    selected available :
  (∀ sel idx, sel ≠ [] → Forall (λ i, i < n) sel → idx < n →
              is_ok (score sel idx) = true) →
  selected ≠ [] →
  selected ++ available ≡ₚ seq 0 n →
  (rounds ≤ length available →
   ∃ selected' available',
     repeat_ok rounds (pick_best score) (selected, available)
       = Ok (selected', available') ∧
     selected' ++ available' ≡ₚ seq 0 n ∧
     length selected' = length selected + rounds) ∧
  (length available < rounds →
   repeat_ok rounds (pick_best score) (selected, available) = Raise IndexError).
Proof.
  intros Hscore. revert selected available.
  induction rounds as [|rounds IH]; intros selected available Hne Hp.
  { split; [|lia]. intros _. exists selected, available.
    split_and!; [done|done|lia]. }
  assert (∀ i, i ∈ selected ++ available → i < n) as Hr.
  { intros i Hi. rewrite Hp in Hi. apply elem_of_seq in Hi. lia. }
  destruct available as [|a available'] eqn:Ha.
  { split; [cbn; lia|]. intros _. done. }
  rewrite <-Ha in *.
  destruct (pick_best_ok score selected available) as (i & x & Hx & Hpb).
  { intros idx Hidx. apply Hscore; [done| |].
    - apply Forall_forall. intros j Hj. apply Hr, elem_of_app. by left.
    - apply Hr, elem_of_app. by right. }
  { by rewrite Ha. }
  cbn [repeat_ok]. rewrite Hpb. cbn [mbind outcome_bind].
  assert ((selected ++ [x]) ++ delete i available ≡ₚ seq 0 n) as Hp'.
  { rewrite <-Hp, <-app_assoc. apply Permutation_app_head. cbn.
    by rewrite <-delete_Permutation. }
  assert (length (delete i available) = length available - 1) as Hlen.
  { rewrite length_delete; [done|by eexists]. }
  assert (0 < length available) by (rewrite Ha; cbn; lia).
  destruct (IH (selected ++ [x]) (delete i available)) as [IHok IHbad];
    [by destruct selected|done|].
  split.
  - intros Hle. destruct IHok as (s' & a' & -> & ? & Hl); [lia|].
    exists s', a'. split_and!; [done|done|].
    rewrite Hl, length_app. cbn. lia.
  - intros Hlt. apply IHbad. lia.
Qed.

(** The body shared by Greedy and Max-sum (sequential). *)
Lemma sequential_search_spec (score : list nat → nat → outcome float)
    n k s :
  (∀ sel idx, sel ≠ [] → Forall (λ i, i < n) sel → idx < n →
              is_ok (score sel idx) = true) →
  (n = 0 → sequential_search score n k s = (Raise ValueError, s)) ∧
  (0 < n → (k ≤ Z.of_nat n)%Z →
   ∃ sel, sequential_search score n k s = (Ok sel, tail s) ∧
          selection_ok n (Z.max 1 k) sel) ∧
  (0 < n → (Z.of_nat n < k)%Z →
   sequential_search score n k s = (Raise IndexError, tail s)).
Proof.
  intros Hscore. split; [by intros ->|].
  assert (0 < n → ∃ x,
            x < n ∧
            sequential_search score n k s =
              ('(selected, _) ← rnd_of (repeat_ok (rounds_left k [x])
                                          (pick_best score) ([x], delete x (seq 0 n)));
               mret selected) (tail s)) as Hfirst.
  { intros Hn. unfold sequential_search, mbind, rnd_bind at 1.
    rewrite length_seq.
    destruct (random_randint_range 0 (Z.of_nat n - 1) s) as (r & Hr & ->); [lia|].
    unfold rnd_bind at 1, rnd_of at 1, list_pop.
    rewrite lookup_seq_lt by lia. cbn [fst snd].
    exists (Z.to_nat r). split; [lia|done]. }
  assert (∀ x, x < n → [x] ++ delete x (seq 0 n) ≡ₚ seq 0 n) as Hsplit.
  { intros x Hx. cbn. symmetry. apply delete_Permutation.
    by rewrite lookup_seq_lt. }
  assert (∀ x, x < n → length (delete x (seq 0 n)) = n - 1) as Hlen.
  { intros x Hx. rewrite length_delete, length_seq; [done|].
    rewrite lookup_seq_lt by done. by eexists. }
  split.
  - intros Hn Hk. destruct (Hfirst Hn) as (x & Hx & ->).
    destruct (pick_best_rounds score n (rounds_left k [x]) [x]
                (delete x (seq 0 n)) Hscore) as [Hok _]; [done|by apply Hsplit|].
    destruct Hok as (sel & av & Hrep & Hp & Hl).
    { rewrite Hlen by done. unfold rounds_left. cbn. lia. }
    unfold mbind, rnd_bind, rnd_of. rewrite Hrep. cbn.
    exists sel. split; [done|]. split_and!.
    + assert (NoDup (sel ++ av)) as Hnd by (rewrite Hp; apply NoDup_seq).
      by apply NoDup_app in Hnd as [? _].
    + rewrite Hl. unfold rounds_left. cbn. lia.
    + intros i Hi. assert (i ∈ seq 0 n) as Hs
        by (rewrite <-Hp; apply elem_of_app; by left).
      apply elem_of_seq in Hs. lia.
  - intros Hn Hk. destruct (Hfirst Hn) as (x & Hx & ->).
    destruct (pick_best_rounds score n (rounds_left k [x]) [x]
                (delete x (seq 0 n)) Hscore) as [_ Hbad]; [done|by apply Hsplit|].
    unfold mbind, rnd_bind, rnd_of. rewrite Hbad; [done|].
    rewrite Hlen by done. unfold rounds_left. cbn. lia.
Qed.

Lemma greedy_score_ok lab_colors sel idx :
  sel ≠ [] → Forall (λ i, i < length lab_colors) sel → idx < length lab_colors →
  is_ok (greedy_calculate_min_distance lab_colors sel idx) = true.
Proof.
  intros Hne Hv Hidx. unfold greedy_calculate_min_distance.
  rewrite mapM_dist_at_ok by done.
  destruct sel as [|a sel]; [done|]. done.
Qed.

Lemma total_score_ok lab_colors sel idx :
  sel ≠ [] → Forall (λ i, i < length lab_colors) sel → idx < length lab_colors →
  is_ok (calculate_total_distance lab_colors sel idx) = true.
Proof.
  intros Hne Hv Hidx. unfold calculate_total_distance.
  by rewrite mapM_dist_at_ok.
Qed.

(** X6: on a non-empty pool with [select_count <= n], the searches of
    Greedy and of Max-sum (sequential) return [max(1, select_count)]
    distinct valid positions and take exactly one random draw (the first
    pick), whatever the colours are. *)
Theorem sequential_strategies_select lab_colors k s :
  lab_colors ≠ [] → (k ≤ Z.of_nat (length lab_colors))%Z →
  (∃ sel, greedy_search lab_colors k s = (Ok sel, tail s) ∧
          selection_ok (length lab_colors) (Z.max 1 k) sel) ∧
  (∃ sel, max_sum_sequential_search lab_colors k s = (Ok sel, tail s) ∧
          selection_ok (length lab_colors) (Z.max 1 k) sel).
Proof.
  intros Hne Hk.
  assert (0 < length lab_colors) as Hn by (destruct lab_colors; cbn; [done|lia]).
  split.
  - apply (sequential_search_spec _ _ k s (greedy_score_ok lab_colors)); done.
  - apply (sequential_search_spec _ _ k s (total_score_ok lab_colors)); done.
Qed.

(** X7: called directly with more colours requested than the pool holds,
    Greedy and Max-sum (sequential) raise [IndexError] (the pop from the
    exhausted [available]) after the first draw; on an empty pool they
    raise [ValueError] (the empty [randint] range) without drawing. *)
Theorem sequential_strategies_overdraw lab_colors k s :
  (lab_colors = [] →
   greedy_search lab_colors k s = (Raise ValueError, s) ∧
   max_sum_sequential_search lab_colors k s = (Raise ValueError, s)) ∧
  (lab_colors ≠ [] → (Z.of_nat (length lab_colors) < k)%Z →
   greedy_search lab_colors k s = (Raise IndexError, tail s) ∧
   max_sum_sequential_search lab_colors k s = (Raise IndexError, tail s)).
Proof.
  split.
  - intros ->. done.
  - intros Hne Hk.
    assert (0 < length lab_colors) as Hn by (destruct lab_colors; cbn; [done|lia]).
    split.
    + apply (sequential_search_spec _ _ k s (greedy_score_ok lab_colors)); done.
    + apply (sequential_search_spec _ _ k s (total_score_ok lab_colors)); done.
Qed.
End sequential.

Lemma StronglySorted_reverse {A} (R : A → A → Prop) l :
  StronglySorted R l → StronglySorted (flip R) (reverse l).
Proof.
  induction 1 as [|x l Hs IH Hx]; [constructor|].
  rewrite reverse_cons. apply StronglySorted_app_2; [|done|repeat constructor].
  intros x1 x2 Hx1 ->%list_elem_of_singleton.
  rewrite elem_of_reverse in Hx1.
  rewrite Forall_forall in Hx. unfold flip. by apply Hx.
Qed.

Lemma flt_asym x y : F.lt x y = true → F.lt y x = false.
Proof.
  unfold F.lt. rewrite ltb_fcmp. intros Hlt. apply not_true_is_false.
  rewrite ltb_fcmp, (cmp_flip fcmp _ _ _ Hlt). done.
Qed.

Lemma flt_false x y :
  is_num x → is_num y → F.lt x y = false ↔ not_below fcmp x y.
Proof.
  intros Hx Hy. unfold F.lt. rewrite <-not_true_iff_false, ltb_fcmp. split.
  - apply (not_lt_not_below fcmp). by apply fcmp_some.
  - apply (not_below_lt fcmp).
Qed.

Lemma flt_ge_trans x y z :
  is_num x → is_num y → is_num z →
  F.lt x y = false → F.lt y z = false → F.lt x z = false.
Proof.
  intros Hx Hy Hz. rewrite !flt_false by done. apply (not_below_trans fcmp).
Qed.

Section max_sum_global.
Context `{Platform}.

Lemma total_distances_fst (f : nat → float) a n :
  fst <$> ((λ i, (i, f i)) <$> seq a n) = seq a n.
Proof.
  rewrite <-list_fmap_compose. revert a.
  induction n as [|n IH]; intros a; [done|].
  cbn [seq fmap list_fmap]. f_equal. apply IH.
Qed.

(** X8: for [0 <= select_count <= n] the Max-sum (global) search returns
    [select_count] distinct valid positions and takes no random draw. *)
Theorem max_sum_global_selects lab_colors k s :
  (0 ≤ k ≤ Z.of_nat (length lab_colors))%Z →
  ∃ sel, max_sum_global_search lab_colors k s = (Ok sel, s) ∧
         selection_ok (length lab_colors) k sel.
Proof.
  intros Hk. unfold max_sum_global_search. cbn zeta.
  set (tds := (λ i, (i, total_distance_to_others lab_colors i))
                <$> seq 0 (length lab_colors)).
  set (sorted := sort_reverse (λ x y : nat * float, F.lt x.2 y.2) tds).
  eexists. split; [reflexivity|].
  assert (fst <$> sorted ≡ₚ seq 0 (length lab_colors)) as Hp.
  { unfold sorted, sort_reverse.
    rewrite reverse_Permutation, list_sort_perm, reverse_Permutation.
    unfold tds. by rewrite total_distances_fst. }
  unfold slice_to. destruct (Z.ltb_spec k 0) as [|_]; [lia|].
  rewrite fmap_take. split_and!.
  - apply (sublist_NoDup _ (fst <$> sorted)); [|apply sublist_take].
    rewrite Hp. apply NoDup_seq.
  - rewrite length_take, Hp, length_seq. lia.
  - intros i Hi.
    pose proof (elem_of_sublist _ _ _ Hi (sublist_take _ _)) as Hi'.
    rewrite Hp in Hi'. apply elem_of_seq in Hi'. lia.
Qed.

(** X9: the positions Max-sum (global) returns are the top of the ranking
    by total distance to all other pool members: when those totals are
    numbers, no position left out has a total distance greater than that
    of a position selected. *)
Theorem max_sum_global_top lab_colors k s sel i j :
  (0 ≤ k)%Z →
  (∀ p, p < length lab_colors → is_num (total_distance_to_others lab_colors p)) →
  max_sum_global_search lab_colors k s = (Ok sel, s) →
  i ∈ sel → j < length lab_colors → j ∉ sel →
  F.lt (total_distance_to_others lab_colors i)
       (total_distance_to_others lab_colors j) = false.
Proof.
  intros Hk Hnum. unfold max_sum_global_search. cbn zeta.
  set (tds := (λ i, (i, total_distance_to_others lab_colors i))
                <$> seq 0 (length lab_colors)).
  set (lt := λ x y : nat * float, F.lt x.2 y.2).
  set (sorted := sort_reverse lt tds).
  unfold slice_to. destruct (Z.ltb_spec k 0) as [|_]; [lia|].
  intros [= <-] Hi Hj Hnj.
  assert (∀ x, x ∈ tds ↔
            x.1 < length lab_colors ∧ x.2 = total_distance_to_others lab_colors x.1)
    as Htds.
  { intros [p d]. unfold tds. rewrite list_elem_of_fmap. cbn. split.
    - intros (p' & [= -> ->] & Hp%elem_of_seq). split; [lia|done].
    - intros [Hp ->]. exists p. split; [done|]. apply elem_of_seq. lia. }
  assert (sorted ≡ₚ tds) as Hp.
  { unfold sorted, sort_reverse.
    by rewrite reverse_Permutation, list_sort_perm, reverse_Permutation. }
  assert (StronglySorted (λ a b, lt a b = false) sorted) as Hs.
  { unfold sorted, sort_reverse.
    apply (StronglySorted_reverse (λ a b, lt b a = false)).
    apply (list_sort_sorted lt (λ x, is_num x.2)).
    - intros x y _ _. apply flt_asym.
    - intros x y z. apply flt_ge_trans.
    - apply Forall_forall. intros x Hx. rewrite elem_of_reverse in Hx.
      apply Htds in Hx as [Hx ->]. by apply Hnum. }
  rewrite <-(take_drop (Z.to_nat k) sorted) in Hs, Hp.
  apply list_elem_of_fmap in Hi as ([i' di] & -> & Hi). cbn in *.
  assert ((i', di) ∈ tds) as [_ Hdi]%Htds
    by (rewrite <-Hp; apply elem_of_app; by left).
  cbn in Hdi. subst di.
  assert ((j, total_distance_to_others lab_colors j) ∈ tds) as Hjt
    by (by apply Htds).
  rewrite <-Hp in Hjt. apply elem_of_app in Hjt as [Hjt|Hjt].
  { exfalso. apply Hnj. apply list_elem_of_fmap. by eexists (_, _). }
  apply (StronglySorted_app_1_elem_of _ _ _ _ _ Hs Hi Hjt).
Qed.
End max_sum_global.

(** ** Exhaustive search at its bounds *)

Lemma combinations_too_many {A} (l : list A) k :
  length l < k → combinations l k = [].
Proof.
  revert k. induction l as [|x l IH]; intros [|k] Hk; cbn in *; [lia|done|lia|].
  by rewrite !IH by lia.
Qed.

(** X10: called directly, the exhaustive search raises [ValueError] for a
    negative count (from [itertools.combinations]), returns the empty
    selection for a count of zero, and raises [TypeError] for a count above
    the pool size: no combination exists and [best_selection] is still
    [None] when it is iterated. *)
Theorem exact_minimum_bounds `{Platform} lab_colors k :
  ((k < 0)%Z → exact_minimum_search lab_colors k = Raise ValueError) ∧
  (k = 0%Z → exact_minimum_search lab_colors k = Ok []) ∧
  ((Z.of_nat (length lab_colors) < k)%Z →
   exact_minimum_search lab_colors k = Raise TypeError).
Proof.
  unfold exact_minimum_search. cbn zeta. split_and!.
  - intros Hk. by destruct (Z.ltb_spec k 0); [|lia].
  - intros ->. cbn. by rewrite combinations_nil_r.
  - intros Hk. destruct (Z.ltb_spec k 0); [lia|].
    rewrite combinations_too_many; [done|]. rewrite length_seq. lia.
Qed.

(** ** Calls with [0 < k <= n] that cannot return *)

Lemma rnd_bind_ok {A B} (m : Rnd A) (f : A → Rnd B) s a s' :
  m s = (Ok a, s') → (m ≫= f) s = f a s'.
Proof. intros Hm. unfold mbind, rnd_bind. by rewrite Hm. Qed.

Lemma rnd_bind_raise {A B} (m : Rnd A) (f : A → Rnd B) s e s' :
  m s = (Raise e, s') → (m ≫= f) s = (Raise e, s').
Proof. intros Hm. unfold mbind, rnd_bind. by rewrite Hm. Qed.

Section cannot_return.
Context `{Platform}.

Lemma aco_ant_single lab_colors pheromones alpha beta s :
  lab_colors ≠ [] →
  ∃ i, i < length lab_colors ∧
       aco_ant lab_colors 1 pheromones alpha beta s = (Ok [i], tail s).
Proof.
  intros Hne.
  assert (0 < length lab_colors) as Hn by (destruct lab_colors; cbn; [done|lia]).
  unfold aco_ant, mbind, rnd_bind at 1. rewrite length_seq.
  destruct (random_randint_range 0 (Z.of_nat (length lab_colors) - 1) s)
    as (r & Hr & ->); [lia|].
  unfold rnd_bind, rnd_of, list_pop. rewrite lookup_seq_lt by lia. cbn.
  exists (Z.to_nat r). split; [lia|done].
Qed.

Lemma aco_tours_single lab_colors pheromones alpha beta m acc s :
  lab_colors ≠ [] →
  ∃ new s',
    repeat_n m
      (λ solutions,
         solution ← aco_ant lab_colors 1 pheromones alpha beta;
         mret (solutions ++ [solution]))
      acc s = (Ok (acc ++ new), s') ∧
    length new = m ∧ Forall (λ solution, length solution = 1) new.
Proof.
  intros Hne. revert acc s. induction m as [|m IH]; intros acc s.
  - exists [], s. by rewrite app_nil_r.
  - cbn [repeat_n].
    destruct (aco_ant_single lab_colors pheromones alpha beta s Hne)
      as (i & _ & Hant).
    destruct (IH (acc ++ [[i]]) (tail s)) as (new & s' & Hrep & Hlen & Hall).
    exists ([i] :: new), s'. split_and!.
    + erewrite rnd_bind_ok; [|by erewrite rnd_bind_ok by exact Hant].
      by rewrite Hrep, <-app_assoc.
    + cbn. lia.
    + by constructor.
Qed.

(** X11: Ant Colony asked for a single colour cannot return: with at least
    one iteration and one ant, on any non-empty pool, the first complete
    tour has no pair of colours, [min] is taken of an empty sequence and
    the search raises [ValueError]. *)
Theorem ant_colony_one_colour_raises lab_colors (settings : gmap string value)
    iterations num_ants s :
  lab_colors ≠ [] →
  as_int (settings_get settings "iterations" (VInt 100)) = Ok iterations →
  as_int (settings_get settings "numAnts" (VInt 20)) = Ok num_ants →
  (1 ≤ iterations)%Z → (1 ≤ num_ants)%Z →
  (ant_colony_search lab_colors 1 settings s).1 = Raise ValueError.
Proof.
  intros Hne Hit Hna Hit1 Hna1. unfold ant_colony_search. cbn zeta.
  rewrite Hit.
  destruct (Z.to_nat iterations) as [|it] eqn:Hi; [lia|].
  destruct (aco_tours_single lab_colors (replicate (length lab_colors) 1%float)
              (as_float (settings_get settings "pheromoneImportance" (VInt 1)))
              (as_float (settings_get settings "heuristicImportance" (VInt 2)))
              (Z.to_nat num_ants) [] s Hne) as (new & s' & Hrep & Hlen & Hall).
  destruct new as [|solution new]; [cbn in Hlen; lia|].
  apply Forall_cons in Hall as [Hsol _].
  destruct solution as [|x [|y solution]]; [done| |done].
  erewrite rnd_bind_ok by reflexivity.
  cbn beta. rewrite Hi.
  erewrite rnd_bind_raise; [done|].
  cbn [repeat_n]. erewrite rnd_bind_raise; [done|].
  unfold aco_iteration. rewrite Hna.
  erewrite rnd_bind_ok by reflexivity.
  erewrite rnd_bind_ok by exact Hrep.
  erewrite rnd_bind_raise; [done|]. reflexivity.
Qed.




End cannot_return.

(** ** Pools and palettes *)

Lemma tail_drop {A} (s : list A) : tail s = drop 1 s.
Proof. by destruct s. Qed.

Lemma fold_ok_app {A S} (l1 l2 : list A) (body : S → A → outcome S) s :
  fold_ok (l1 ++ l2) body s = s' ← fold_ok l1 body s; fold_ok l2 body s'.
Proof.
  revert s. induction l1 as [|x l1 IH]; intros s; cbn; [done|].
  destruct (body s x) as [s'|e]; cbn; [apply IH|done].
Qed.

Lemma random_color_spec s :
  ∃ c, rgb_ok c ∧ random_color s = (Ok c, drop 3 s).
Proof.
  unfold random_color.
  destruct (random_randint_range 0 255 s) as (r & Hr & Hrs); [lia|].
  destruct (random_randint_range 0 255 (tail s)) as (g & Hg & Hgs); [lia|].
  destruct (random_randint_range 0 255 (tail (tail s))) as (b & Hb & Hbs); [lia|].
  exists (r, g, b). split; [done|].
  erewrite rnd_bind_ok by exact Hrs.
  erewrite rnd_bind_ok by exact Hgs.
  erewrite rnd_bind_ok by exact Hbs.
  by rewrite !tail_drop, !drop_drop.
Qed.

Lemma generate_random_colors_from m acc s :
  ∃ new,
    repeat_n m (λ colors, c ← random_color; mret (colors ++ [c])) acc s
      = (Ok (acc ++ new), drop (3 * m) s) ∧
    length new = m ∧ Forall rgb_ok new.
Proof.
  revert acc s. induction m as [|m IH]; intros acc s.
  - exists []. by rewrite app_nil_r.
  - destruct (random_color_spec s) as (c & Hc & Hcs).
    destruct (IH (acc ++ [c]) (drop 3 s)) as (new & Hrun & Hlen & Hall).
    exists (c :: new). split_and!.
    + cbn [repeat_n].
      erewrite rnd_bind_ok; [|by erewrite rnd_bind_ok by exact Hcs].
      rewrite Hrun, <-app_assoc, drop_drop. do 2 f_equal. lia.
    + cbn. lia.
    + by constructor.
Qed.

(** X13: [generate_random_colors(count)] returns [max(0, count)] colours
    whose channels all lie in [0, 255], and draws three numbers per
    colour; it cannot raise. *)
Theorem generate_random_colors_valid count s :
  ∃ colors,
    generate_random_colors count s = (Ok colors, drop (3 * Z.to_nat count) s) ∧
    length colors = Z.to_nat (Z.max 0 count) ∧ Forall rgb_ok colors.
Proof.
  destruct (generate_random_colors_from (Z.to_nat count) [] s)
    as (new & Hrun & Hlen & Hall).
  exists new. split_and!; [done|lia|done].
Qed.

Lemma mixed_replace_loop (custom rc : list rgb) m :
  m ≤ length custom → m ≤ length rc →
  fold_ok (seq 0 m)
    (λ random_colors i, c ← getitem custom i; setitem random_colors i c) rc
    = Ok (take m custom ++ drop m rc).
Proof.
  induction m as [|m IH]; intros Hc Hr; [done|].
  rewrite seq_S, fold_ok_app, IH by lia. cbn.
  destruct (lookup_lt_is_Some_2 custom m) as [c Hcm]; [lia|].
  unfold getitem. rewrite Hcm. cbn. unfold setitem.
  rewrite length_app, length_take, length_drop.
  destruct (decide _) as [_|Hbad]; [|lia]. f_equal.
  rewrite insert_app_r_alt by (rewrite length_take; lia).
  rewrite length_take. replace (m - m `min` length custom) with 0 by lia.
  rewrite (take_S_r _ _ _ Hcm), <-app_assoc. f_equal.
  destruct (lookup_lt_is_Some_2 rc m) as [x Hx]; [lia|].
  by rewrite (drop_S _ _ _ Hx).
Qed.

Lemma palette_mixed_run total custom random s s' :
  custom ≠ [] →
  generate_random_colors total s = (Ok random, s') →
  generate_color_palette total (Some custom) "mixed" s
    = (Ok (custom ++ drop (length custom) random), s').
Proof.
  intros Hne Hrun.
  unfold generate_color_palette.
  change (default [] (Some custom)) with custom.
  rewrite (bool_decide_eq_false_2 ("mixed" = "replace")) by done.
  rewrite (bool_decide_eq_false_2 ("mixed" = "append")) by done.
  rewrite (bool_decide_eq_true_2 ("mixed" = "mixed")) by done.
  rewrite (bool_decide_eq_true_2 (custom ≠ [])) by done. cbn [andb].
  erewrite rnd_bind_ok by exact Hrun. cbn beta zeta. unfold rgb in *.
  destruct (Nat.le_gt_cases (length custom) (length random)) as [Hle|Hgt].
  - rewrite Nat.min_l by done. rewrite mixed_replace_loop by (unfold rgb; lia).
    erewrite rnd_bind_ok by reflexivity. cbn beta.
    rewrite firstn_all.
    destruct (decide _) as [Hlt|_]; [|done].
    unfold rgb in *. rewrite length_app, length_drop in Hlt. lia.
  - rewrite Nat.min_r by (unfold rgb in *; lia). rewrite mixed_replace_loop by (unfold rgb; lia).
    erewrite rnd_bind_ok by reflexivity. cbn beta.
    rewrite !(drop_ge random) by (unfold rgb in *; lia). rewrite !app_nil_r.
    rewrite length_take, Nat.min_l by (unfold rgb in *; lia).
    destruct (decide _) as [_|Hge]; [|unfold rgb in *; lia].
    by rewrite take_drop.
Qed.

(** X14: in mode ['mixed'] with a non-empty custom list the palette is the
    custom colours, in their order, followed by the random colours from
    position [len(custom_colors)] on: the first random colours are the
    ones replaced, and the palette has
    [max(total_colors, len(custom_colors))] entries. *)
Theorem palette_mixed_prefix total custom s :
  custom ≠ [] →
  ∃ random,
    generate_random_colors total s = (Ok random, drop (3 * Z.to_nat total) s) ∧
    generate_color_palette total (Some custom) "mixed" s
      = (Ok (custom ++ drop (length custom) random), drop (3 * Z.to_nat total) s) ∧
    length (custom ++ drop (length custom) random)
      = Z.to_nat total `max` length custom.
Proof.
  intros Hne.
  destruct (generate_random_colors_from (Z.to_nat total) [] s)
    as (random & Hrun & Hlen & _).
  exists random. split_and!; [done| |rewrite length_app, length_drop; lia].
  by apply palette_mixed_run.
Qed.

(** X15: [generate_color_palette] cannot raise, whatever the mode string
    is; its palette holds only colours with channels in [0, 255] when the
    custom colours are such; in the modes ['replace'], ['append'] and
    ['mixed'] every custom colour is in the palette, and in every other
    mode the palette has [max(0, total_colors)] entries, the custom
    colours being ignored. *)
Theorem palette_total total custom mode s :
  ∃ palette s',
    generate_color_palette total custom mode s = (Ok palette, s') ∧
    (Forall rgb_ok (default [] custom) → Forall rgb_ok palette) ∧
    (mode ∈ ["replace"; "append"; "mixed"] → default [] custom ⊆ palette) ∧
    (mode ∉ ["replace"; "append"; "mixed"] →
     length palette = Z.to_nat (Z.max 0 total)).
Proof.
  destruct (generate_random_colors_from (Z.to_nat total) [] s)
    as (random & Hrun & Hlen & Hok).
  change (repeat_n _ _ _ s) with (generate_random_colors total s) in Hrun.
  assert (∀ l : list rgb, [] ⊆ l) as Hnil by (intros l x ?%elem_of_nil; done).
  unfold generate_color_palette.
  set (cs := default [] custom).
  destruct (decide (mode = "replace")) as [->|Hrep].
  { rewrite bool_decide_eq_true_2 by done.
    destruct (decide (cs = [])) as [Hcs|Hcs].
    - rewrite (bool_decide_eq_false_2 (cs ≠ [])) by auto. cbn.
      exists random, (drop (3 * Z.to_nat total) s).
      split_and!; [done|done|by rewrite Hcs|].
      intros []. apply list_elem_of_here.
    - rewrite (bool_decide_eq_true_2 (cs ≠ [])) by done. cbn.
      exists cs, s. split_and!; [done|done|done|].
      intros []. apply list_elem_of_here. }
  rewrite (bool_decide_eq_false_2 (mode = "replace")) by done. cbn [andb].
  destruct (decide (mode = "append")) as [->|Happ].
  { rewrite bool_decide_eq_true_2 by done.
    erewrite rnd_bind_ok by exact Hrun.
    exists (random ++ cs), (drop (3 * Z.to_nat total) s).
    split_and!; [done| | |].
    - intros Hcs. by apply Forall_app.
    - intros _ x Hx. apply elem_of_app. by right.
    - intros []. apply list_elem_of_further, list_elem_of_here. }
  rewrite (bool_decide_eq_false_2 (mode = "append")) by done.
  destruct (decide (mode = "mixed")) as [->|Hmix].
  { destruct (decide (cs = [])) as [Hcs|Hcs].
    - rewrite (bool_decide_eq_false_2 (cs ≠ [])) by auto.
      rewrite andb_false_r.
      exists random, (drop (3 * Z.to_nat total) s).
      split_and!; [done|done|by rewrite Hcs|].
      intros []. do 2 apply list_elem_of_further. apply list_elem_of_here.
    - destruct custom as [custom|]; [|done]. subst cs.
      change (default [] (Some custom)) with custom in *.
      pose proof (palette_mixed_run total custom random s _ Hcs Hrun) as Hp.
      unfold generate_color_palette in Hp.
      change (default [] (Some custom)) with custom in *.
      rewrite (bool_decide_eq_false_2 ("mixed" = "replace")) in Hp by done.
      rewrite (bool_decide_eq_false_2 ("mixed" = "append")) in Hp by done.
      cbn [andb] in Hp. rewrite Hp.
      eexists _, _. split_and!; [done| | |].
      + intros Hc. apply Forall_app. split; [done|by apply Forall_drop].
      + intros _ x Hx. apply elem_of_app. by left.
      + intros []. do 2 apply list_elem_of_further. apply list_elem_of_here. }
  rewrite (bool_decide_eq_false_2 (mode = "mixed")) by done. cbn [andb].
  exists random, (drop (3 * Z.to_nat total) s).
  split_and!; [done|done| |intros _; lia].
  rewrite !elem_of_cons, elem_of_nil. tauto.
Qed.

(** ** Metrics *)

Lemma max2_cases m d :
  is_num m → is_num d →
  (F.max2 m d = m ∧ not_below fcmp m d) ∨ (F.max2 m d = d ∧ fcmp m d = Some Lt).
Proof.
  intros Hm Hd. unfold F.max2. rewrite ltb_decide. case_bool_decide as Hlt.
  - by right.
  - left. split; [done|]. apply not_lt_not_below; [by apply fcmp_some|done].
Qed.

Lemma foldl_max2_spec l m :
  is_num m → Forall is_num l →
  is_num (foldl F.max2 m l) ∧
  not_below fcmp (foldl F.max2 m l) m ∧
  Forall (λ d, not_below fcmp (foldl F.max2 m l) d) l.
Proof.
  intros Hm Hl. revert m Hm.
  induction Hl as [|d l Hd Hl IH]; intros m Hm; cbn.
  - split_and!; [done|by left|constructor].
  - destruct (max2_cases m d Hm Hd) as [[-> Hge]|[-> Hlt]].
    + destruct (IH m Hm) as (Hn & Hmr & Hall).
      split_and!; [done|done|]. constructor; [|done].
      by eapply (not_below_trans fcmp).
    + destruct (IH d Hd) as (Hn & Hdr & Hall).
      split_and!; [done| |by constructor].
      eapply (not_below_trans fcmp); [exact Hdr|]. by apply (lt_not_below fcmp).
Qed.

Lemma foldl_min2_elem l m : foldl F.min2 m l ∈ m :: l.
Proof.
  revert m. induction l as [|d l IH]; intros m; cbn; [apply list_elem_of_here|].
  unfold F.min2 at 2. destruct (d <? m)%float.
  - apply list_elem_of_further, IH.
  - specialize (IH m). apply elem_of_cons in IH as [->|?];
      [apply list_elem_of_here|by do 2 apply list_elem_of_further].
Qed.

Lemma foldl_max2_elem l m : foldl F.max2 m l ∈ m :: l.
Proof.
  revert m. induction l as [|d l IH]; intros m; cbn; [apply list_elem_of_here|].
  unfold F.max2 at 2. destruct (m <? d)%float.
  - apply list_elem_of_further, IH.
  - specialize (IH m). apply elem_of_cons in IH as [->|?];
      [apply list_elem_of_here|by do 2 apply list_elem_of_further].
Qed.

Section metrics.
Context `{Platform}.

Lemma metrics_inner lab_colors i a m acc :
  i < length lab_colors → a + m ≤ length lab_colors →
  fold_ok (seq a m)
    (λ distances j, dist ← dist_at lab_colors i j; Ok (distances ++ [dist])) acc
  = Ok (acc ++ ((λ j, delta_e (lab_colors !!! i) (lab_colors !!! j)) <$> seq a m)).
Proof.
  intros Hi. revert a acc. induction m as [|m IH]; intros a acc Ham; cbn.
  - by rewrite app_nil_r.
  - rewrite dist_at_ok by lia. cbn. rewrite IH by lia.
    by rewrite <-app_assoc.
Qed.

Lemma metrics_outer lab_colors n a m acc :
  n = length lab_colors → a + m = n →
  fold_ok (seq a (m - 1))
    (λ distances i,
       fold_ok (seq (i + 1) (n - (i + 1)))
         (λ distances j, dist ← dist_at lab_colors i j; Ok (distances ++ [dist]))
         distances)
    acc
  = Ok (acc ++ pair_distances lab_colors (seq a m)).
Proof.
  intros Hn. revert a acc. induction m as [|m IH]; intros a acc Ham.
  - cbn. by rewrite app_nil_r.
  - destruct m as [|m].
    + cbn. by rewrite app_nil_r.
    + replace (S (S m) - 1) with (S m) by lia. cbn [seq fold_ok].
      rewrite metrics_inner by lia. cbn [mbind outcome_bind].
      replace (S m - 1) with m in IH by lia.
      rewrite IH by lia.
      rewrite pair_distances_cons, <-app_assoc.
      replace (a + 1) with (S a) by lia.
      replace (n - S a) with (S m) by lia. done.
Qed.

(** The distances [calculate_metrics] collects are those of all pairs of
    positions [i < j], in the order of the nested loops. *)
Lemma calculate_metrics_run colors :
  let ds := pair_distances (rgb_to_lab <$> colors) (seq 0 (length colors)) in
  (length colors < 2 →
   calculate_metrics colors
     = Ok (<["min" := VInt 0]> (<["max" := VInt 0]>
            (<["avg" := VInt 0]> (<["sum" := VInt 0]> ∅))))) ∧
  (2 ≤ length colors →
   ∃ d ds', ds = d :: ds' ∧
     calculate_metrics colors
       = Ok (<["min" := VFloat (foldl F.min2 d ds')]>
              (<["max" := VFloat (foldl F.max2 d ds')]>
                (<["avg" := VFloat (F.sum ds / F.of_nat (length ds))]>
                  (<["sum" := VFloat (F.sum ds)]> ∅))))).
Proof.
  intros ds. unfold calculate_metrics. cbn zeta.
  rewrite (metrics_outer (rgb_to_lab <$> colors) (length colors) 0 (length colors))
    by (by rewrite ?length_fmap).
  cbn [app mbind outcome_bind]. fold ds. split.
  - intros Hlen. subst ds. by destruct colors as [|c [|c' colors]]; [..|cbn in Hlen; lia].
  - intros Hlen.
    assert (∃ d ds', ds = d :: ds') as (d & ds' & Hds).
    { subst ds. destruct colors as [|c [|c' colors]]; [cbn in Hlen; lia..|].
      cbn [length seq]. rewrite pair_distances_cons. cbn. eauto. }
    exists d, ds'. split; [done|]. by rewrite Hds.
Qed.

Lemma elem_of_all_pair_distances colors d :
  d ∈ pair_distances (rgb_to_lab <$> colors) (seq 0 (length colors)) ↔
  ∃ i j ci cj, i < j ∧ colors !! i = Some ci ∧ colors !! j = Some cj ∧
               d = delta_e (rgb_to_lab ci) (rgb_to_lab cj).
Proof.
  rewrite elem_of_pair_distances. split.
  - intros (i & j & a & b & Hij & [-> Hi]%lookup_seq & [-> Hj]%lookup_seq & ->).
    cbn in *.
    destruct (lookup_lt_is_Some_2 colors i Hi) as [ci Hci].
    destruct (lookup_lt_is_Some_2 colors j Hj) as [cj Hcj].
    exists i, j, ci, cj. split_and!; [done..|].
    by rewrite !(list_lookup_total_correct (rgb_to_lab <$> colors) _ (rgb_to_lab _))
      by (rewrite list_lookup_fmap; by (rewrite Hci || rewrite Hcj)).
  - intros (i & j & ci & cj & Hij & Hci & Hcj & ->).
    exists i, j, i, j.
    pose proof (lookup_lt_Some _ _ _ Hci). pose proof (lookup_lt_Some _ _ _ Hcj).
    split_and!; [done|by apply lookup_seq..|].
    by rewrite !(list_lookup_total_correct (rgb_to_lab <$> colors) _ (rgb_to_lab _))
      by (rewrite list_lookup_fmap; by (rewrite Hci || rewrite Hcj)).
Qed.

(** X16: on colours with channels in [0, 255], [calculate_metrics]
    returns.  With fewer than two colours its four entries are the int
    [0]; with two or more, ['min'] and ['max'] are floats, each the
    distance of some pair of the colours given. *)
Theorem calculate_metrics_total colors :
  Forall rgb_ok colors →
  ∃ m,
    calculate_metrics colors = Ok m ∧
    (length colors < 2 →
     m !! "min" = Some (VInt 0) ∧ m !! "max" = Some (VInt 0) ∧
     m !! "avg" = Some (VInt 0) ∧ m !! "sum" = Some (VInt 0)) ∧
    (2 ≤ length colors →
     ∃ mn mx,
       m !! "min" = Some (VFloat mn) ∧ m !! "max" = Some (VFloat mx) ∧
       (∃ i j ci cj, i < j ∧ colors !! i = Some ci ∧ colors !! j = Some cj ∧
                     mn = delta_e (rgb_to_lab ci) (rgb_to_lab cj)) ∧
       (∃ i j ci cj, i < j ∧ colors !! i = Some ci ∧ colors !! j = Some cj ∧
                     mx = delta_e (rgb_to_lab ci) (rgb_to_lab cj))).
Proof.
  intros _.
  destruct (calculate_metrics_run colors) as [Hfew Hmany].
  destruct (decide (length colors < 2)) as [Hlen|Hlen].
  - eexists. split; [by apply Hfew|]. split; [|lia]. done.
  - destruct Hmany as (d & ds' & Hds & ->); [lia|].
    eexists. split; [done|]. split; [lia|]. intros _.
    eexists _, _. split_and!; [done..| |].
    + apply elem_of_all_pair_distances. rewrite Hds. apply foldl_min2_elem.
    + apply elem_of_all_pair_distances. rewrite Hds. apply foldl_max2_elem.
Qed.

(** X17: when the distances between the colours are non-negative numbers
    (no NaN), the ['min'] and ['max'] entries of [calculate_metrics]
    bound the distance of every pair of the colours given. *)
Theorem calculate_metrics_bounds colors :
  distances_ok (rgb_to_lab <$> colors) → 2 ≤ length colors →
  ∃ m mn mx,
    calculate_metrics colors = Ok m ∧
    m !! "min" = Some (VFloat mn) ∧ m !! "max" = Some (VFloat mx) ∧
    ∀ i j ci cj, i < j → colors !! i = Some ci → colors !! j = Some cj →
      F.le mn (delta_e (rgb_to_lab ci) (rgb_to_lab cj)) = true ∧
      F.le (delta_e (rgb_to_lab ci) (rgb_to_lab cj)) mx = true.
Proof.
  intros Hd Hlen.
  destruct (calculate_metrics_run colors) as [_ Hmany].
  destruct Hmany as (d & ds' & Hds & ->); [lia|].
  eexists _, _, _. split_and!; [done..|].
  assert (Forall is_num (d :: ds')) as Hnum.
  { rewrite <-Hds. eapply Forall_impl; [|apply nonneg_is_num].
    apply pair_distances_ok; [done|].
    apply Forall_forall. intros i Hi%elem_of_seq. rewrite length_fmap. lia. }
  apply Forall_cons in Hnum as [Hd0 Hds'].
  destruct (foldl_min2_spec ds' d Hd0 Hds') as (_ & Hmin0 & Hmin & _).
  destruct (foldl_max2_spec ds' d Hd0 Hds') as (_ & Hmax0 & Hmax).
  intros i j ci cj Hij Hci Hcj.
  assert (delta_e (rgb_to_lab ci) (rgb_to_lab cj) ∈ d :: ds') as Hin.
  { rewrite <-Hds. apply elem_of_all_pair_distances. eauto 10. }
  rewrite Forall_forall in Hmin, Hmax.
  apply elem_of_cons in Hin as [->|Hin]; split; apply not_below_le; auto.
Qed.
End metrics.

(** ** From a generated pool to a result *)

Lemma mapM_getitem_ok {A} (l : list A) sel :
  Forall (λ i, i < length l) sel →
  ∃ out, mapM (getitem l) sel = Ok out ∧ length out = length sel ∧
         Forall (λ x, x ∈ l) out.
Proof.
  induction 1 as [|i sel Hi Hv (out & Ho & Hlen & Hin)].
  - by exists [].
  - destruct (lookup_lt_is_Some_2 l i Hi) as [x Hx].
    exists (x :: out). rewrite mapM_ok_cons. unfold getitem at 1. rewrite Hx, Ho.
    split_and!; [done|cbn; lia|].
    constructor; [by eapply list_elem_of_lookup_2|done].
Qed.

Section end_to_end.
Context `{Platform}.

(** A search that returns valid positions makes its strategy return: the
    result holds one colour of the pool per position, and the pool is as
    it was. *)
Lemma run_strategy_selects search colors w sel s' :
  search (rgb_to_lab <$> heap w !!! colors) (entropy w) = (Ok sel, s') →
  Forall (λ i, i < length (heap w !!! colors)) sel →
  ∃ r cs w',
    run_strategy search colors w = (Ok r, w') ∧
    r !! "colors" = Some (RColors cs) ∧ is_Some (r !! "time") ∧
    length cs = length sel ∧ Forall (λ c, c ∈ heap w !!! colors) cs ∧
    heap w' = heap w ∧ entropy w' = s'.
Proof.
  intros Hs Hv. rewrite run_strategy_unfold. cbn zeta. rewrite Hs.
  destruct (mapM_getitem_ok _ _ Hv) as (out & -> & Hlen & Hin).
  eexists _, (sort_colors out), _. split_and!; [done|done|..].
  - rewrite lookup_insert_ne by done. by rewrite lookup_insert_eq.
  - by rewrite sort_colors_perm.
  - by rewrite sort_colors_perm.
  - by rewrite tick_heap.
  - by rewrite tick_entropy.
Qed.

Lemma generate_n_colors_run n alg s w run :
  ALGORITHMS !! alg = Some run →
  ∃ pool,
    length pool = Z.to_nat (Z.max (n * 10) 20) ∧ Forall rgb_ok pool ∧
    generate_n_colors n alg s w
      = run (fresh (dom (heap w) : gset nat)) n s
          (World (drop (3 * Z.to_nat (Z.max (n * 10) 20)) (entropy w)) (clock w)
                 (<[fresh (dom (heap w) : gset nat) := pool]> (heap w))).
Proof.
  intros Halg.
  destruct (generate_random_colors_from (Z.to_nat (Z.max (n * 10) 20)) []
              (entropy w)) as (pool & Hrun & Hlen & Hok).
  change (repeat_n _ _ _ (entropy w))
    with (generate_random_colors (Z.max (n * 10) 20) (entropy w)) in Hrun.
  cbn [app] in Hrun.
  exists pool. split_and!; [done..|].
  unfold generate_n_colors. cbn zeta.
  unfold mbind, m_bind at 1, lift. rewrite Hrun.
  unfold m_bind, alloc. cbn [entropy clock heap].
  rewrite select_distinct_colors_unfold, Halg. cbn [heap].
  rewrite lookup_total_insert_eq.
  destruct (Z.ltb_spec (Z.of_nat (length pool)) n) as [Hbad|_]; [lia|done].
Qed.

(** X18: [generate_n_colors] cannot fail the size check of
    [select_distinct_colors], whatever [n] is: for a known algorithm it
    draws a pool of [max(10 n, 20)] colours with channels in [0, 255],
    three draws each, and its outcome is that of the strategy called on
    this new list with [select_count = n]. *)
Theorem generate_n_colors_dispatch n alg s w run :
  ALGORITHMS !! alg = Some run →
  ∃ pool,
    length pool = Z.to_nat (Z.max (n * 10) 20) ∧ Forall rgb_ok pool ∧
    generate_n_colors n alg s w
      = run (fresh (dom (heap w) : gset nat)) n s
          (World (drop (3 * Z.to_nat (Z.max (n * 10) 20)) (entropy w)) (clock w)
                 (<[fresh (dom (heap w) : gset nat) := pool]> (heap w))).
Proof. apply generate_n_colors_run. Qed.

Lemma generate_n_colors_search (search : Z → list lab → Rnd (list nat)) n alg s w :
  ALGORITHMS !! alg
    = Some (λ colors k _, run_strategy (λ lab_colors, search k lab_colors) colors) →
  (∀ lab_colors k s,
     lab_colors ≠ [] → (k ≤ Z.of_nat (length lab_colors))%Z →
     ∃ sel, search k lab_colors s = (Ok sel, tail s) ∧
            selection_ok (length lab_colors) (Z.max 1 k) sel) →
  ∃ r cs w',
    generate_n_colors n alg s w = (Ok r, w') ∧
    r !! "colors" = Some (RColors cs) ∧ is_Some (r !! "time") ∧
    length cs = Z.to_nat (Z.max 1 n) ∧ Forall rgb_ok cs ∧
    entropy w' = drop (3 * Z.to_nat (Z.max (n * 10) 20) + 1) (entropy w) ∧
    ∀ l cs0, heap w !! l = Some cs0 → heap w' !! l = Some cs0.
Proof.
  intros Halg Hsearch.
  destruct (generate_n_colors_run n alg s w _ Halg) as (pool & Hlen & Hok & ->).
  set (l := fresh (dom (heap w) : gset nat)).
  set (w1 := World _ (clock w) (<[l := pool]> (heap w))).
  assert (heap w1 !!! l = pool) as Hpool by apply lookup_total_insert_eq.
  destruct (Hsearch (rgb_to_lab <$> pool) n (entropy w1))
    as (sel & Hrun & Hnd & Hsel & Hval).
  { intros Hnil%(f_equal length). rewrite length_fmap in Hnil. cbn in Hnil. lia. }
  { rewrite length_fmap. lia. }
  rewrite length_fmap in Hval.
  destruct (run_strategy_selects (λ lab_colors, search n lab_colors) l w1 sel
              (tail (entropy w1)))
    as (r & cs & w' & Hr & Hcolors & Htime & Hcs & Hin & Hheap & Hent).
  { by rewrite Hpool. }
  { rewrite Hpool. by apply Forall_forall. }
  exists r, cs, w'. split_and!; [done|done|done|lia| | |].
  - rewrite Hpool in Hin. rewrite Forall_forall in Hok.
    eapply Forall_impl; [exact Hin|]. intros c Hc. by apply Hok.
  - rewrite Hent. cbn. by rewrite tail_drop, drop_drop.
  - intros l0 cs0 Hl0. rewrite Hheap. cbn [heap w1].
    rewrite lookup_insert_ne; [done|]. intros Heq.
    apply (is_fresh (dom (heap w) : gset nat)).
    apply elem_of_dom. change (is_Some (heap w !! l)).
    rewrite Heq, Hl0. by eexists.
Qed.

(** X19: with the algorithm ['greedy'] (the default) or
    ['max_sum_sequential'], [generate_n_colors(n)] returns for every [n],
    every generator state and every settings: its result has [max(1, n)]
    colours, each with channels in [0, 255], and a time; it draws three
    numbers per pool colour and one for the first pick, and leaves every
    list the caller holds as it was. *)
Theorem generate_n_colors_returns n alg s w :
  alg = "greedy" ∨ alg = "max_sum_sequential" →
  ∃ r cs w',
    generate_n_colors n alg s w = (Ok r, w') ∧
    r !! "colors" = Some (RColors cs) ∧ is_Some (r !! "time") ∧
    length cs = Z.to_nat (Z.max 1 n) ∧ Forall rgb_ok cs ∧
    entropy w' = drop (3 * Z.to_nat (Z.max (n * 10) 20) + 1) (entropy w) ∧
    ∀ l cs0, heap w !! l = Some cs0 → heap w' !! l = Some cs0.
Proof.
  intros [-> | ->].
  - apply (generate_n_colors_search (λ k lab_colors, greedy_search lab_colors k));
      [done|].
    intros lab_colors k s' Hne Hk.
    assert (0 < length lab_colors) as Hn by (destruct lab_colors; cbn; [done|lia]).
    by apply (sequential_search_spec _ _ k s' (greedy_score_ok lab_colors)).
  - apply (generate_n_colors_search
             (λ k lab_colors, max_sum_sequential_search lab_colors k)); [done|].
    intros lab_colors k s' Hne Hk.
    assert (0 < length lab_colors) as Hn by (destruct lab_colors; cbn; [done|lia]).
    by apply (sequential_search_spec _ _ k s' (total_score_ok lab_colors)).
Qed.
End end_to_end.

(** ** Every search returns as many positions as were asked for *)

Lemma mapM_ok_length {A B} (f : A → outcome B) l out :
  mapM f l = Ok out → length out = length l.
Proof.
  revert out. induction l as [|x l IH]; intros out.
  - by intros [= <-].
  - rewrite mapM_ok_cons. destruct (f x) as [y|]; [|done].
    destruct (mapM f l) as [out'|]; [|done].
    intros [= <-]. cbn. f_equal. by apply IH.
Qed.

Lemma repeat_ok_grow {A B} n (body : list A * B → outcome (list A * B)) st st' :
  (∀ st st', body st = Ok st' → length st'.1 = S (length st.1)) →
  repeat_ok n body st = Ok st' → length st'.1 = length st.1 + n.
Proof.
  intros Hbody. revert st. induction n as [|n IH]; intros st; cbn.
  - intros [= <-]. lia.
  - destruct (body st) as [st1|e] eqn:Hb; [|done]. cbn.
    intros Hr%IH. apply Hbody in Hb. lia.
Qed.

Lemma length_slice_to {A} (l : list A) k :
  (0 ≤ k ≤ Z.of_nat (length l))%Z → Z.of_nat (length (slice_to l k)) = k.
Proof.
  intros Hk. unfold slice_to. destruct (Z.ltb_spec k 0); [lia|].
  rewrite length_take. lia.
Qed.

Section returned_length.
Context `{Platform}.

Lemma pick_best_grow score st st' :
  pick_best score st = Ok st' → length st'.1 = S (length st.1).
Proof.
  destruct st as [selected available]. unfold pick_best.
  destruct (fold_ok _ _ _) as [[best_idx best]|]; [|done]. cbn.
  destruct (list_pop available best_idx) as [[x available']|]; [|done]. cbn.
  intros [= <-]. cbn. rewrite length_app. cbn. lia.
Qed.

Lemma ensures_sequential_search score n k :
  (0 < k)%Z →
  ensures (sequential_search score n k) (λ sel, Z.of_nat (length sel) = k).
Proof.
  intros Hk. unfold sequential_search. cbn zeta.
  apply ensures_skip. intros first_idx.
  apply ensures_skip. intros [x available].
  eapply ensures_bind.
  - apply (ensures_rnd_of _ (λ st, length st.1 = 1 + rounds_left k [x])).
    intros st Hst%(repeat_ok_grow _ _ _ _ (pick_best_grow score)). done.
  - intros [selected av] Hlen. apply ensures_ret. cbn in Hlen.
    unfold rounds_left in Hlen. cbn in Hlen. lia.
Qed.

Lemma ensures_max_sum_global_search lab_colors k :
  (0 ≤ k ≤ Z.of_nat (length lab_colors))%Z →
  ensures (max_sum_global_search lab_colors k)
    (λ sel, Z.of_nat (length sel) = k).
Proof.
  intros Hk. unfold max_sum_global_search. cbn zeta. apply ensures_ret.
  rewrite length_fmap. apply length_slice_to.
  unfold sort_reverse.
  rewrite length_reverse, (Permutation_length (list_sort_perm _ _)),
    length_reverse, length_fmap, length_seq. lia.
Qed.

Lemma ensures_sa_step lab_colors k cooling_rate st K :
  length (sa_current st) = K → length (sa_best st) = K →
  ensures (sa_step lab_colors k cooling_rate st)
    (λ st', length (sa_current st') = K ∧ length (sa_best st') = K).
Proof.
  intros Hc Hb. unfold sa_step. cbn zeta.
  apply ensures_skip. intros swap_index.
  apply ensures_skip. intros new_index.
  apply ensures_skip. intros neighbor_fitness.
  apply ensures_skip. intros accept.
  apply ensures_ret.
  destruct accept; [|done].
  destruct (F.gt _ _); cbn; by rewrite length_insert.
Qed.

Lemma ensures_sa_loop iterations lab_colors k cooling_rate min_temp st K :
  length (sa_current st) = K → length (sa_best st) = K →
  ensures (sa_loop iterations lab_colors k cooling_rate min_temp st)
    (λ st', length (sa_best st') = K).
Proof.
  revert st. induction iterations as [|n IH]; intros st Hc Hb; cbn [sa_loop].
  - by apply ensures_ret.
  - destruct (F.le _ _); [by apply ensures_ret|].
    eapply ensures_bind; [by apply ensures_sa_step|].
    intros st' [Hc' Hb']. by apply IH.
Qed.

Lemma ensures_simulated_annealing_search lab_colors k settings :
  ensures (simulated_annealing_search lab_colors k settings)
    (λ sel, Z.of_nat (length sel) = k).
Proof.
  unfold simulated_annealing_search. cbn zeta.
  eapply ensures_bind; [apply ensures_random_sample|].
  intros current Hcur. apply ensures_skip. intros fitness.
  eapply ensures_bind.
  - apply (ensures_sa_loop _ _ _ _ _ _ (length current)); done.
  - intros st Hst. apply ensures_ret. cbn in Hcur, Hst. lia.
Qed.

Lemma ensures_kmeans_round lab_colors selected :
  ensures (kmeans_round lab_colors selected)
    (λ selected', length selected' = S (length selected)).
Proof.
  unfold kmeans_round. cbn zeta.
  apply ensures_skip. intros distances.
  destruct (F.eq _ _).
  - apply ensures_skip. intros x. apply ensures_ret.
    rewrite length_app. cbn. lia.
  - apply ensures_skip. intros r. apply ensures_ret.
    rewrite length_app. cbn. lia.
Qed.

Lemma ensures_kmeans_plus_plus_search lab_colors k :
  (0 < k)%Z →
  ensures (kmeans_plus_plus_search lab_colors k)
    (λ sel, Z.of_nat (length sel) = k).
Proof.
  intros Hk. unfold kmeans_plus_plus_search.
  apply ensures_skip. intros first. cbn zeta.
  eapply ensures_weaken.
  - apply ensures_repeat_n_grow. intros st. apply ensures_kmeans_round.
  - intros sel Hlen. cbn in Hlen. unfold rounds_left in Hlen. cbn in Hlen. lia.
Qed.
End returned_length.

Section returned_length_population.
Context `{Platform}.

Lemma list_index_lt x l i : list_index x l = Ok i → i < length l.
Proof.
  revert i. induction l as [|y l IH]; intros i; cbn; [done|].
  destruct (F.same y x); [intros [= <-]; lia|].
  destruct (list_index x l) as [j|]; [|done]. cbn.
  intros [= <-]. specialize (IH j eq_refl). lia.
Qed.

Lemma ensures_ga_child n k population_size mutation_rate population fitnesses :
  (0 ≤ k)%Z →
  ensures (ga_child n k population_size mutation_rate population fitnesses)
    (λ child, length child = Z.to_nat k).
Proof.
  intros Hk. unfold ga_child. cbn zeta.
  apply ensures_skip. intros tournament1.
  apply ensures_skip. intros tournament2.
  apply ensures_skip. intros parent1_idx.
  apply ensures_skip. intros parent2_idx.
  apply ensures_skip. intros parent1.
  apply ensures_skip. intros parent2.
  apply ensures_skip. intros crossover_point.
  eapply ensures_bind.
  { apply ensures_repeat_n_grow. intros child.
    apply ensures_skip. intros x. apply ensures_ret.
    rewrite length_app. cbn. lia. }
  intros child Hchild. cbn beta in Hchild. unfold rounds_left in Hchild.
  assert (length (slice_to child k) = Z.to_nat k) as Hlen.
  { unfold slice_to. destruct (Z.ltb_spec k 0); [lia|].
    rewrite length_take. lia. }
  apply ensures_skip. intros r.
  destruct (F.lt _ _); [|by apply ensures_ret].
  apply ensures_skip. intros mutation_index.
  destruct (not_in_range _ _); [by apply ensures_ret|].
  apply ensures_skip. intros x. apply ensures_ret.
  by rewrite length_insert.
Qed.

Lemma ensures_ga_generation lab_colors k population_size mutation_rate st :
  (0 ≤ k)%Z →
  Forall (λ ind, length ind = Z.to_nat k) st.1 → length st.2.1 = Z.to_nat k →
  ensures (ga_generation lab_colors k population_size mutation_rate st)
    (λ st', Forall (λ ind, length ind = Z.to_nat k) st'.1 ∧
            length st'.2.1 = Z.to_nat k).
Proof.
  intros Hk Hpop Hbest. destruct st as [population [best_solution best_fitness]].
  cbn in Hpop, Hbest. unfold ga_generation.
  eapply ensures_bind.
  { apply (ensures_rnd_of _ (λ fitnesses, length fitnesses = length population)).
    intros fitnesses. apply mapM_ok_length. }
  intros fitnesses Hfit. apply ensures_skip. intros top.
  eapply ensures_bind.
  { apply (ensures_rnd_of _ (λ i, i < length fitnesses)).
    intros i. apply list_index_lt. }
  intros idx Hidx. cbn zeta.
  eapply ensures_bind.
  { apply (ensures_repeat_n (Forall (λ ind, length ind = Z.to_nat k)));
      [constructor|].
    intros new_population Hnew.
    eapply ensures_bind; [by apply ensures_ga_child|].
    intros child Hchild. apply ensures_ret.
    apply Forall_app. split; [done|by constructor]. }
  intros new_population Hnew. apply ensures_ret. cbn. split; [done|].
  cbn in Hfit, Hidx.
  case_match; cbn; [|done].
  destruct (lookup_lt_is_Some_2 population idx) as [ind Hind]; [lia|].
  rewrite (list_lookup_total_correct _ _ _ Hind).
  by eapply (Forall_lookup_1 _ _ _ _ Hpop).
Qed.

Lemma ensures_genetic_algorithm_search lab_colors k settings :
  (0 ≤ k)%Z →
  ensures (genetic_algorithm_search lab_colors k settings)
    (λ sel, Z.of_nat (length sel) = k).
Proof.
  intros Hk. unfold genetic_algorithm_search. cbn zeta.
  apply ensures_skip. intros population_size.
  eapply ensures_bind.
  { apply (ensures_repeat_n (Forall (λ ind, length ind = Z.to_nat k)));
      [constructor|].
    intros population Hpop.
    eapply ensures_bind; [apply ensures_random_sample|].
    intros individual Hind. apply ensures_ret.
    apply Forall_app. split; [done|]. constructor; [|done]. cbn in Hind. lia. }
  intros population Hpop.
  eapply ensures_bind.
  { apply (ensures_rnd_of _ (λ best, length best = Z.to_nat k)).
    intros best. unfold getitem.
    destruct (population !! 0) as [ind|] eqn:Hind; [|done].
    intros [= <-]. by eapply (Forall_lookup_1 _ _ _ _ Hpop). }
  intros best_solution Hbest. apply ensures_skip. intros best_fitness.
  apply ensures_skip. intros generations.
  eapply ensures_bind.
  { apply (ensures_repeat_n
             (λ st : list (list nat) * (list nat * float),
                Forall (λ ind, length ind = Z.to_nat k) st.1 ∧
                length st.2.1 = Z.to_nat k)); [done|].
    intros st [Hp Hb]. by apply ensures_ga_generation. }
  intros [population' [best' fitness']] [_ Hb]. apply ensures_ret.
  cbn in Hb. lia.
Qed.

Lemma ensures_pso_move_slot n position i :
  ensures (pso_move_slot n position i)
    (λ position', length position' = length position).
Proof.
  unfold pso_move_slot.
  apply ensures_skip. intros r1. apply ensures_skip. intros r2.
  apply ensures_skip. intros r.
  destruct (F.lt _ _); [|by apply ensures_ret]. cbn zeta.
  destruct (not_in_range _ _); [by apply ensures_ret|].
  apply ensures_skip. intros x. apply ensures_ret. by rewrite length_insert.
Qed.

Lemma ensures_pso_particle lab_colors k st p K :
  length (position p) = K → length (best_position p) = K → length st.1 = K →
  ensures (pso_particle lab_colors k st p)
    (λ r, (length (position r.1) = K ∧ length (best_position r.1) = K) ∧
          length r.2.1 = K).
Proof.
  intros Hp Hb Hg. destruct st as [gp gf]. cbn in Hg. unfold pso_particle.
  apply ensures_skip. intros fitness.
  destruct (F.gt fitness (best_fitness p));
    [destruct (F.gt fitness gf)|];
    (eapply ensures_bind;
     [apply (ensures_for_each (λ pos, length pos = K)); [done|];
      intros pos i Hpos; eapply ensures_weaken;
      [apply ensures_pso_move_slot|]; cbn; intros; congruence
     |intros pos Hpos; apply ensures_ret; cbn; auto]).
Qed.

Lemma ensures_pso_sweep lab_colors k particles st K :
  Forall (λ p, length (position p) = K ∧ length (best_position p) = K) particles →
  length st.1 = K →
  ensures (pso_sweep lab_colors k particles st)
    (λ r, Forall (λ p, length (position p) = K ∧ length (best_position p) = K) r.1 ∧
          length r.2.1 = K).
Proof.
  intros Hps. revert st.
  induction Hps as [|p ps [Hp Hb] Hps IH]; intros st Hst; cbn [pso_sweep].
  - by apply ensures_ret.
  - eapply ensures_bind; [by apply ensures_pso_particle|].
    intros [p' st'] [Hp' Hst']. eapply ensures_bind; [by apply IH|].
    intros [ps' st''] [Hps' Hst'']. apply ensures_ret. cbn.
    split; [by constructor|done].
Qed.

Lemma ensures_particle_swarm_search lab_colors k settings :
  (0 ≤ k)%Z →
  ensures (particle_swarm_search lab_colors k settings)
    (λ sel, Z.of_nat (length sel) = k).
Proof.
  intros Hk. unfold particle_swarm_search. cbn zeta.
  set (ok := λ p, length (position p) = Z.to_nat k ∧
                  length (best_position p) = Z.to_nat k).
  apply ensures_skip. intros num_particles.
  eapply ensures_bind.
  { apply (ensures_repeat_n (Forall ok)); [constructor|].
    intros particles Hps.
    eapply ensures_bind; [apply ensures_random_sample|].
    intros position Hpos. cbn in Hpos. apply ensures_skip. intros fitness.
    apply ensures_ret. apply Forall_app. split; [done|].
    constructor; [|done]. split; cbn; lia. }
  intros particles Hps.
  eapply ensures_bind.
  { apply (ensures_rnd_of _ ok). intros first. unfold getitem.
    destruct (particles !! 0) as [p|] eqn:Hp0; [|done].
    intros [= <-]. by eapply (Forall_lookup_1 _ _ _ _ Hps). }
  intros first [_ Hfirst]. cbn zeta.
  apply ensures_skip. intros max_iterations.
  match goal with
  | |- context [foldl ?f ?a particles] =>
      assert (length (foldl f a particles).1 = Z.to_nat k) as Hglobal
  end.
  { generalize (best_fitness first). revert Hfirst.
    generalize (best_position first).
    induction Hps as [|p ps [_ Hb] Hps IH]; intros gp Hgp gf; cbn; [done|].
    case_match; by apply IH. }
  eapply ensures_bind.
  { apply (ensures_repeat_n
             (λ st : list particle * (list nat * float),
                Forall ok st.1 ∧ length st.2.1 = Z.to_nat k)); [done|].
    intros [ps st] [Hp Hs]. by apply ensures_pso_sweep. }
  intros [ps [gp gf]] [_ Hgp]. apply ensures_ret. cbn in Hgp. lia.
Qed.
End returned_length_population.

Section returned_length_colony.
Context `{Platform}.

Lemma aco_evaluate_inv lab_colors k best solution best' :
  (∀ sol, best.1 = Some sol → Z.of_nat (length sol) = k) →
  aco_evaluate lab_colors k best solution = Ok best' →
  ∀ sol, best'.1 = Some sol → Z.of_nat (length sol) = k.
Proof.
  intros Hbest. unfold aco_evaluate.
  destruct (Z.eqb_spec (Z.of_nat (length solution)) k) as [Hlen|_].
  - destruct (mapM _ _) as [ds|]; [|done]. cbn.
    destruct (F.min_list ds) as [fitness|]; [|done]. cbn.
    intros [= <-]. case_match; cbn; [|done].
    by intros sol [= <-].
  - by intros [= <-].
Qed.

Lemma ensures_aco_iteration lab_colors k num_ants evaporation_rate alpha beta st :
  (∀ sol, st.2.1 = Some sol → Z.of_nat (length sol) = k) →
  ensures (aco_iteration lab_colors k num_ants evaporation_rate alpha beta st)
    (λ st', ∀ sol, st'.2.1 = Some sol → Z.of_nat (length sol) = k).
Proof.
  intros Hst. destruct st as [pheromones best]. cbn in Hst.
  unfold aco_iteration.
  apply ensures_skip. intros num_ants'.
  apply ensures_skip. intros solutions.
  eapply ensures_bind.
  { apply (ensures_rnd_of _
             (λ b : option (list nat) * float,
                ∀ sol, b.1 = Some sol → Z.of_nat (length sol) = k)).
    intros best'.
    apply (fold_ok_inv (λ b : option (list nat) * float,
                          ∀ sol, b.1 = Some sol → Z.of_nat (length sol) = k));
      [done|].
    intros b solution b' Hb. by apply aco_evaluate_inv. }
  intros best' Hbest'. by apply ensures_ret.
Qed.

Lemma ensures_ant_colony_search lab_colors k settings :
  ensures (ant_colony_search lab_colors k settings)
    (λ sel, Z.of_nat (length sel) = k).
Proof.
  unfold ant_colony_search. cbn zeta.
  apply ensures_skip. intros max_iterations.
  eapply ensures_bind.
  { apply (ensures_repeat_n
             (λ st : list float * (option (list nat) * float),
                ∀ sol, st.2.1 = Some sol → Z.of_nat (length sol) = k)); [done|].
    intros st Hst. by apply ensures_aco_iteration. }
  intros [pheromones [[best|] fitness]] Hbest.
  - apply ensures_ret. by apply Hbest.
  - apply ensures_random_sample.
Qed.

Lemma tabu_examine_inv lab_colors k iteration st r K :
  length (tabu_current st) = K →
  tabu_examine lab_colors k iteration st = Ok r →
  ∀ nb, r.1 = Some nb → length nb = K.
Proof.
  intros Hcur. unfold tabu_examine. cbn zeta.
  apply (fold_ok_inv (λ r : option (list nat) * float,
                        ∀ nb, r.1 = Some nb → length nb = K)); [done|].
  intros [bn bf] [i j] acc Hacc.
  case_bool_decide; [|by intros [= <-]].
  destruct (getitem _ _) as [c|]; [|done]. cbn.
  destruct (calculate_fitness _ _) as [fitness|]; [|done]. cbn.
  intros [= <-]. case_match; [|done]. cbn. intros nb [= <-].
  by rewrite length_insert.
Qed.

Lemma tabu_apply_inv k tabu_tenure iteration st neighbor fitness st' K :
  length neighbor = K → length (tabu_best st) = K →
  tabu_apply k tabu_tenure iteration st neighbor fitness = Ok st' →
  length (tabu_current st') = K ∧ length (tabu_best st') = K.
Proof.
  intros Hn Hb. unfold tabu_apply. cbn zeta.
  destruct (F.gt fitness (tabu_best_fitness st));
    (destruct (fold_ok _ _ _) as [tabu|]; [|done]); cbn; by intros [= <-].
Qed.

Lemma tabu_loop_inv iterations lab_colors k tabu_tenure iteration st st' K :
  length (tabu_current st) = K → length (tabu_best st) = K →
  tabu_loop iterations lab_colors k tabu_tenure iteration st = Ok st' →
  length (tabu_best st') = K.
Proof.
  revert iteration st.
  induction iterations as [|n IH]; intros iteration st Hc Hb; cbn [tabu_loop].
  - by intros [= <-].
  - destruct (tabu_examine _ _ _ _) as [[bn bf]|] eqn:Hex; [|done]. cbn.
    destruct bn as [neighbor|]; [|by intros [= <-]].
    pose proof (tabu_examine_inv _ _ _ _ _ _ Hc Hex neighbor eq_refl) as Hn.
    destruct (tabu_apply _ _ _ _ _ _) as [st1|] eqn:Hap; [|done]. cbn.
    destruct (tabu_apply_inv _ _ _ _ _ _ _ _ Hn Hb Hap) as [Hc1 Hb1].
    by apply IH.
Qed.

Lemma tabu_search_run_length lab_colors k settings sel :
  (0 ≤ k)%Z →
  tabu_search_run lab_colors k settings = Ok sel → Z.of_nat (length sel) = k.
Proof.
  intros Hk. unfold tabu_search_run, tabu_search_state. cbn zeta.
  destruct (calculate_fitness _ _) as [best_fitness|]; [|done]. cbn.
  destruct (as_int _) as [max_iterations|]; [|done]. cbn.
  destruct (tabu_loop _ _ _ _ _ _) as [st|] eqn:Hloop; [|done]. cbn.
  intros [= <-].
  apply (tabu_loop_inv _ _ _ _ _ _ _ (Z.to_nat k)) in Hloop;
    [lia|cbn; unfold range; by rewrite length_seq..].
Qed.

Lemma exact_minimum_search_length lab_colors k sel :
  (0 ≤ k)%Z →
  exact_minimum_search lab_colors k = Ok sel → Z.of_nat (length sel) = k.
Proof.
  intros Hk. unfold exact_minimum_search. cbn zeta.
  destruct (Z.ltb_spec k 0); [lia|].
  destruct (exact_minimum_scan _ _) as [[best f]|] eqn:Hscan; [|done]. cbn.
  destruct best as [best|]; [|done]. intros [= <-].
  unfold exact_minimum_scan in Hscan.
  assert (∀ s, (Some best, f).1 = Some s → length s = Z.to_nat k) as Hlen.
  { revert Hscan.
    apply (fold_ok_inv_elem (λ r : option (list nat) * float,
                               ∀ s, r.1 = Some s → length s = Z.to_nat k));
      [done|].
    intros [bs b] c acc Hc Hacc.
    destruct (calculate_min_distance _ _) as [d|]; [|done]. cbn.
    intros [= <-]. case_match; [|done]. cbn. intros s [= <-].
    by apply combinations_sublist in Hc as [_ ?]. }
  rewrite (Hlen best eq_refl). lia.
Qed.

(** Whatever the strategy, for [0 < k <= n] a search that returns has
    returned [k] positions. *)
Lemma SEARCHES_length alg (sr : search) k settings lab_colors :
  (0 < k ≤ Z.of_nat (length lab_colors))%Z →
  SEARCHES !! alg = Some sr →
  ensures (sr k settings lab_colors) (λ sel, Z.of_nat (length sel) = k).
Proof.
  intros Hk. unfold SEARCHES. cbn [list_to_map foldr uncurry fst snd].
  repeat (rewrite lookup_insert; case_decide; [intros [= <-]|]).
  - apply ensures_sequential_search. lia.
  - by apply ensures_max_sum_global_search; lia.
  - apply ensures_sequential_search. lia.
  - apply ensures_simulated_annealing_search.
  - apply ensures_kmeans_plus_plus_search. lia.
  - apply ensures_genetic_algorithm_search. lia.
  - apply ensures_particle_swarm_search. lia.
  - apply ensures_ant_colony_search.
  - apply ensures_rnd_of. intros sel. apply tabu_search_run_length. lia.
  - apply ensures_rnd_of. intros sel. apply exact_minimum_search_length. lia.
  - by rewrite lookup_empty.
Qed.
End returned_length_colony.

(** ** Exact Minimum against every selection *)

Lemma le_not_below x y : F.le y x = true → not_below fcmp x y.
Proof.
  unfold F.le. rewrite leb_fcmp.
  intros [Hc|Hc]; apply (cmp_flip fcmp) in Hc; cbn in Hc; [by right|by left].
Qed.

Lemma F_le_trans x y z : F.le x y = true → F.le y z = true → F.le x z = true.
Proof.
  intros Hxy%le_not_below Hyz%le_not_below. apply not_below_le.
  eapply (not_below_trans fcmp); [exact Hyz|exact Hxy].
Qed.

Lemma not_NoDup_dup (l : list nat) :
  ¬ NoDup l → ∃ i j a, i < j ∧ l !! i = Some a ∧ l !! j = Some a.
Proof.
  induction l as [|x l IH]; intros Hnd.
  - destruct Hnd. constructor.
  - destruct (decide (x ∈ l)) as [Hx|Hx].
    + apply list_elem_of_lookup in Hx as [j Hj].
      exists 0, (S j), x. split_and!; [lia|done|done].
    + destruct IH as (i & j & a & Hij & Hi & Hj).
      { intros Hl. apply Hnd. by constructor. }
      exists (S i), (S j), a. split_and!; [lia|done..].
Qed.

Section exact_against_all.
Context `{Platform}.

Lemma lookup_total_in_pool (lab_colors : list lab) sel p a :
  Forall (λ i, i < length lab_colors) sel → sel !! p = Some a →
  lab_colors !!! a ∈ lab_colors.
Proof.
  intros Hv Hp. apply list_elem_of_lookup_total_2.
  by eapply (Forall_lookup_1 _ _ _ _ Hv).
Qed.

(** The value the code computes for a selection of valid positions is
    its minimum pairwise Delta E. *)
Lemma min_pairwise_fitness lab_colors sel :
  distances_ok lab_colors → Forall (λ i, i < length lab_colors) sel →
  min_pairwise lab_colors sel
    (foldl F.min2 F.inf (pair_distances lab_colors sel)).
Proof.
  intros Hd Hv. destruct (fitness_spec _ _ Hd Hv) as (_ & _ & Hall & Hat). split.
  - intros i j a b Hij Hi Hj. apply not_below_le, Hall.
    apply elem_of_pair_distances. eauto 10.
  - destruct Hat as [?|Hin]; [by left|right].
    by apply elem_of_pair_distances in Hin.
Qed.

Lemma min_pairwise_num lab_colors sel g :
  distances_ok lab_colors → Forall (λ i, i < length lab_colors) sel →
  min_pairwise lab_colors sel g → is_num g.
Proof.
  intros Hd Hv [_ [->|(i & j & a & b & Hij & Hi & Hj & ->)]]; [apply is_num_inf|].
  apply nonneg_is_num, Hd; by eapply lookup_total_in_pool.
Qed.

(** Any minimum pairwise Delta E of a selection is at most the value the
    code computes for it. *)
Lemma min_pairwise_le_fitness lab_colors sel g :
  distances_ok lab_colors → Forall (λ i, i < length lab_colors) sel →
  min_pairwise lab_colors sel g →
  F.le g (foldl F.min2 F.inf (pair_distances lab_colors sel)) = true.
Proof.
  intros Hd Hv Hg. pose proof (min_pairwise_num _ _ _ Hd Hv Hg) as Hn.
  destruct (fitness_spec _ _ Hd Hv) as (_ & _ & _ & [Heq|Hin]).
  - rewrite Heq. apply not_below_le. by apply fcmp_le_inf.
  - apply elem_of_pair_distances in Hin as (i & j & a & b & Hij & Hi & Hj & Heq).
    rewrite Heq. by eapply (proj1 Hg).
Qed.

(** A selection of [k] valid positions, distinct or not, against a value
    that bounds the selections of [k] distinct positions. *)
Lemma competitor_le lab_colors k f sel g :
  distances_ok lab_colors →
  F.le 0 f = true →
  (∀ sel, selection_ok (length lab_colors) k sel →
     ∃ g, calculate_fitness lab_colors sel = Ok g ∧ F.le g f = true) →
  Forall (λ i, i < length lab_colors) sel → Z.of_nat (length sel) = k →
  min_pairwise lab_colors sel g → F.le g f = true.
Proof.
  intros Hd Hf Hmax Hv Hlen Hg.
  destruct (decide (NoDup sel)) as [Hnd|Hnd].
  - destruct (Hmax sel) as (g' & Hg' & Hle).
    { split_and!; [done|done|by apply Forall_forall]. }
    unfold calculate_fitness in Hg'.
    rewrite calculate_fitness_from_ok in Hg' by done. injection Hg' as <-.
    eapply F_le_trans; [by apply min_pairwise_le_fitness|done].
  - destruct (not_NoDup_dup _ Hnd) as (i & j & a & Hij & Hi & Hj).
    eapply F_le_trans; [by eapply (proj1 Hg)|].
    apply delta_e_self_le; [|done].
    apply nonneg_is_num, Hd; by eapply lookup_total_in_pool.
Qed.

(** C2: for [0 < k <= n] and a pool whose distances are non-negative
    numbers, Exact Minimum returns one of the [k]-combinations of
    [range(n)], [k] distinct valid positions, and the value [f] it
    computed for it is the minimum pairwise Delta E of that selection: at
    most the [delta_e] of each of its pairs, and attained by one of them.
    This [f] is the maximum over all [k]-combinations, and it is at least
    the minimum pairwise Delta E of every list of [k] valid positions,
    repeated positions included; in particular of the selection any
    strategy returns through [select_distinct_colors] on the same pool
    with the same [k], whatever its settings and the generator. *)
Theorem exact_minimum_is_optimal lab_colors k :
  (0 < k ≤ Z.of_nat (length lab_colors))%Z →
  distances_ok lab_colors →
  ∃ best f,
    exact_minimum_search lab_colors k = Ok best ∧
    best ∈ combinations (seq 0 (length lab_colors)) (Z.to_nat k) ∧
    selection_ok (length lab_colors) k best ∧
    calculate_min_distance lab_colors best = Ok f ∧
    min_pairwise lab_colors best f ∧
    (∀ c g, c ∈ combinations (seq 0 (length lab_colors)) (Z.to_nat k) →
       min_pairwise lab_colors c g → F.le g f = true) ∧
    (∀ sel g, Forall (λ i, i < length lab_colors) sel →
       Z.of_nat (length sel) = k →
       min_pairwise lab_colors sel g → F.le g f = true) ∧
    (∀ colors alg settings w r,
       rgb_to_lab <$> heap w !!! colors = lab_colors →
       (select_distinct_colors colors k alg settings w).1 = Ok r →
       ∃ (sr : search) selected selected_colors,
         SEARCHES !! alg = Some sr ∧
         (sr k settings lab_colors (entropy w)).1 = Ok selected ∧
         mapM (getitem (heap w !!! colors)) selected = Ok selected_colors ∧
         r !! "colors" = Some (RColors (sort_colors selected_colors)) ∧
         ∀ g, min_pairwise lab_colors selected g → F.le g f = true).
Proof.
  intros Hk Hd.
  destruct (exact_minimum_optimal_fitness lab_colors k Hk Hd)
    as (best & f & Hrun & Hbest & Hf & Hcombos & Hsel).
  assert (∀ c, c ∈ combinations (seq 0 (length lab_colors)) (Z.to_nat k) →
            selection_ok (length lab_colors) k c) as Hcomb_ok.
  { intros c [Hsub Hlen]%combinations_sublist. split_and!.
    - eapply sublist_NoDup; [apply NoDup_seq|done].
    - lia.
    - intros i Hi. pose proof (elem_of_sublist _ _ _ Hi Hsub) as Hi'.
      apply elem_of_seq in Hi'. lia. }
  assert (∀ c, selection_ok (length lab_colors) k c →
            Forall (λ i, i < length lab_colors) c) as Hvalid.
  { intros c (_ & _ & Hc). by apply Forall_forall. }
  pose proof (Hcomb_ok best Hbest) as Hbest_ok.
  pose proof (Hvalid best Hbest_ok) as Hbest_valid.
  assert (f = foldl F.min2 F.inf (pair_distances lab_colors best)) as Hfit.
  { unfold calculate_min_distance in Hf.
    rewrite calculate_fitness_from_ok in Hf by done. by injection Hf. }
  assert (F.le 0 f = true) as Hpos.
  { destruct (fitness_spec _ _ Hd Hbest_valid) as (_ & _ & _ & [Heq|Hin]).
    - by rewrite Hfit, Heq.
    - rewrite Hfit. pose proof (pair_distances_ok _ _ Hd Hbest_valid) as Hall.
      rewrite Forall_forall in Hall. by apply Hall. }
  assert (∀ sel g, Forall (λ i, i < length lab_colors) sel →
            Z.of_nat (length sel) = k →
            min_pairwise lab_colors sel g → F.le g f = true) as Hall.
  { intros sel g. by apply competitor_le. }
  exists best, f. split_and!; [done|done|done|done| | |done|].
  - rewrite Hfit. by apply min_pairwise_fitness.
  - intros c g Hc Hg. destruct (Hcomb_ok c Hc) as (? & ? & ?).
    apply (Hall c g); [by apply Hvalid, Hcomb_ok|done|done].
  - intros colors alg settings w r Hlabs Hr.
    rewrite select_distinct_colors_unfold, ALGORITHMS_SEARCHES in Hr.
    destruct (SEARCHES !! alg) as [sr|] eqn:Hsr; [|done]. cbn in Hr.
    case_match; [done|].
    apply run_strategy_ok in Hr as (sel & scs & t & Hs & Hm & ->).
    rewrite Hlabs in Hs.
    exists sr, sel, scs. split_and!; [done|done|done|done|].
    intros g. apply Hall.
    + apply mapM_getitem in Hm. apply Forall_lookup. intros p i Hp.
      destruct (Forall2_lookup_l _ _ _ _ _ Hm Hp) as (x & _ & Hx).
      apply lookup_lt_Some in Hx. by rewrite <-Hlabs, length_fmap.
    + destruct (sr k settings lab_colors (entropy w)) as [o s'] eqn:Hsearch.
      cbn in Hs. subst o.
      by apply (SEARCHES_length alg sr k settings lab_colors Hk Hsr _ _ _ Hsearch).
Qed.
End exact_against_all.

(** ** The further properties on the dark pool *)

Section further_examples.
Local Existing Instance bare_platform.

Lemma dark_labs_valid sel :
  Forall (λ i, i < 3) sel →
  Forall (λ i, i < length (rgb_to_lab <$> dark_pool)) sel.
Proof. by rewrite length_fmap. Qed.

Lemma calculate_fitness_is_min_pairwise_witness :
  distances_ok (rgb_to_lab <$> dark_pool) ∧
  Forall (λ i, i < length (rgb_to_lab <$> dark_pool)) [0; 2; 1] ∧
  ∃ f,
    calculate_fitness (rgb_to_lab <$> dark_pool) [0; 2; 1] = Ok f ∧
    (∀ i j a b, i < j → [0; 2; 1] !! i = Some a → [0; 2; 1] !! j = Some b →
       F.le f (delta_e ((rgb_to_lab <$> dark_pool) !!! a)
                       ((rgb_to_lab <$> dark_pool) !!! b)) = true) ∧
    (f = F.inf ∨
     ∃ i j a b, i < j ∧ [0; 2; 1] !! i = Some a ∧ [0; 2; 1] !! j = Some b ∧
                f = delta_e ((rgb_to_lab <$> dark_pool) !!! a)
                            ((rgb_to_lab <$> dark_pool) !!! b)).
Proof.
  assert (Forall (λ i, i < length (rgb_to_lab <$> dark_pool)) [0; 2; 1]) as Hv.
  { apply dark_labs_valid. repeat constructor. }
  split; [exact dark_pool_distances_ok|]. split; [exact Hv|].
  exact (calculate_fitness_is_min_pairwise (rgb_to_lab <$> dark_pool) [0; 2; 1]
           dark_pool_distances_ok Hv).
Defined.

Lemma calculate_fitness_order_independent_witness :
  distances_ok (rgb_to_lab <$> dark_pool) ∧
  Forall (λ i, i < length (rgb_to_lab <$> dark_pool)) [0; 2] ∧
  NoDup [0; 2] ∧ [0; 2] ≡ₚ [2; 0] ∧
  ∃ f1 f2,
    calculate_fitness (rgb_to_lab <$> dark_pool) [0; 2] = Ok f1 ∧
    calculate_fitness (rgb_to_lab <$> dark_pool) [2; 0] = Ok f2 ∧
    F.eq f1 f2 = true.
Proof.
  assert (Forall (λ i, i < length (rgb_to_lab <$> dark_pool)) [0; 2]) as Hv.
  { apply dark_labs_valid. repeat constructor. }
  assert (NoDup [0; 2]) as Hnd.
  { apply NoDup_cons. split; [|apply NoDup_singleton].
    rewrite list_elem_of_singleton. lia. }
  assert ([0; 2] ≡ₚ [2; 0]) as Hp by apply Permutation_swap.
  split; [exact dark_pool_distances_ok|]. split; [exact Hv|].
  split; [exact Hnd|]. split; [exact Hp|].
  exact (calculate_fitness_order_independent (rgb_to_lab <$> dark_pool)
           [0; 2] [2; 0] dark_pool_distances_ok Hv Hnd Hp).
Defined.

Lemma sequential_strategies_select_witness :
  rgb_to_lab <$> dark_pool ≠ [] ∧
  (2 ≤ Z.of_nat (length (rgb_to_lab <$> dark_pool)))%Z ∧
  (∃ sel, greedy_search (rgb_to_lab <$> dark_pool) 2 [5%N] = (Ok sel, tail [5%N]) ∧
          selection_ok (length (rgb_to_lab <$> dark_pool)) (Z.max 1 2) sel) ∧
  (∃ sel, max_sum_sequential_search (rgb_to_lab <$> dark_pool) 2 [5%N]
            = (Ok sel, tail [5%N]) ∧
          selection_ok (length (rgb_to_lab <$> dark_pool)) (Z.max 1 2) sel).
Proof.
  assert (rgb_to_lab <$> dark_pool ≠ []) as Hne by discriminate.
  assert (2 ≤ Z.of_nat (length (rgb_to_lab <$> dark_pool)))%Z as Hk
    by (rewrite length_fmap; cbn; lia).
  split; [exact Hne|]. split; [exact Hk|].
  exact (sequential_strategies_select (rgb_to_lab <$> dark_pool) 2 [5%N] Hne Hk).
Defined.

Lemma max_sum_global_selects_witness :
  (0 ≤ 2 ≤ Z.of_nat (length (rgb_to_lab <$> dark_pool)))%Z ∧
  ∃ sel, max_sum_global_search (rgb_to_lab <$> dark_pool) 2 [] = (Ok sel, []) ∧
         selection_ok (length (rgb_to_lab <$> dark_pool)) 2 sel.
Proof.
  assert (0 ≤ 2 ≤ Z.of_nat (length (rgb_to_lab <$> dark_pool)))%Z as Hk
    by (rewrite length_fmap; cbn; lia).
  split; [exact Hk|].
  exact (max_sum_global_selects (rgb_to_lab <$> dark_pool) 2 [] Hk).
Defined.

Lemma dark_pool_totals_num p :
  p < length (rgb_to_lab <$> dark_pool) →
  is_num (total_distance_to_others (rgb_to_lab <$> dark_pool) p).
Proof.
  rewrite length_fmap. cbn [length dark_pool]. intros Hp.
  destruct p as [|[|[|p]]]; [vm_compute; reflexivity..|lia].
Qed.

Lemma max_sum_global_top_witness :
  (0 ≤ 2)%Z ∧
  (∀ p, p < length (rgb_to_lab <$> dark_pool) →
        is_num (total_distance_to_others (rgb_to_lab <$> dark_pool) p)) ∧
  max_sum_global_search (rgb_to_lab <$> dark_pool) 2 [] = (Ok [0; 2], []) ∧
  0 ∈ [0; 2] ∧ 1 < length (rgb_to_lab <$> dark_pool) ∧ (1 ∉ [0; 2]) ∧
  F.lt (total_distance_to_others (rgb_to_lab <$> dark_pool) 0)
       (total_distance_to_others (rgb_to_lab <$> dark_pool) 1) = false.
Proof.
  assert (max_sum_global_search (rgb_to_lab <$> dark_pool) 2 [] = (Ok [0; 2], []))
    as Hrun by (vm_compute; reflexivity).
  assert (0 ∈ [0; 2]) as Hi by apply list_elem_of_here.
  assert (1 < length (rgb_to_lab <$> dark_pool)) as Hj
    by (rewrite length_fmap; cbn; lia).
  assert (1 ∉ [0; 2]) as Hnj.
  { rewrite !not_elem_of_cons. split_and!; [lia..|apply not_elem_of_nil]. }
  assert (0 ≤ 2)%Z as Hk by lia.
  split; [exact Hk|]. split; [exact dark_pool_totals_num|]. split; [exact Hrun|].
  split; [exact Hi|]. split; [exact Hj|]. split; [exact Hnj|].
  exact (max_sum_global_top (rgb_to_lab <$> dark_pool) 2 [] [0; 2] 0 1
           Hk dark_pool_totals_num Hrun Hi Hj Hnj).
Defined.

Lemma ant_colony_one_colour_raises_witness :
  rgb_to_lab <$> dark_pool ≠ [] ∧
  as_int (settings_get ∅ "iterations" (VInt 100)) = Ok 100%Z ∧
  as_int (settings_get ∅ "numAnts" (VInt 20)) = Ok 20%Z ∧
  (1 ≤ 100)%Z ∧ (1 ≤ 20)%Z ∧
  (ant_colony_search (rgb_to_lab <$> dark_pool) 1 ∅ []).1 = Raise ValueError.
Proof.
  assert (rgb_to_lab <$> dark_pool ≠ []) as Hne by discriminate.
  split; [exact Hne|]. split; [reflexivity|]. split; [reflexivity|].
  assert (1 ≤ 100)%Z as H100 by lia. assert (1 ≤ 20)%Z as H20 by lia.
  split; [exact H100|]. split; [exact H20|].
  exact (ant_colony_one_colour_raises (rgb_to_lab <$> dark_pool) ∅ 100 20 []
           Hne eq_refl eq_refl H100 H20).
Defined.


Lemma palette_mixed_prefix_witness :
  [(1, 2, 3)%Z] ≠ [] ∧
  ∃ random,
    generate_random_colors 2 [7%N] = (Ok random, drop (3 * Z.to_nat 2) [7%N]) ∧
    generate_color_palette 2 (Some [(1, 2, 3)%Z]) "mixed" [7%N]
      = (Ok ([(1, 2, 3)%Z] ++ drop (length [(1, 2, 3)%Z]) random),
         drop (3 * Z.to_nat 2) [7%N]) ∧
    length ([(1, 2, 3)%Z] ++ drop (length [(1, 2, 3)%Z]) random)
      = Z.to_nat 2 `max` length [(1, 2, 3)%Z].
Proof.
  assert ([(1, 2, 3)%Z] ≠ []) as Hne by discriminate.
  split; [exact Hne|].
  exact (palette_mixed_prefix 2 [(1, 2, 3)%Z] [7%N] Hne).
Defined.

Lemma calculate_metrics_bounds_witness :
  distances_ok (rgb_to_lab <$> dark_pool) ∧ 2 ≤ length dark_pool ∧
  ∃ m mn mx,
    calculate_metrics dark_pool = Ok m ∧
    m !! "min" = Some (VFloat mn) ∧ m !! "max" = Some (VFloat mx) ∧
    ∀ i j ci cj, i < j → dark_pool !! i = Some ci → dark_pool !! j = Some cj →
      F.le mn (delta_e (rgb_to_lab ci) (rgb_to_lab cj)) = true ∧
      F.le (delta_e (rgb_to_lab ci) (rgb_to_lab cj)) mx = true.
Proof.
  assert (2 ≤ length dark_pool) as Hlen by (cbn; lia).
  split; [exact dark_pool_distances_ok|]. split; [exact Hlen|].
  exact (calculate_metrics_bounds dark_pool dark_pool_distances_ok Hlen).
Defined.

Lemma generate_n_colors_dispatch_witness :
  ALGORITHMS !! "greedy" = Some greedy_selection ∧
  ∃ pool,
    length pool = Z.to_nat (Z.max (2 * 10) 20) ∧ Forall rgb_ok pool ∧
    generate_n_colors 2 "greedy" None dark_world
      = greedy_selection (fresh (dom (heap dark_world) : gset nat)) 2 None
          (World (drop (3 * Z.to_nat (Z.max (2 * 10) 20)) (entropy dark_world))
                 (clock dark_world)
                 (<[fresh (dom (heap dark_world) : gset nat) := pool]>
                    (heap dark_world))).
Proof.
  split; [exact ALGORITHMS_greedy|].
  exact (generate_n_colors_dispatch 2 "greedy" None dark_world greedy_selection
           ALGORITHMS_greedy).
Defined.

Lemma generate_n_colors_returns_witness :
  ("greedy" = "greedy" ∨ "greedy" = "max_sum_sequential") ∧
  ∃ r cs w',
    generate_n_colors 2 "greedy" None dark_world = (Ok r, w') ∧
    r !! "colors" = Some (RColors cs) ∧ is_Some (r !! "time") ∧
    length cs = Z.to_nat (Z.max 1 2) ∧ Forall rgb_ok cs ∧
    entropy w' = drop (3 * Z.to_nat (Z.max (2 * 10) 20) + 1) (entropy dark_world) ∧
    ∀ l cs0, heap dark_world !! l = Some cs0 → heap w' !! l = Some cs0.
Proof.
  assert ("greedy" = "greedy" ∨ "greedy" = "max_sum_sequential") as Halg
    by (left; reflexivity).
  split; [exact Halg|].
  exact (generate_n_colors_returns 2 "greedy" None dark_world Halg).
Defined.

Lemma dark_pool_rgb_ok : Forall rgb_ok dark_pool.
Proof. repeat constructor; cbn; lia. Qed.

Lemma delta_e_symmetric_witness :
  rgb_ok (6, 6, 6)%Z ∧ rgb_ok (10, 10, 10)%Z ∧
  delta_e (rgb_to_lab (6, 6, 6)%Z) (rgb_to_lab (10, 10, 10)%Z)
    = delta_e (rgb_to_lab (10, 10, 10)%Z) (rgb_to_lab (6, 6, 6)%Z).
Proof.
  assert (rgb_ok (6, 6, 6)%Z) as H1 by (repeat split; cbn; lia).
  assert (rgb_ok (10, 10, 10)%Z) as H2 by (repeat split; cbn; lia).
  split; [exact H1|]. split; [exact H2|].
  exact (delta_e_symmetric (6, 6, 6)%Z (10, 10, 10)%Z H1 H2).
Defined.

Lemma sort_colors_rearranges_witness :
  Forall rgb_ok dark_pool ∧
  sort_colors dark_pool ≡ₚ dark_pool ∧
  length (sort_colors dark_pool) = length dark_pool.
Proof.
  split; [exact dark_pool_rgb_ok|].
  exact (sort_colors_rearranges dark_pool dark_pool_rgb_ok).
Defined.

Lemma calculate_metrics_total_witness :
  Forall rgb_ok dark_pool ∧
  ∃ m,
    calculate_metrics dark_pool = Ok m ∧
    (length dark_pool < 2 →
     m !! "min" = Some (VInt 0) ∧ m !! "max" = Some (VInt 0) ∧
     m !! "avg" = Some (VInt 0) ∧ m !! "sum" = Some (VInt 0)) ∧
    (2 ≤ length dark_pool →
     ∃ mn mx,
       m !! "min" = Some (VFloat mn) ∧ m !! "max" = Some (VFloat mx) ∧
       (∃ i j ci cj, i < j ∧ dark_pool !! i = Some ci ∧ dark_pool !! j = Some cj ∧
                     mn = delta_e (rgb_to_lab ci) (rgb_to_lab cj)) ∧
       (∃ i j ci cj, i < j ∧ dark_pool !! i = Some ci ∧ dark_pool !! j = Some cj ∧
                     mx = delta_e (rgb_to_lab ci) (rgb_to_lab cj))).
Proof.
  split; [exact dark_pool_rgb_ok|].
  exact (calculate_metrics_total dark_pool dark_pool_rgb_ok).
Defined.

Lemma exact_minimum_is_optimal_witness :
  (0 < 2 ≤ Z.of_nat (length (rgb_to_lab <$> dark_pool)))%Z ∧
  distances_ok (rgb_to_lab <$> dark_pool) ∧
  ∃ best f,
    exact_minimum_search (rgb_to_lab <$> dark_pool) 2 = Ok best ∧
    best ∈ combinations (seq 0 (length (rgb_to_lab <$> dark_pool))) (Z.to_nat 2) ∧
    selection_ok (length (rgb_to_lab <$> dark_pool)) 2 best ∧
    calculate_min_distance (rgb_to_lab <$> dark_pool) best = Ok f ∧
    min_pairwise (rgb_to_lab <$> dark_pool) best f ∧
    (∀ c g,
       c ∈ combinations (seq 0 (length (rgb_to_lab <$> dark_pool))) (Z.to_nat 2) →
       min_pairwise (rgb_to_lab <$> dark_pool) c g → F.le g f = true) ∧
    (∀ sel g, Forall (λ i, i < length (rgb_to_lab <$> dark_pool)) sel →
       Z.of_nat (length sel) = 2%Z →
       min_pairwise (rgb_to_lab <$> dark_pool) sel g → F.le g f = true) ∧
    (∀ colors alg settings w r,
       rgb_to_lab <$> heap w !!! colors = rgb_to_lab <$> dark_pool →
       (select_distinct_colors colors 2 alg settings w).1 = Ok r →
       ∃ (sr : search) selected selected_colors,
         SEARCHES !! alg = Some sr ∧
         (sr 2%Z settings (rgb_to_lab <$> dark_pool) (entropy w)).1 = Ok selected ∧
         mapM (getitem (heap w !!! colors)) selected = Ok selected_colors ∧
         r !! "colors" = Some (RColors (sort_colors selected_colors)) ∧
         ∀ g, min_pairwise (rgb_to_lab <$> dark_pool) selected g →
              F.le g f = true).
Proof.
  assert (0 < 2 ≤ Z.of_nat (length (rgb_to_lab <$> dark_pool)))%Z as Hk
    by (vm_compute; split; [reflexivity|discriminate]).
  split; [exact Hk|]. split; [exact dark_pool_distances_ok|].
  exact (exact_minimum_is_optimal (rgb_to_lab <$> dark_pool) 2 Hk
           dark_pool_distances_ok).
Defined.
End further_examples.
